(** * WireTAP server: SocketCAN to TCP GVRET bridge

    A shallow embedding of [tools/wiretap-server/wiretap-server.py] and the
    properties of its frame codec, its GVRET client session, its
    PostgreSQL ingest pipeline, its console lines and its configuration
    file.

    Conventions.  Python integers are [Z]; a byte is a [Z] in [0, 256);
    [bytes] and [bytearray] values are [list Z].  A Python exception that
    the source does not catch is [None] in an [option] result.  Stateful
    objects are records that the embedded methods take and return. *)

From Stdlib Require Import String.
From Stdlib Require Import ZArith List Bool Lia.
Import ListNotations.
Local Open Scope Z_scope.

(** ** Module-level constants *)

Definition CAN_EFF_FLAG : Z := 0x80000000.
Definition CAN_RTR_FLAG : Z := 0x40000000.
Definition CAN_ERR_FLAG : Z := 0x20000000.
Definition CAN_EFF_MASK : Z := 0x1FFFFFFF.
Definition CAN_SFF_MASK : Z := 0x000007FF.
Definition CANFD_BRS : Z := 0x01.
Definition CANFD_ESI : Z := 0x02.

Definition CAN_FD_DLC_LEN : list Z :=
  [0; 1; 2; 3; 4; 5; 6; 7; 8; 12; 16; 20; 24; 32; 48; 64].

(** ** DLC and data length *)

(** [dlc_to_len(dlc, is_fd)]. *)
Definition dlc_to_len (dlc : Z) (is_fd : bool) : Z :=
  if dlc <=? 8 then dlc
  else if is_fd && (dlc <=? 15) then nth (Z.to_nat dlc) CAN_FD_DLC_LEN 0
  else 8.

(** The [for dlc, dlen in enumerate(table)] loop of [len_to_dlc]: the index
    of the first entry that is at least [length], counting from [dlc]. *)
Fixpoint first_fit (length dlc : Z) (table : list Z) : option Z :=
  match table with
  | [] => None
  | dlen :: rest =>
      if dlen >=? length then Some dlc else first_fit length (dlc + 1) rest
  end.

(** [len_to_dlc(length)]. *)
Definition len_to_dlc (length : Z) : Z :=
  if length <=? 8 then length
  else match first_fit length 0 CAN_FD_DLC_LEN with
       | Some dlc => dlc
       | None => 15
       end.

(** ** Bytes and little-endian integers *)

(** [x.to_bytes(n, "little", signed=False)]; [None] is [OverflowError]. *)
Fixpoint le_digits (n : nat) (x : Z) : list Z :=
  match n with
  | O => []
  | S k => x mod 256 :: le_digits k (x / 256)
  end.

Definition to_bytes (x : Z) (n : nat) : option (list Z) :=
  if (0 <=? x) && (x <? 256 ^ Z.of_nat n) then Some (le_digits n x) else None.

(** [int.from_bytes(b, "little", signed=False)]. *)
Fixpoint from_bytes (b : list Z) : Z :=
  match b with
  | [] => 0
  | d :: rest => d + 256 * from_bytes rest
  end.

Definition is_byte (b : Z) : Prop := 0 <= b < 256.

(** [b[lo:hi]] for [0 <= lo]. *)
Definition slice (lo hi : nat) (b : list Z) : list Z :=
  firstn (hi - lo) (skipn lo b).

(** [b.ljust(n, b"\x00")]. *)
Definition ljust (n : nat) (b : list Z) : list Z :=
  b ++ repeat 0 (n - length b).

(** Truth of [x & flag] for an integer [x]. *)
Definition has_flag (x flag : Z) : bool := negb (Z.land x flag =? 0).

(** Exceptions: [x <- e ;; k] stops at the first [None]. *)
Definition bind {A B : Type} (e : option A) (k : A -> option B) : option B :=
  match e with
  | Some a => k a
  | None => None
  end.

Notation "x <- e ;; k" := (bind e (fun x => k))
  (at level 61, e at next level, right associativity).

Notation "' pat <- e ;; k" := (bind e (fun x => match x with pat => k end))
  (at level 61, pat pattern, e at next level, right associativity).

(** ** Netlink attributes and bit rates *)

Definition IFLA_CAN_BITTIMING : Z := 1.
Definition IFLA_CAN_DATA_BITTIMING : Z := 9.

(** [align4]: [(x + 3) & ~3]. *)
Definition align4 (x : Z) : Z := Z.land (x + 3) (Z.lnot 3).

(** The loop of [_parse_tlvs(raw)] from offset [i], on a host whose native
    byte order is little-endian (the [struct] format is "HH").  Each turn
    moves [i] on by four bytes at the least, so [fuel] above the length of
    [raw] is never used up. *)
Fixpoint parse_tlvs_loop (fuel : nat) (raw : list Z) (i : nat)
    (out : list (Z * list Z)) : list (Z * list Z) :=
  match fuel with
  | O => out
  | S fuel' =>
      if (i + 4 <=? length raw)%nat then
        let alen := from_bytes (slice i (i + 2) raw) in
        let atype := from_bytes (slice (i + 2) (i + 4) raw) in
        if (alen <? 4) || (Z.of_nat (length raw) <? Z.of_nat i + alen) then out
        else
          let val := slice (i + 4) (Z.to_nat (Z.of_nat i + alen)) raw in
          parse_tlvs_loop fuel' raw (Z.to_nat (Z.of_nat i + align4 alen))
            (out ++ [(atype, val)])
      else out
  end.

Definition _parse_tlvs (raw : list Z) : list (Z * list Z) :=
  parse_tlvs_loop (S (length raw)) raw 0 [].

(** The loop of [detect_bitrates] over the attributes: a bit-timing
    attribute of four bytes or more sets the nominal rate, a data
    bit-timing attribute of four bytes or more the data rate. *)
Fixpoint rates_of_tlvs (tlvs : list (Z * list Z)) (nominal data : Z) : Z * Z :=
  match tlvs with
  | [] => (nominal, data)
  | (t, v) :: rest =>
      if ((t =? IFLA_CAN_BITTIMING) || (t =? IFLA_CAN_DATA_BITTIMING))
         && (4 <=? length v)%nat
      then
        let br := from_bytes (slice 0 4 v) in
        if t =? IFLA_CAN_BITTIMING then rates_of_tlvs rest br data
        else rates_of_tlvs rest nominal br
      else rates_of_tlvs rest nominal data
  end.

(** [detect_bitrates(iface, default)] from the bytes of the interface's
    IFLA_INFO_DATA attribute; [None] when the link has none, or when its
    lookup or its conversion to bytes raises. *)
Definition detect_bitrates (info_data : option (list Z)) (default : Z) : Z * Z :=
  match info_data with
  | None => (default, 0)
  | Some [] => (default, 0)
  | Some raw => rates_of_tlvs (_parse_tlvs raw) default 0
  end.

(** ** Console lines *)

(** [chr(n)] for a byte [n]. *)
Definition chr (n : Z) : string :=
  String (Ascii.ascii_of_nat (Z.to_nat n)) EmptyString.

(** [_colour_red(s, enable)] and [_colour_yellow(s, enable)]; [chr 27] is
    the escape character. *)
Definition _colour_red (s : string) (enable : bool) : string :=
  if enable then (chr 27 ++ "[31m" ++ s ++ chr 27 ++ "[0m")%string else s.

Definition _colour_yellow (s : string) (enable : bool) : string :=
  if enable then (chr 27 ++ "[33m" ++ s ++ chr 27 ++ "[0m")%string else s.

(** The digits of [x >= 0] to the base [base <= 16], upper case, put
    before [acc]; a number [x] has no more than [log2 x + 1] digits. *)
Fixpoint digits (fuel : nat) (base x : Z) (acc : string) : string :=
  match fuel with
  | O => acc
  | S k =>
      let d := match String.get (Z.to_nat (x mod base)) "0123456789ABCDEF" with
               | Some a => a
               | None => Ascii.ascii_of_nat 48
               end in
      if x / base =? 0 then String d acc
      else digits k base (x / base) (String d acc)
  end.

Definition numeral (base x : Z) : string :=
  digits (S (Z.to_nat (Z.log2 x))) base x EmptyString.

(** [s.rjust(width, c)] and [s.ljust(width, c)]. *)
Definition pad (c : Z) (width : Z) (s : string) : string :=
  string_of_list_ascii
    (repeat (Ascii.ascii_of_nat (Z.to_nat c))
            (Z.to_nat (width - Z.of_nat (String.length s)))).

Definition str_rjust (width : Z) (c : Z) (s : string) : string :=
  (pad c width s ++ s)%string.

Definition str_ljust (width : Z) (c : Z) (s : string) : string :=
  (s ++ pad c width s)%string.

(** The format specifications the lines use: [{x}] for an integer,
    [{x:0wd}] and [{x:0wX}] for an integer that is not negative. *)
Definition format_d (x : Z) : string :=
  if x <? 0 then ("-" ++ numeral 10 (- x))%string else numeral 10 x.

Definition format_0d (width x : Z) : string := str_rjust width 48 (numeral 10 x).

Definition format_0X (width x : Z) : string := str_rjust width 48 (numeral 16 x).

(** What [format_candump_line] reads off the frame: the identifier word,
    the length byte, the FD flags, the data field, the number of bytes to
    show and whether the frame is an FD frame; [None] for a frame that is
    neither 16 nor 72 bytes long. *)
Record candump_fields := mkFields {
  cd_can_id : Z;
  cd_dlc : Z;
  cd_fd_flags : Z;
  cd_raw : list Z;
  cd_data_len : Z;
  cd_is_fd : bool
}.

Definition candump_decode (frame_bytes : list Z) : option candump_fields :=
  if (length frame_bytes =? 16)%nat then
    let can_id := from_bytes (slice 0 4 frame_bytes) in
    let dlc := nth 4 frame_bytes 0 in
    Some (mkFields can_id dlc 0 (slice 8 16 frame_bytes) (Z.min dlc 8) false)
  else if (length frame_bytes =? 72)%nat then
    let can_id := from_bytes (slice 0 4 frame_bytes) in
    let dlc := nth 4 frame_bytes 0 in
    let fd_flags := nth 5 frame_bytes 0 in
    Some (mkFields can_id dlc fd_flags (slice 8 72 frame_bytes)
            (dlc_to_len dlc true) true)
  else None.

(** [raw[:data_len]], the bytes the line shows. *)
Definition cd_data (f : candump_fields) : list Z :=
  firstn (Z.to_nat (cd_data_len f)) (cd_raw f).

(** [format_candump_line(frame_bytes, color_ascii, t0_us, bus_idx, is_fd)].
    The clock readings are inputs: [monotonic_us] is
    [time.monotonic_ns() // 1_000] and [wall] is [time.time()] as
    ["{:.6f}"] prints it.  The [is_fd] argument is overwritten before it
    is read. *)
Definition format_candump_line (frame_bytes : list Z) (color_ascii : bool)
    (t0_us : Z) (bus_idx : option Z) (is_fd : bool)
    (monotonic_us : Z) (wall : string) : string :=
  match candump_decode frame_bytes with
  | None => EmptyString
  | Some f =>
      let can_id := cd_can_id f in
      let dlc := cd_dlc f in
      let fd_flags := cd_fd_flags f in
      let data_len := cd_data_len f in
      let is_fd := cd_is_fd f in
      let data := cd_data f in
      let is_ext := has_flag can_id CAN_EFF_FLAG in
      let is_rtr := has_flag can_id CAN_RTR_FLAG in
      let is_err := has_flag can_id CAN_ERR_FLAG in
      let arb_id := Z.land can_id (if is_ext then CAN_EFF_MASK else CAN_SFF_MASK) in
      let id_str := if is_ext then format_0X 8 arb_id else format_0X 3 arb_id in
      let kind := ((if is_ext then "E" else "S") ++ (if is_fd then "F" else EmptyString))%string in
      let flags :=
        ((if is_rtr then "R" else EmptyString)
         ++ (if is_err then "!" else EmptyString)
         ++ (if is_fd && has_flag fd_flags CANFD_BRS then "B" else EmptyString)
         ++ (if is_fd && has_flag fd_flags CANFD_ESI then "E" else EmptyString))%string in
      let is_print := fun b => (0x20 <=? b) && (b <=? 0x7E) in
      let hex_parts :=
        map (fun b => _colour_red (format_0X 2 b) (color_ascii && is_print b)) data in
      let ascii_parts :=
        map (fun b => _colour_red (if is_print b then chr b else "."%string)
                        (color_ascii && is_print b)) data in
      let hex_pad := if negb is_fd then 23 else data_len * 3 - 1 in
      let bytes_str := str_ljust hex_pad 32 (String.concat " " hex_parts) in
      let ascii_str := String.concat EmptyString ascii_parts in
      let bus_tag :=
        match bus_idx with
        | Some n => _colour_yellow ("B" ++ format_d n ++ " ")%string color_ascii
        | None => EmptyString
        end in
      let ts_str :=
        if negb (t0_us =? 0) then
          let rel_us := monotonic_us - t0_us in
          let sec := rel_us / 1000000 in
          let rem_us := rel_us mod 1000000 in
          let ms := rem_us / 1000 in
          let us := rem_us mod 1000 in
          (format_d sec ++ "." ++ format_0d 3 ms ++ "_" ++ format_0d 3 us)%string
        else wall in
      (bus_tag ++ "(" ++ ts_str ++ ") " ++ id_str ++ " " ++ kind ++ flags
       ++ " [" ++ format_d dlc ++ "] " ++ bytes_str ++ " | " ++ ascii_str
       ++ chr 10)%string
  end.

(** ** GVRET client session *)

Module Gvret.

Record GVRETClient := mkClient {
  binary : bool;
  buf : list Z;
  alive : bool;
  bus_count : Z;
  bus_speeds : list Z;
  (** what [conn.sendall] was given, oldest first *)
  sent : list (list Z)
}.

Definition with_buf (c : GVRETClient) (b : list Z) : GVRETClient :=
  mkClient (binary c) b (alive c) (bus_count c) (bus_speeds c) (sent c).

Definition enter_binary (c : GVRETClient) : GVRETClient :=
  mkClient true (buf c) (alive c) (bus_count c) (bus_speeds c) (sent c).

(** [close()]. *)
Definition close (c : GVRETClient) : GVRETClient :=
  mkClient (binary c) (buf c) false (bus_count c) (bus_speeds c) (sent c).

(** [_send(b)], the peer taking every write. *)
Definition _send (c : GVRETClient) (b : list Z) : GVRETClient :=
  mkClient (binary c) (buf c) (alive c) (bus_count c) (bus_speeds c)
           (sent c ++ [b]).

(** A session as [__init__] leaves it. *)
Definition new_client (n : Z) (speeds : list Z) : GVRETClient :=
  mkClient false [] true n speeds [].

Definition reply_dev_info (c : GVRETClient) : option GVRETClient :=
  build <- to_bytes 400 2 ;;
  Some (_send c ([0xF1; 0x07] ++ build ++ [1; 0; 0; 0])).

(** [bus_speeds[i]]; [None] is [IndexError]. *)
Definition speed_at (c : GVRETClient) (i : nat) : option Z :=
  nth_error (bus_speeds c) i.

Definition reply_canbus_params (c : GVRETClient) : option GVRETClient :=
  let n := bus_count c in
  let can0_enabled := if n >=? 1 then 1 else 0 in
  let can1_enabled := if n >=? 2 then 1 else 0 in
  let can0_listen := 0 in
  let can1_listen := 0 in
  let can0_flags :=
    Z.lor (if can0_enabled =? 0 then 0 else 1)
          (Z.shiftl (if can0_listen =? 0 then 0 else 1) 4) in
  let can1_flags :=
    Z.lor (if can1_enabled =? 0 then 0 else 1)
          (Z.shiftl (if can1_listen =? 0 then 0 else 1) 4) in
  can0_speed <- (if n >=? 1 then speed_at c 0 else Some 0) ;;
  can1_speed <- (if n >=? 2 then speed_at c 1 else Some 0) ;;
  rate0 <- to_bytes can0_speed 4 ;;
  rate1 <- to_bytes can1_speed 4 ;;
  Some (_send c ([0xF1; 0x06] ++ [can0_flags] ++ rate0 ++ [can1_flags] ++ rate1)).

Definition reply_num_buses (c : GVRETClient) : option GVRETClient :=
  Some (_send c ([0xF1; 0x0C] ++ [Z.land (bus_count c) 0xFF])).

(** [clock] is [int((time.monotonic() - t0) * 1_000_000)]. *)
Definition reply_timebase (clock : Z) (c : GVRETClient) : option GVRETClient :=
  us <- to_bytes (Z.land clock 0xFFFFFFFF) 4 ;;
  Some (_send c ([0xF1; 0x01] ++ us)).

Definition reply_keepalive (c : GVRETClient) : option GVRETClient :=
  Some (_send c [0xF1; 0x09; 0xDE; 0xAD]).


(** [buf.find(b"\xE7\xE7")]. *)
Fixpoint find_E7E7 (b : list Z) : option nat :=
  match b with
  | x :: rest =>
      match rest with
      | y :: _ =>
          if (x =? 0xE7) && (y =? 0xE7) then Some O
          else option_map S (find_E7E7 rest)
      | [] => None
      end
  | [] => None
  end.

(** The handshake loop of [_rx_loop]; each turn deletes at least two
    bytes, so [fuel] above half the buffer length is never used up. *)
Fixpoint handshake (fuel : nat) (c : GVRETClient) : GVRETClient :=
  match fuel with
  | O => c
  | S fuel' =>
      match find_E7E7 (buf c) with
      | None => c
      | Some idx =>
          handshake fuel' (enter_binary (with_buf c (skipn (idx + 2) (buf c))))
      end
  end.

(** The resync loop: drop leading bytes other than [F1]. *)
Fixpoint resync (b : list Z) : list Z :=
  match b with
  | x :: rest => if x =? 0xF1 then b else resync rest
  | [] => []
  end.

Inductive consumed := Consumed | NeedMore | Raised.

Section Session.

(** The state behind the [tx_func] callable and the callable itself; a
    [None] result is an exception raised by it. *)
Variable St : Type.
Variable tx_func : option (Z -> Z -> list Z -> St -> option St).

Definition _try_consume_send_frame (c : GVRETClient) (st : St)
  : consumed * GVRETClient * St :=
  let b := buf c in
  if (length b <? 8)%nat then (NeedMore, c, st)
  else if negb ((nth 0 b 0 =? 0xF1) && (nth 1 b 0 =? 0x00)) then (NeedMore, c, st)
  else
    let dlc := nth 7 b 0 in
    let need := 8 + dlc in
    if Z.of_nat (length b) <? need then (NeedMore, c, st)
    else
      let can_id_le := from_bytes (slice 2 6 b) in
      let bus := Z.land (nth 6 b 0) 0xFF in
      let dlc := Z.min dlc 8 in
      let data := slice 8 (8 + Z.to_nat dlc) b in
      let c := with_buf c (skipn (Z.to_nat need) b) in
      let is_eff := has_flag can_id_le 0x80000000 in
      let arb := Z.land can_id_le (if is_eff then 0x1FFFFFFF else 0x7FF) in
      let can_id_sc := Z.lor arb (if is_eff then CAN_EFF_FLAG else 0) in
      match tx_func with
      | Some f =>
          match f bus can_id_sc data st with
          | Some st' => (Consumed, c, st')
          | None => (Raised, c, st)
          end
      | None => (Consumed, c, st)
      end.

(** The fixed-size requests, after their two header bytes are consumed. *)
Definition dispatch (clock cmd : Z) (c : GVRETClient) : option GVRETClient :=
  if cmd =? 0x07 then reply_dev_info c
  else if cmd =? 0x06 then reply_canbus_params c
  else if cmd =? 0x0C then reply_num_buses c
  else if cmd =? 0x01 then reply_timebase clock c
  else if cmd =? 0x09 then reply_keepalive c
  else Some c.

(** The [while self.binary] loop; a turn that does not stop consumes at
    least two bytes of the buffer. *)
Fixpoint parse_binary (fuel : nat) (clock : Z) (c : GVRETClient) (st : St)
  : GVRETClient * St :=
  match fuel with
  | O => (c, st)
  | S fuel' =>
      if negb (binary c) then (c, st)
      else
        let c := with_buf c (resync (buf c)) in
        match buf c with
        | x0 :: cmd :: rest =>
            if negb (x0 =? 0xF1) then (c, st)
            else if cmd =? 0x00 then
              match _try_consume_send_frame c st with
              | (Consumed, c', st') => parse_binary fuel' clock c' st'
              | (NeedMore, c', st') => (c', st')
              | (Raised, c', st') => (close c', st')
              end
            else
              let c := with_buf c rest in
              match dispatch clock cmd c with
              | Some c' => parse_binary fuel' clock c' st
              | None => (close c, st)
              end
        | _ => (c, st)
        end
  end.

(** One turn of the receive loop on a non-empty [chunk]. *)
Definition rx_chunk (clock : Z) (chunk : list Z) (c : GVRETClient) (st : St)
  : GVRETClient * St :=
  let c := with_buf c (buf c ++ chunk) in
  let c := handshake (S (length (buf c))) c in
  parse_binary (S (length (buf c))) clock c st.

(** [_rx_loop] over the chunks [recv] returns; an empty chunk is the peer
    closing, and the session is closed when the loop is left. *)
Fixpoint _rx_loop (clock : Z) (chunks : list (list Z)) (c : GVRETClient) (st : St)
  : GVRETClient * St :=
  match chunks with
  | [] => (c, st)
  | chunk :: more =>
      if negb (alive c) then (c, st)
      else
        match chunk with
        | [] => (close c, st)
        | _ :: _ =>
            let '(c', st') := rx_chunk clock chunk c st in
            _rx_loop clock more c' st'
        end
  end.

End Session.

End Gvret.


(** ** Ingest pipeline: disk cache and PostgreSQL writer *)

Module Ingest.

(** One row of the ingest function: the nine-tuple built by [enqueue].
    Timestamps are integer microseconds; the conversion of a timestamp to
    the cache's REAL column and back is taken to be exact. *)
Record row := mkRow {
  ts : Z;
  extended : bool;
  is_fd : bool;
  arb_id : Z;
  id_hex : option string;
  dlc : Z;
  data : list Z;
  bus : Z;
  dir : string
}.

(** What the queue holds: rows, and the empty tuple [close] puts to wake
    the worker. *)
Inductive item := Row (r : row) | Wake.

(** The [frames] table (kept in [id] order, which is insertion order under
    AUTOINCREMENT), the last id given out, the size limit and the size of
    the database file. *)
Record DiskCache := mkCache {
  frames : list (Z * row);
  last_id : Z;
  max_bytes : Z;
  st_size : Z;
  closed : bool
}.

(** The SQL connection is up or down for the whole of a worker turn, and
    the cache file takes writes or not. *)
Record Env := mkEnv {
  connect_ok : bool;
  execute_ok : bool;
  cache_write_ok : bool
}.

Record PostgresWriter := mkWriter {
  batch_size : Z;
  queue_max : Z;
  queue_flush_pct : Z;
  default_dir : string;
  q : list item;
  _alive : bool;
  _conn : bool;
  _disk_cache : DiskCache;
  _db_unavailable : bool;
  _draining_cache : bool;
  count_enqueued : Z;
  count_written : Z;
  count_dropped : Z;
  count_cached : Z;
  count_cache_recovered : Z;
  (** the worker's local [batch], which lives across turns *)
  batch : list row;
  (** the rows the ingest function has committed, oldest first *)
  pg_rows : list row
}.

Section Disk.

(** The size of the database file after a batch is inserted, and the size
    of a newly created one: SQLite's own. *)
Variable grow : Z -> list row -> Z.
Variable fresh_size : Z.

(** The eight columns a row is stored as: [id_hex] is not kept. *)
Definition converted (r : row) : row :=
  mkRow (ts r) (extended r) (is_fd r) (arb_id r) None (dlc r) (data r)
        (bus r) (dir r).

Fixpoint autoincrement (last : Z) (rows : list row) : list (Z * row) :=
  match rows with
  | [] => []
  | r :: rest => (last + 1, converted r) :: autoincrement (last + 1) rest
  end.

(** [write_batch(rows)]: the cache after it and the number of rows written;
    [None] is an sqlite3 error. *)
Definition write_batch (ok : bool) (c : DiskCache) (rows : list row)
  : option (DiskCache * Z) :=
  match rows with
  | [] => Some (c, 0)
  | _ :: _ =>
      if closed c || negb ok then None
      else
        Some (mkCache (frames c ++ autoincrement (last_id c) rows)
                      (last_id c + Z.of_nat (length rows))
                      (max_bytes c)
                      (grow (st_size c) rows)
                      (closed c),
              Z.of_nat (length rows))
  end.

(** [read_batch(limit)]: the oldest rows, as (ids, rows); a negative LIMIT
    is no limit. *)
Definition read_batch (limit : Z) (c : DiskCache) : list Z * list row :=
  let sel := if limit <? 0 then frames c
             else firstn (Z.to_nat limit) (frames c) in
  (map fst sel, map snd sel).

Definition delete_batch (ids : list Z) (c : DiskCache) : DiskCache :=
  match ids with
  | [] => c
  | _ :: _ =>
      mkCache (filter (fun f => negb (existsb (Z.eqb (fst f)) ids)) (frames c))
              (last_id c) (max_bytes c) (st_size c) (closed c)
  end.


Definition is_empty (c : DiskCache) : bool :=
  match frames c with
  | [] => true
  | _ :: _ => false
  end.

Definition size_bytes (c : DiskCache) : Z := st_size c.

Definition is_full (c : DiskCache) : bool := size_bytes c >=? max_bytes c.

(** [close()], [delete_file()] and the [DiskCache(path, max_mb)] that the
    worker builds after them. *)
Definition reopened (c : DiskCache) : DiskCache :=
  mkCache [] 0 (max_bytes c / (1024 * 1024) * 1024 * 1024) fresh_size false.

Definition close_cache (c : DiskCache) : DiskCache :=
  mkCache (frames c) (last_id c) (max_bytes c) (st_size c) true.

(** ** PostgresWriter *)

Definition with_q (w : PostgresWriter) (items : list item) : PostgresWriter :=
  mkWriter (batch_size w) (queue_max w) (queue_flush_pct w) (default_dir w)
           items (_alive w) (_conn w) (_disk_cache w) (_db_unavailable w)
           (_draining_cache w) (count_enqueued w) (count_written w)
           (count_dropped w) (count_cached w) (count_cache_recovered w)
           (batch w) (pg_rows w).

Definition with_batch (w : PostgresWriter) (b : list row) : PostgresWriter :=
  mkWriter (batch_size w) (queue_max w) (queue_flush_pct w) (default_dir w)
           (q w) (_alive w) (_conn w) (_disk_cache w) (_db_unavailable w)
           (_draining_cache w) (count_enqueued w) (count_written w)
           (count_dropped w) (count_cached w) (count_cache_recovered w)
           b (pg_rows w).

Definition with_cache (w : PostgresWriter) (c : DiskCache) : PostgresWriter :=
  mkWriter (batch_size w) (queue_max w) (queue_flush_pct w) (default_dir w)
           (q w) (_alive w) (_conn w) c (_db_unavailable w)
           (_draining_cache w) (count_enqueued w) (count_written w)
           (count_dropped w) (count_cached w) (count_cache_recovered w)
           (batch w) (pg_rows w).

Definition with_conn (w : PostgresWriter) (up unavailable : bool)
  : PostgresWriter :=
  mkWriter (batch_size w) (queue_max w) (queue_flush_pct w) (default_dir w)
           (q w) (_alive w) up (_disk_cache w) unavailable
           (_draining_cache w) (count_enqueued w) (count_written w)
           (count_dropped w) (count_cached w) (count_cache_recovered w)
           (batch w) (pg_rows w).

Definition with_draining (w : PostgresWriter) (d : bool) : PostgresWriter :=
  mkWriter (batch_size w) (queue_max w) (queue_flush_pct w) (default_dir w)
           (q w) (_alive w) (_conn w) (_disk_cache w) (_db_unavailable w)
           d (count_enqueued w) (count_written w)
           (count_dropped w) (count_cached w) (count_cache_recovered w)
           (batch w) (pg_rows w).

Definition with_alive (w : PostgresWriter) (a : bool) : PostgresWriter :=
  mkWriter (batch_size w) (queue_max w) (queue_flush_pct w) (default_dir w)
           (q w) a (_conn w) (_disk_cache w) (_db_unavailable w)
           (_draining_cache w) (count_enqueued w) (count_written w)
           (count_dropped w) (count_cached w) (count_cache_recovered w)
           (batch w) (pg_rows w).

(** [count_enqueued += 1]. *)
Definition add_enqueued (w : PostgresWriter) : PostgresWriter :=
  mkWriter (batch_size w) (queue_max w) (queue_flush_pct w) (default_dir w)
           (q w) (_alive w) (_conn w) (_disk_cache w) (_db_unavailable w)
           (_draining_cache w) (count_enqueued w + 1) (count_written w)
           (count_dropped w) (count_cached w) (count_cache_recovered w)
           (batch w) (pg_rows w).

(** [count_dropped += n]. *)
Definition add_dropped (w : PostgresWriter) (n : Z) : PostgresWriter :=
  mkWriter (batch_size w) (queue_max w) (queue_flush_pct w) (default_dir w)
           (q w) (_alive w) (_conn w) (_disk_cache w) (_db_unavailable w)
           (_draining_cache w) (count_enqueued w) (count_written w)
           (count_dropped w + n) (count_cached w) (count_cache_recovered w)
           (batch w) (pg_rows w).

(** [count_cached += n]. *)
Definition add_cached (w : PostgresWriter) (n : Z) : PostgresWriter :=
  mkWriter (batch_size w) (queue_max w) (queue_flush_pct w) (default_dir w)
           (q w) (_alive w) (_conn w) (_disk_cache w) (_db_unavailable w)
           (_draining_cache w) (count_enqueued w) (count_written w)
           (count_dropped w) (count_cached w + n) (count_cache_recovered w)
           (batch w) (pg_rows w).

(** [execute_values] and [commit] of [rows], then [count_written += len]
    and, for rows read from the cache, [count_cache_recovered += len]. *)
Definition committed (w : PostgresWriter) (rows : list row) (from_cache : bool)
  : PostgresWriter :=
  let n := Z.of_nat (length rows) in
  mkWriter (batch_size w) (queue_max w) (queue_flush_pct w) (default_dir w)
           (q w) (_alive w) (_conn w) (_disk_cache w) (_db_unavailable w)
           (_draining_cache w) (count_enqueued w) (count_written w + n)
           (count_dropped w) (count_cached w)
           (count_cache_recovered w + (if from_cache then n else 0))
           (batch w) (pg_rows w ++ rows).

(** [PostgresWriter.__init__] over a cache file that may hold the frames
    of an earlier session. *)
Definition new_writer (batch_size queue_max queue_flush_pct : Z)
    (default_dir : string) (cache : DiskCache) : PostgresWriter :=
  mkWriter batch_size queue_max queue_flush_pct default_dir
           [] true false cache false false 0 0 0 0 0 [] [].

(** [q.qsize()] and [q.put_nowait(x)]; a [maxsize] of zero or less is no
    bound, and [None] is [Full]. *)
Definition qsize (w : PostgresWriter) : Z := Z.of_nat (length (q w)).

Definition put_nowait (w : PostgresWriter) (x : item) : option PostgresWriter :=
  if (0 <? queue_max w) && (queue_max w <=? qsize w) then None
  else Some (with_q w (q w ++ [x])).

(** [enqueue(ts, can_id, dlc, data, bus, dir_, is_fd)]. *)
Definition enqueue_row (w : PostgresWriter) (ts can_id dlc : Z)
    (data : list Z) (bus : Z) (dir_ : option string) (is_fd : bool) : row :=
  let extended := has_flag can_id CAN_EFF_FLAG in
  let arb_id := Z.land can_id (if extended then CAN_EFF_MASK else CAN_SFF_MASK) in
  let data_len := if is_fd then dlc_to_len dlc is_fd else Z.min dlc 8 in
  let payload := firstn (Z.to_nat data_len) data in
  let dir_final := match dir_ with
                   | Some d => if String.eqb d EmptyString then default_dir w else d
                   | None => default_dir w
                   end in
  mkRow ts extended is_fd arb_id None dlc payload bus dir_final.

Definition enqueue (w : PostgresWriter) (ts can_id dlc : Z)
    (data : list Z) (bus : Z) (dir_ : option string) (is_fd : bool)
  : PostgresWriter :=
  match put_nowait w (Row (enqueue_row w ts can_id dlc data bus dir_ is_fd)) with
  | Some w' => add_enqueued w'
  | None => add_dropped w 1
  end.

(** [_write_to_cache(batch)]. *)
Definition _write_to_cache (e : Env) (w : PostgresWriter) (b : list row)
  : PostgresWriter :=
  if is_full (_disk_cache w) then add_dropped w (Z.of_nat (length b))
  else
    match write_batch (cache_write_ok e) (_disk_cache w) b with
    | Some (c, written) => add_cached (with_cache w c) written
    | None => add_dropped w (Z.of_nat (length b))
    end.

(** The [get_nowait] loop shared by [_drain_queue_to_cache] and
    [_emergency_flush_to_disk], over the items the queue holds: full
    chunks are written as they fill, and what is left of the last chunk is
    returned. *)
Fixpoint drain_items (e : Env) (items : list item) (chunk : list row)
    (w : PostgresWriter) : PostgresWriter * list row :=
  match items with
  | [] => (w, chunk)
  | Wake :: rest => drain_items e rest chunk w
  | Row r :: rest =>
      let chunk := chunk ++ [r] in
      if Z.of_nat (length chunk) >=? batch_size w
      then drain_items e rest [] (_write_to_cache e w chunk)
      else drain_items e rest chunk w
  end.

Definition _drain_queue_to_cache (e : Env) (w : PostgresWriter)
  : PostgresWriter :=
  let '(w', chunk) := drain_items e (q w) [] (with_q w []) in
  match chunk with
  | [] => w'
  | _ :: _ => _write_to_cache e w' chunk
  end.

Definition _emergency_flush_to_disk (e : Env) (w : PostgresWriter)
  : PostgresWriter :=
  _drain_queue_to_cache e w.

(** [size / cap >= threshold] for [threshold = pct / 100.0], compared as
    fractions. *)
Definition over_threshold (size cap pct : Z) : bool :=
  if 0 <? cap then pct * cap <=? 100 * size
  else 100 * size <=? pct * cap.

Definition _maybe_flush_queue_overflow (e : Env) (w : PostgresWriter)
  : PostgresWriter :=
  let cap := queue_max w in
  if cap =? 0 then w
  else if over_threshold (qsize w) cap (queue_flush_pct w)
       then _drain_queue_to_cache e w
       else w.

(** The [except Exception] arm of the worker loop. *)
Definition on_write_error (e : Env) (w : PostgresWriter) : PostgresWriter :=
  let w := with_conn w false true in
  let w := match batch w with
           | [] => w
           | _ :: _ => with_batch (_write_to_cache e w (batch w)) []
           end in
  _drain_queue_to_cache e w.

(** The [get_nowait] loop that fills a batch from the queue. *)
Fixpoint fill_batch (limit : Z) (items : list item) (b : list row)
  : list row * list item :=
  if Z.of_nat (length b) <? limit then
    match items with
    | [] => (b, [])
    | Wake :: rest => fill_batch limit rest b
    | Row r :: rest => fill_batch limit rest (b ++ [r])
    end
  else (b, items).

(** Priority 2 of the worker loop: a batch from the in-memory queue.  The
    timed [q.get] returns the head of the queue, or nothing when the queue
    stays empty for the flush interval. *)
Definition process_queue (e : Env) (w : PostgresWriter) : PostgresWriter :=
  let first := match q w with
               | [] => ([], [])
               | Wake :: rest => ([], rest)
               | Row r :: rest => ([r], rest)
               end in
  let '(b, rest) := fill_batch (batch_size w) (snd first) (fst first) in
  let w := with_batch (with_q w rest) b in
  if execute_ok e
  then match b with
       | [] => w
       | _ :: _ => committed w b false
       end
  else on_write_error e w.

(** Priorities 1 and 2 of a turn of the worker loop, once it holds a
    connection: a batch from the disk cache while it has frames, else a
    batch from the queue. *)
Definition drain_or_process (e : Env) (w : PostgresWriter) : PostgresWriter :=
  if negb (is_empty (_disk_cache w)) then
    let w := with_draining w true in
    let '(ids, b) := read_batch (batch_size w) (_disk_cache w) in
    let w := with_batch w b in
    match b with
    | _ :: _ =>
        if execute_ok e
        then let w := committed w b true in
             with_cache w (delete_batch ids (_disk_cache w))
        else on_write_error e w
    | [] =>
        let w := with_draining w false in
        let w := with_cache w (reopened (_disk_cache w)) in
        process_queue e w
    end
  else process_queue e w.

(** One turn of the [while self._alive] loop of [_worker]. *)
Definition worker_turn (e : Env) (w : PostgresWriter) : PostgresWriter :=
  let w := _maybe_flush_queue_overflow e w in
  if negb (_conn w) && negb (connect_ok e) then on_write_error e w
  else drain_or_process e (if _conn w then w else with_conn w true false).

(** The [get_nowait] loop of [_shutdown_flush]. *)
Fixpoint rows_of (items : list item) : list row :=
  match items with
  | [] => []
  | Wake :: rest => rows_of rest
  | Row r :: rest => r :: rows_of rest
  end.

Definition _shutdown_flush (e : Env) (w : PostgresWriter) : PostgresWriter :=
  let remaining := rows_of (q w) in
  let w := with_q w [] in
  match remaining with
  | [] => with_conn w false (_db_unavailable w)
  | _ :: _ =>
      if _conn w && execute_ok e
      then with_conn (committed w remaining false) false (_db_unavailable w)
      else
        let w := with_conn w false (_db_unavailable w) in
        let w := _write_to_cache e w remaining in
        with_cache w (close_cache (_disk_cache w))
  end.

(** [_worker], one turn at a time: while [_alive] a turn of the loop, and
    once [close] has cleared it nothing more. *)
Definition _worker (e : Env) (w : PostgresWriter) : PostgresWriter :=
  if _alive w then worker_turn e w else w.

(** [close()]: a worker that is still in its loop leaves it and runs
    [_shutdown_flush] before the join returns. *)
Definition close (e : Env) (w : PostgresWriter) : PostgresWriter :=
  let running := _alive w in
  let w := with_alive w false in
  let w := match put_nowait w Wake with
           | Some w' => w'
           | None => w
           end in
  let w := if running then _shutdown_flush e w else w in
  let w := match q w with
           | [] => w
           | _ :: _ => _emergency_flush_to_disk e w
           end in
  if closed (_disk_cache w) then w
  else with_cache w (close_cache (_disk_cache w)).

(** ** Runs of the pipeline *)

(** What happens to a writer: a producer calls [enqueue], the worker takes
    a turn, or the owner calls [close]. *)
Inductive event :=
| Enqueue (ts can_id dlc : Z) (data : list Z) (bus : Z)
          (dir_ : option string) (is_fd : bool)
| Turn (e : Env)
| Close (e : Env).

Definition step (w : PostgresWriter) (ev : event) : PostgresWriter :=
  match ev with
  | Enqueue ts can_id dlc data bus dir_ is_fd =>
      enqueue w ts can_id dlc data bus dir_ is_fd
  | Turn e => _worker e w
  | Close e => close e w
  end.

Definition run (w : PostgresWriter) (trace : list event) : PostgresWriter :=
  fold_left step trace w.

End Disk.

End Ingest.

(** ** Bridge core: kernel frame layouts, transmit path, receive path *)

Module Bridge.

(** [struct.pack("<IB3x8s", can_id, dlc, data)] and
    [struct.pack("<IBBBB64s", can_id, length, 0, 0, 0, data)]; [None] is
    [struct.error] for a field out of range.  An [Ns] field cuts a longer
    value. *)
Definition pack_classic (can_id dlc : Z) (data : list Z) : option (list Z) :=
  id <- to_bytes can_id 4 ;;
  d <- to_bytes dlc 1 ;;
  Some (id ++ d ++ [0; 0; 0] ++ firstn 8 (ljust 8 data)).

Definition pack_fd (can_id len f r0 r1 : Z) (data : list Z) : option (list Z) :=
  id <- to_bytes can_id 4 ;;
  l <- to_bytes len 1 ;;
  fl <- to_bytes f 1 ;;
  p0 <- to_bytes r0 1 ;;
  p1 <- to_bytes r1 1 ;;
  Some (id ++ l ++ fl ++ p0 ++ p1 ++ firstn 64 (ljust 64 data)).

(** The frame [_tx_can] builds, with the [dlc], [data_len] and [is_fd] it
    goes on to log: FD only when the server runs in FD mode. *)
Definition tx_frame (server_fd : bool) (can_id : Z) (data : list Z) (is_fd : bool)
  : option (list Z * Z * Z * bool) :=
  let data_len := Z.of_nat (length data) in
  if is_fd && server_fd then
    let data_len := Z.min data_len 64 in
    let dlc := len_to_dlc data_len in
    frame <- pack_fd can_id data_len 0 0 0 (ljust 64 data) ;;
    Some (frame, dlc, data_len, true)
  else
    let dlc := Z.min data_len 8 in
    frame <- pack_classic can_id dlc (ljust 8 (firstn 8 data)) ;;
    Some (frame, dlc, data_len, false).

(** What [run] reads off a frame the kernel delivered; [None] is
    [struct.error] for a frame shorter than its header. *)
Record received := mkReceived {
  rx_can_id : Z;
  rx_dlc : Z;
  rx_data_len : Z;
  rx_data : list Z;
  rx_fd_flags : Z;
  rx_is_fd : bool
}.

Definition rx_frame (frame : list Z) : option received :=
  let is_fd_frame := (length frame =? 72)%nat in
  if is_fd_frame then
    let can_id := from_bytes (slice 0 4 frame) in
    let data_len := nth 4 frame 0 in
    let fd_flags := nth 5 frame 0 in
    let data := slice 8 (8 + Z.to_nat data_len) frame in
    Some (mkReceived can_id (len_to_dlc data_len) data_len data fd_flags true)
  else
    if (length frame <? 5)%nat then None
    else
      let can_id := from_bytes (slice 0 4 frame) in
      let dlc := nth 4 frame 0 in
      let data_len := Z.min dlc 8 in
      let data := slice 8 (8 + Z.to_nat data_len) frame in
      Some (mkReceived can_id dlc data_len data 0 false).

(** The server: each CAN socket is the list of frames written to it,
    oldest first; the sockets take every write. *)
Record CanTcpServer := mkServer {
  bus_offset : Z;
  can_fd : bool;
  can_socks : list (list (list Z));
  bus_speeds : list Z;
  pg_writer : option Ingest.PostgresWriter;
  default_dir : string
}.

(** [__init__] over the interfaces' nominal bit rates, one socket and one
    rate per interface. *)
Definition new_server (speeds : list Z) (offset : Z) (fd : bool)
    (pg : option Ingest.PostgresWriter) (dir : string) : CanTcpServer :=
  mkServer offset fd (map (fun _ => []) speeds) speeds pg dir.

(** [__init__] with the nominal rate [detect_bitrates] reads for each
    interface, given the IFLA_INFO_DATA bytes of the interfaces. *)
Definition new_server_detecting (infos : list (option (list Z))) (offset : Z)
    (fd : bool) (pg : option Ingest.PostgresWriter) (dir : string)
  : CanTcpServer :=
  new_server (map (fun info => fst (detect_bitrates info 500000)) infos)
             offset fd pg dir.

Definition bus_count (s : CanTcpServer) : Z :=
  bus_offset s + Z.of_nat (length (can_socks s)).

(** The session [_accept] creates. *)
Definition _accept (s : CanTcpServer) : Gvret.GVRETClient :=
  Gvret.new_client (bus_count s) (bus_speeds s).

(** [can_socks[i].send(frame)]. *)
Fixpoint sock_send (socks : list (list (list Z))) (i : nat) (frame : list Z)
  : list (list (list Z)) :=
  match socks, i with
  | [], _ => []
  | written :: rest, O => (written ++ [frame]) :: rest
  | written :: rest, S i' => written :: sock_send rest i' frame
  end.

(** [_tx_can(bus, can_id, data, is_fd)] at wall-clock time [now]. *)
Definition _tx_can (now : Z) (is_fd : bool) (bus can_id : Z) (data : list Z)
    (s : CanTcpServer) : option CanTcpServer :=
  let sock_idx := bus - bus_offset s in
  if negb ((0 <=? sock_idx) && (sock_idx <? Z.of_nat (length (can_socks s))))
  then Some s
  else
    '(frame, dlc, data_len, is_fd) <- tx_frame (can_fd s) can_id data is_fd ;;
    let socks := sock_send (can_socks s) (Z.to_nat sock_idx) frame in
    let pg := match pg_writer s with
              | Some w =>
                  Some (Ingest.enqueue w now can_id dlc
                          (firstn (Z.to_nat data_len) data) bus
                          (Some "tx"%string) is_fd)
              | None => None
              end in
    Some (mkServer (bus_offset s) (can_fd s) socks (bus_speeds s) pg
                   (default_dir s)).

(** A session's receive loop with [tx_func] bound to the server's
    [_tx_can], as [_accept] wires it. *)
Definition session_rx (now clock : Z) (chunks : list (list Z))
    (c : Gvret.GVRETClient) (s : CanTcpServer)
  : Gvret.GVRETClient * CanTcpServer :=
  Gvret._rx_loop CanTcpServer (Some (_tx_can now false)) clock chunks c s.



End Bridge.

(** ** The frame of the data model *)

(** The semantic fields of a CAN frame, which the source carries as the
    SocketCAN identifier word, the payload and the FD flag and flags
    byte. *)
Record Frame := mkFrame {
  arbitration_id : Z;
  is_extended : bool;
  is_rtr : bool;
  is_err : bool;
  fd : bool;
  brs : bool;
  esi : bool;
  payload : list Z
}.


(** The frame a received kernel layout stands for, with the flag and mask
    tests the source applies to the identifier word and the FD flags
    byte. *)
Definition frame_of (r : Bridge.received) : Frame :=
  let ext := has_flag (Bridge.rx_can_id r) CAN_EFF_FLAG in
  mkFrame (Z.land (Bridge.rx_can_id r) (if ext then CAN_EFF_MASK else CAN_SFF_MASK))
          ext
          (has_flag (Bridge.rx_can_id r) CAN_RTR_FLAG)
          (has_flag (Bridge.rx_can_id r) CAN_ERR_FLAG)
          (Bridge.rx_is_fd r)
          (Bridge.rx_is_fd r && has_flag (Bridge.rx_fd_flags r) CANFD_BRS)
          (Bridge.rx_is_fd r && has_flag (Bridge.rx_fd_flags r) CANFD_ESI)
          (Bridge.rx_data r).



(** ** Configuration file *)

Module Config.

Section Overrides.

(** The values of a TOML document, with what [apply_config_overrides] does
    to them: the test [v is True], [str(v).upper()], and [float(v)], which
    raises for a value that is no number ([None]); [True_] is the value
    [True]. *)
Variable V : Type.
Variable is_True : V -> bool.
Variable True_ : V.
Variable str_upper : V -> V.
Variable to_float : V -> option V.

(** A table of the document, and the [argparse.Namespace]: the value of
    each key or attribute that is set. *)
Definition table : Type := string -> option V.

(** [setattr(args, k, v)]. *)
Definition setattr (args : table) (k : string) (v : V) : table :=
  fun k' => if String.eqb k' k then Some v else args k'.

(** [cfg.get(name, {})] for a document whose top-level values are
    tables. *)
Definition section (cfg : string -> option table) (name : string) : table :=
  match cfg name with
  | Some t => t
  | None => fun _ => None
  end.

Definition server_keys : list string :=
  ["iface"; "host"; "port"; "bus_offset"; "echo_console"; "colour";
   "default_dir"; "can_fd"]%string.

Definition postgres_keys : list (string * string) :=
  [("dsn", "pg_dsn"); ("func", "pg_func"); ("batch_size", "pg_batch_size");
   ("flush_interval", "pg_flush_interval"); ("queue_size", "pg_queue_size");
   ("dir", "pg_dir"); ("cache_path", "pg_cache_path");
   ("cache_max_mb", "pg_cache_max_mb");
   ("queue_flush_pct", "pg_queue_flush_pct")]%string.

(** The loops [for cfg_key, arg_key in ...: if cfg_key in conf:
    setattr(args, arg_key, conf[cfg_key])]. *)
Fixpoint copy_keys (conf : table) (keys : list (string * string)) (args : table)
  : table :=
  match keys with
  | [] => args
  | (cfg_key, arg_key) :: rest =>
      copy_keys conf rest
        (match conf cfg_key with
         | Some v => setattr args arg_key v
         | None => args
         end)
  end.

(** [apply_config_overrides(args, cfg)]; [None] is the exception of
    [float]. *)
Definition apply_config_overrides (args : table) (cfg : string -> option table)
  : option table :=
  let server_conf := section cfg "server" in
  let args := copy_keys server_conf (map (fun k => (k, k)) server_keys) args in
  let postgres_conf := section cfg "postgres" in
  let args :=
    if match postgres_conf "enable"%string with
       | Some v => is_True v
       | None => false
       end
    then copy_keys postgres_conf postgres_keys
           (setattr args "pg_enable" True_)
    else args in
  let logging_conf := section cfg "logging" in
  let args := match logging_conf "level"%string with
              | Some v => setattr args "log_level" (str_upper v)
              | None => args
              end in
  match logging_conf "stats_interval"%string with
  | Some v =>
      f <- to_float v ;;
      Some (setattr args "stats_interval" f)
  | None => Some args
  end.

End Overrides.

End Config.

(** ** Definitions the properties are stated with *)

(** What is left of a buffer once everything up to and including its last
    E7 E7 is deleted; [None] when it holds no E7 E7. *)
Fixpoint after_last_E7E7 (b : list Z) : option (list Z) :=
  match b with
  | [] => None
  | x :: rest =>
      match after_last_E7E7 rest with
      | Some tail => Some tail
      | None =>
          match rest with
          | y :: tail => if (x =? 0xE7) && (y =? 0xE7) then Some tail else None
          | [] => None
          end
      end
  end.

(** What the handshake loop leaves of a buffer: it deletes up to the first
    E7 E7 and starts again on the rest; [None] when it finds no E7 E7. *)
Fixpoint after_handshake (b : list Z) : option (list Z) :=
  match b with
  | [] => None
  | x :: rest =>
      match rest with
      | [] => None
      | y :: tail =>
          if (x =? 0xE7) && (y =? 0xE7)
          then Some (match after_handshake tail with
                     | Some r => r
                     | None => tail
                     end)
          else after_handshake rest
      end
  end.

(** Every way to receive a byte sequence as a sequence of non-empty
    chunks. *)
Fixpoint chunkings (l : list Z) : list (list (list Z)) :=
  match l with
  | [] => [[]]
  | x :: rest =>
      flat_map (fun cs => match cs with
                          | [] => [[[x]]]
                          | ch :: more => [[x] :: ch :: more; (x :: ch) :: more]
                          end)
               (chunkings rest)
  end.

(** The handshake scenario: one stray byte, the E7 E7 pair, a keepalive
    request. *)
Definition handshake_input (x : Z) : list Z := [x; 0xE7; 0xE7; 0xF1; 0x09].

Definition responses_eqb (a b : list (list Z)) : bool :=
  if list_eq_dec (list_eq_dec Z.eq_dec) a b then true else false.

Definition bytes_eqb (a b : list Z) : bool :=
  if list_eq_dec Z.eq_dec a b then true else false.

(** What a session must show after the first [k] bytes of the scenario:
    nothing sent before the request is complete, the ascii state until the
    pair is in (for a stray byte other than E7), and after all five bytes
    the one keepalive response, binary state and an empty buffer. *)
Definition handshake_expect (x : Z) (k : nat) (c : Gvret.GVRETClient) : bool :=
  (if (k <=? 4)%nat then responses_eqb (Gvret.sent c) [] else true) &&
  (if (k <=? 2)%nat && negb (x =? 0xE7) then negb (Gvret.binary c) else true) &&
  (if (5 <=? k)%nat
   then responses_eqb (Gvret.sent c) [[0xF1; 0x09; 0xDE; 0xAD]]
        && Gvret.binary c && bytes_eqb (Gvret.buf c) [] && Gvret.alive c
   else true).

(** The transmit scenario: the twelve bytes a client sends. *)
Definition tx_scenario : list Z :=
  [0xF1; 0x00; 0x80; 0x00; 0x00; 0x00; 0x00; 0x01; 0x41; 0x42; 0x43; 0x44].

(** A server on two interfaces with no bus offset, logging to a writer
    with the default settings and an empty cache. *)
Definition two_bus_server : Bridge.CanTcpServer :=
  Bridge.new_server [500000; 500000] 0 false
    (Some (Ingest.new_writer 500 50000 50 "rx"
             (Ingest.mkCache [] 0 (1000 * 1024 * 1024) 4096 false)))
    "rx".

(** A server on one interface whose bus number is offset by one. *)
Definition offset_server : Bridge.CanTcpServer :=
  Bridge.new_server [500000] 1 false None "rx".


(** ** Runs of the ingest pipeline *)

(** [l1] is [l2] with some entries left out, the rest in order. *)
Inductive subseq {A : Type} : list A -> list A -> Prop :=
| subseq_nil : subseq [] []
| subseq_keep x l1 l2 : subseq l1 l2 -> subseq (x :: l1) (x :: l2)
| subseq_drop x l1 l2 : subseq l1 l2 -> subseq l1 (x :: l2).

(** The rows waiting in the queue, the rows held by the disk cache, and
    every row the pipeline still answers for, in the order it will commit
    them: committed, then cached, then queued. *)
Definition queue_rows (w : Ingest.PostgresWriter) : list Ingest.row :=
  Ingest.rows_of (Ingest.q w).

Definition cache_rows (w : Ingest.PostgresWriter) : list Ingest.row :=
  map snd (Ingest.frames (Ingest._disk_cache w)).



(** No [close] in the trace: the worker loop is running throughout. *)
Definition running (trace : list Ingest.event) : bool :=
  forallb (fun ev => match ev with
                     | Ingest.Close _ => false
                     | _ => true
                     end) trace.

Section IngestRuns.

Variable grow : Z -> list Ingest.row -> Z.
Variable fresh_size : Z.

(** A worker turn in which the SQL write of a batch read from the disk
    cache fails: the turn is connected (or connects), finds the cache
    non-empty after the overflow flush, and the write raises. *)
Definition respills (e : Ingest.Env) (w : Ingest.PostgresWriter) : bool :=
  let w1 := Ingest._maybe_flush_queue_overflow grow e w in
  Ingest._alive w
  && (Ingest._conn w1 || Ingest.connect_ok e)
  && negb (Ingest.is_empty (Ingest._disk_cache w1))
  && negb (Ingest.execute_ok e).

(** A run in which no turn is of that kind. *)
Fixpoint clean (w : Ingest.PostgresWriter) (trace : list Ingest.event) : bool :=
  match trace with
  | [] => true
  | ev :: rest =>
      match ev with
      | Ingest.Turn e => negb (respills e w)
      | _ => true
      end
      && clean (Ingest.step grow fresh_size w ev) rest
  end.

End IngestRuns.

(** A file that grows by one page for every batch, and example rows. *)
Definition page_grow (size : Z) (rows : list Ingest.row) : Z := size + 4096.

Definition row_a : Ingest.row :=
  Ingest.mkRow 1 false false 0x123 None 1 [0xAA] 0 "rx".

Definition full_cache : Ingest.DiskCache :=
  Ingest.mkCache [] 0 (1 * 1024 * 1024) (2 * 1024 * 1024) false.

(** ** Invariants of the ingest pipeline *)

(** The ids of the [frames] table as AUTOINCREMENT hands them out: strictly
    increasing, above [lo], and none above the last one given out. *)
Fixpoint ids_ok (lo hi : Z) (fr : list (Z * Ingest.row)) : bool :=
  match fr with
  | [] => lo <=? hi
  | f :: rest => (lo <? fst f) && ids_ok (fst f) hi rest
  end.


(** The writer after [kept] went to the disk cache, leaving the file at
    [size], and [dropped] rows were counted as dropped. *)
Definition spilled (w : Ingest.PostgresWriter) (kept : list Ingest.row)
    (size dropped : Z) : Ingest.PostgresWriter :=
  let c := Ingest._disk_cache w in
  Ingest.mkWriter (Ingest.batch_size w) (Ingest.queue_max w)
    (Ingest.queue_flush_pct w) (Ingest.default_dir w)
    (Ingest.q w) (Ingest._alive w) (Ingest._conn w)
    (Ingest.mkCache (Ingest.frames c ++ Ingest.autoincrement (Ingest.last_id c) kept)
                    (Ingest.last_id c + Z.of_nat (length kept))
                    (Ingest.max_bytes c) size (Ingest.closed c))
    (Ingest._db_unavailable w) (Ingest._draining_cache w)
    (Ingest.count_enqueued w) (Ingest.count_written w)
    (Ingest.count_dropped w + dropped)
    (Ingest.count_cached w + Z.of_nat (length kept))
    (Ingest.count_cache_recovered w) (Ingest.batch w) (Ingest.pg_rows w).




(** Example runs: a cache with nothing in it, three rows, and the
    database up or down. *)
Definition empty_cache : Ingest.DiskCache :=
  Ingest.mkCache [] 0 (1000 * 1024 * 1024) 4096 false.

Definition db_up : Ingest.Env := Ingest.mkEnv true true true.

Definition db_down : Ingest.Env := Ingest.mkEnv false false true.

Definition enqueue_a : Ingest.event := Ingest.Enqueue 1 0x123 1 [0xAA] 0 None false.

Definition enqueue_b : Ingest.event := Ingest.Enqueue 2 0x124 1 [0xBB] 0 None false.

Definition enqueue_c : Ingest.event := Ingest.Enqueue 3 0x125 1 [0xCC] 0 None false.

Definition row_b : Ingest.row :=
  Ingest.mkRow 2 false false 0x124 None 1 [0xBB] 0 "rx".

Definition row_c : Ingest.row :=
  Ingest.mkRow 3 false false 0x125 None 1 [0xCC] 0 "rx".

(** The connection is made and the SQL write raises. *)
Definition db_write_fails : Ingest.Env := Ingest.mkEnv true false true.

(** ** Definitions for the session properties *)

(** A [tx_func] that records the calls it gets. *)
Definition tx_log (bus can_id : Z) (data : list Z) (st : list (Z * Z * list Z))
  : option (list (Z * Z * list Z)) :=
  Some (st ++ [(bus, can_id, data)]).

(** What a transmit request can ask for: a bus number of one byte; an
    identifier word that is a standard identifier of 11 bits, or the EFF
    flag and an identifier of 29 bits, and so never has the RTR or ERR
    flag; and no more than eight data bytes. *)
Definition tx_ok (call : Z * Z * list Z) : Prop :=
  let '(bus, can_id, data) := call in
  0 <= bus < 256 /\
  (0 <= can_id <= CAN_SFF_MASK \/
   CAN_EFF_FLAG <= can_id <= CAN_EFF_FLAG + CAN_EFF_MASK) /\
  has_flag can_id CAN_RTR_FLAG = false /\
  has_flag can_id CAN_ERR_FLAG = false /\
  (length data <= 8)%nat.

(** The bit rates [reply_canbus_params] indexes are there and fit four
    bytes. *)
Definition rate_fits (c : Gvret.GVRETClient) (i : nat) : bool :=
  match Gvret.speed_at c i with
  | Some v => (0 <=? v) && (v <? 2 ^ 32)
  | None => false
  end.

Definition rates_cover (c : Gvret.GVRETClient) : bool :=
  (if Gvret.bus_count c >=? 1 then rate_fits c 0 else true)
  && (if Gvret.bus_count c >=? 2 then rate_fits c 1 else true).

(** A buffer that holds no request the parser can act on: empty, a lone
    [F1], or the start of a send-frame request that is not all there. *)
Definition awaiting (b : list Z) : bool :=
  match b with
  | [] => true
  | [x] => x =? 0xF1
  | x :: y :: _ =>
      (x =? 0xF1) && (y =? 0x00)
      && ((length b <? 8)%nat || (Z.of_nat (length b) <? 8 + nth 7 b 0))
  end.

(** The opcodes [_rx_loop] acts on. *)
Definition known_opcode (cmd : Z) : bool :=
  (cmd =? 0x00) || (cmd =? 0x01) || (cmd =? 0x06) || (cmd =? 0x07)
  || (cmd =? 0x09) || (cmd =? 0x0C).

(** ** Definitions for the further properties of the pipeline *)

(** From [w] to [w']: rows were only added to the end of what is
    committed, the written counter went up by their number, and no
    counter went down. *)
Definition grows (w w' : Ingest.PostgresWriter) : Prop :=
  (exists more,
     Ingest.pg_rows w' = Ingest.pg_rows w ++ more /\
     Ingest.count_written w' = Ingest.count_written w + Z.of_nat (length more)) /\
  Ingest.count_enqueued w <= Ingest.count_enqueued w' /\
  Ingest.count_dropped w <= Ingest.count_dropped w' /\
  Ingest.count_cached w <= Ingest.count_cached w' /\
  Ingest.count_cache_recovered w <= Ingest.count_cache_recovered w'.

(** What the worker and [close] do to a writer: the commit log and the
    counters grow, the queue does not, and its bound stays. *)
Definition settles (w w' : Ingest.PostgresWriter) : Prop :=
  grows w w' /\
  (length (Ingest.q w') <= length (Ingest.q w))%nat /\
  Ingest.queue_max w' = Ingest.queue_max w.

(** ** Definitions for the netlink properties *)

(** The layout of one netlink attribute on a little-endian host
    ([struct nlattr] of linux/netlink.h): the length of header and value
    in two bytes, the type in two bytes, the value, and zero bytes up to a
    multiple of four. *)
Definition nlattr (a : Z * list Z) : list Z :=
  let '(t, v) := a in
  let alen := 4 + Z.of_nat (length v) in
  le_digits 2 alen ++ le_digits 2 t ++ v ++ repeat 0 (Z.to_nat ((- alen) mod 4)).

(** An attribute whose type and length fit their two bytes. *)
Definition nlattr_fits (a : Z * list Z) : Prop :=
  0 <= fst a < 65536 /\ 4 + Z.of_nat (length (snd a)) < 65536.

(** ** Definitions for the console properties *)

(** The ASCII column of a console line without colour: a printable byte
    as its character, any other byte as a dot. *)
Definition ascii_column (data : list Z) : string :=
  String.concat EmptyString
    (map (fun b => if (0x20 <=? b) && (b <=? 0x7E) then chr b else "."%string)
         data).

(** ** Definitions for the configuration properties *)

(** The attributes [apply_config_overrides] may set from the [postgres]
    table, and all the attributes it may set. *)
Definition postgres_targets : list string :=
  "pg_enable"%string :: map snd Config.postgres_keys.

Definition config_targets : list string :=
  Config.server_keys ++ postgres_targets ++ ["log_level"; "stats_interval"]%string.
(** * Properties *)

(** Integers [lo, lo + n), the ranges the checks below run over. *)
Definition zrange (lo : Z) (n : nat) : list Z :=
  map (fun k => lo + Z.of_nat k) (seq 0 n).

Lemma zrange_In (lo : Z) (n : nat) (x : Z) :
  lo <= x < lo + Z.of_nat n -> In x (zrange lo n).
Proof.
  intros Hx. unfold zrange. apply in_map_iff.
  exists (Z.to_nat (x - lo)). split; [lia|].
  apply in_seq. lia.
Qed.

Lemma zrange_forallb (lo : Z) (n : nat) (f : Z -> bool) :
  forallb f (zrange lo n) = true ->
  forall x, lo <= x < lo + Z.of_nat n -> f x = true.
Proof.
  intros Hall x Hx. rewrite forallb_forall in Hall.
  apply Hall, zrange_In, Hx.
Qed.

(** The smallest-DLC check for one payload length, over every 4-bit code. *)
Definition fits_minimally (L : Z) : bool :=
  (L <=? dlc_to_len (len_to_dlc L) true) &&
  forallb (fun d => negb (L <=? dlc_to_len d true) || (len_to_dlc L <=? d))
          (zrange 0 16).

(** C4. The FD length table and its reverse are inverse to each other:
    length to DLC to length is the identity on the sixteen valid FD
    lengths, DLC to length to DLC is the identity on the codes 0..15, and
    for a payload length of at most 64 [len_to_dlc] is the least code whose
    length holds the payload. *)
Theorem C4_dlc_mapping :
  (forall N, In N CAN_FD_DLC_LEN -> dlc_to_len (len_to_dlc N) true = N) /\
  (forall D, 0 <= D <= 15 -> len_to_dlc (dlc_to_len D true) = D) /\
  (forall L, 0 <= L <= 64 ->
     L <= dlc_to_len (len_to_dlc L) true /\
     forall d, 0 <= d <= 15 -> L <= dlc_to_len d true -> len_to_dlc L <= d).
Proof.
  split; [|split].
  - intros N HN. unfold CAN_FD_DLC_LEN in HN. simpl in HN.
    repeat (destruct HN as [<-|HN]; [reflexivity|]). contradiction.
  - intros D HD.
    assert (H : (len_to_dlc (dlc_to_len D true) =? D) = true).
    { apply (zrange_forallb 0 16
               (fun D => len_to_dlc (dlc_to_len D true) =? D)).
      - vm_compute. reflexivity.
      - lia. }
    apply Z.eqb_eq, H.
  - intros L HL.
    assert (H : fits_minimally L = true).
    { apply (zrange_forallb 0 65 fits_minimally).
      - vm_compute. reflexivity.
      - lia. }
    unfold fits_minimally in H. apply andb_true_iff in H as [Hge Hmin].
    split; [apply Z.leb_le, Hge|].
    intros d Hd Hfit.
    pose proof (zrange_forallb 0 16 _ Hmin d ltac:(lia)) as Hd'.
    apply orb_true_iff in Hd' as [Hn|Hle].
    + apply negb_true_iff, Z.leb_gt in Hn. lia.
    + apply Z.leb_le, Hle.
Qed.

Lemma C4_dlc_mapping_witness :
  dlc_to_len (len_to_dlc 12) true = 12 /\
  len_to_dlc (dlc_to_len 13 true) = 13 /\
  (9 <= dlc_to_len (len_to_dlc 9) true /\ len_to_dlc 9 <= 10).
Proof.
  destruct C4_dlc_mapping as [Hlen [Hdlc Hmin]].
  split; [|split].
  - apply Hlen. vm_compute. tauto.
  - apply Hdlc. lia.
  - destruct (Hmin 9 ltac:(lia)) as [Hge Hle]. split; [exact Hge|].
    apply Hle; [lia|]. vm_compute. discriminate.
Defined.

(** ** Bit arithmetic of the identifier and nibble fields *)

Lemma land_ones_mod (x : Z) (n : Z) :
  0 <= n -> Z.land x (Z.ones n) = x mod 2 ^ n.
Proof. intros Hn. apply Z.land_ones, Hn. Qed.

Lemma has_flag_testbit (x : Z) (n : Z) :
  0 <= n -> has_flag x (2 ^ n) = Z.testbit x n.
Proof.
  intros Hn. unfold has_flag.
  destruct (Z.testbit x n) eqn:Hb.
  - apply negb_true_iff, Z.eqb_neq. intros H0.
    assert (Ht : Z.testbit (Z.land x (2 ^ n)) n = true).
    { rewrite Z.land_spec, Hb, Z.pow2_bits_true by lia. reflexivity. }
    rewrite H0, Z.bits_0 in Ht. discriminate.
  - apply negb_false_iff, Z.eqb_eq. apply Z.bits_inj'. intros k Hk.
    rewrite Z.land_spec, Z.bits_0.
    destruct (Z.eq_dec n k) as [->|Hne].
    + rewrite Hb. reflexivity.
    + rewrite (Z.pow2_bits_false n k) by lia. apply andb_false_r.
Qed.

(** Setting a bit that is clear adds its weight. *)
Lemma lor_high_bit (a : Z) (n m : Z) :
  0 <= n <= m -> 0 <= a < 2 ^ n -> Z.lor a (2 ^ m) = a + 2 ^ m.
Proof.
  intros Hnm Ha.
  assert (Hdisj : Z.land a (2 ^ m) = 0).
  { apply Z.bits_inj'. intros k Hk. rewrite Z.land_spec, Z.bits_0.
    destruct (Z.eq_dec m k) as [->|Hne].
    - destruct (Z.eq_dec a 0) as [->|Hz]; [rewrite Z.bits_0; reflexivity|].
      assert (Hlog : Z.log2 a < k).
      { apply Z.log2_lt_pow2; [lia|].
        apply Z.lt_le_trans with (2 ^ n); [lia|].
        apply Z.pow_le_mono_r; lia. }
      rewrite (Z.bits_above_log2 a k) by lia. reflexivity.
    - rewrite (Z.pow2_bits_false m k) by lia. apply andb_false_r. }
  rewrite <- Z.lxor_lor by exact Hdisj.
  symmetry. apply Z.add_nocarry_lxor, Hdisj.
Qed.

Lemma le_digits_length (n : nat) (x : Z) : length (le_digits n x) = n.
Proof.
  revert x. induction n as [|n IH]; intros x; simpl; [reflexivity|].
  rewrite IH. reflexivity.
Qed.

Lemma to_bytes_in_range (x : Z) (n : nat) :
  0 <= x < 256 ^ Z.of_nat n -> to_bytes x n = Some (le_digits n x).
Proof.
  intros [Hlo Hhi]. unfold to_bytes.
  apply Z.leb_le in Hlo. apply Z.ltb_lt in Hhi.
  rewrite Hlo, Hhi. reflexivity.
Qed.

Lemma from_bytes_le_digits (n : nat) (x : Z) :
  0 <= x < 256 ^ Z.of_nat n -> from_bytes (le_digits n x) = x.
Proof.
  revert x. induction n as [|n IH]; intros x Hx.
  - simpl in *. lia.
  - cbn [le_digits from_bytes]. rewrite IH.
    + pose proof (Z.div_mod x 256 ltac:(lia)). lia.
    + rewrite Nat2Z.inj_succ, Z.pow_succ_r in Hx by lia.
      split; [apply Z.div_pos; lia|].
      apply Z.div_lt_upper_bound; lia.
Qed.





(** ** The receive loop: fuel and termination *)

Section SessionFacts.

Variable St : Type.
Variable tx_func : option (Z -> Z -> list Z -> St -> option St).

Lemma resync_length (b : list Z) : (length (Gvret.resync b) <= length b)%nat.
Proof.
  induction b as [|x b IH]; simpl; [lia|].
  destruct (x =? 241); simpl; lia.
Qed.

Lemma resync_is_byte (b : list Z) :
  Forall is_byte b -> Forall is_byte (Gvret.resync b).
Proof.
  induction b as [|x b IH]; intros Hb; simpl; [constructor|].
  destruct (x =? 241); [exact Hb|]. apply IH. inversion Hb; assumption.
Qed.

Lemma resync_idem (b : list Z) : Gvret.resync (Gvret.resync b) = Gvret.resync b.
Proof.
  induction b as [|x b IH]; simpl; [reflexivity|].
  destruct (x =? 241) eqn:Hx; [|exact IH].
  simpl. rewrite Hx. reflexivity.
Qed.

Lemma skipn_is_byte (n : nat) (b : list Z) :
  Forall is_byte b -> Forall is_byte (skipn n b).
Proof.
  revert b. induction n as [|n IH]; intros b Hb; simpl; [exact Hb|].
  destruct b as [|x b]; [constructor|]. apply IH. inversion Hb; assumption.
Qed.

(** The replies touch nothing but the bytes sent. *)
Lemma dispatch_keeps (clock cmd : Z) (c c' : Gvret.GVRETClient) :
  Gvret.dispatch clock cmd c = Some c' ->
  Gvret.buf c' = Gvret.buf c /\ Gvret.binary c' = Gvret.binary c /\
  Gvret.alive c' = Gvret.alive c.
Proof.
  unfold Gvret.dispatch, Gvret.reply_dev_info, Gvret.reply_canbus_params,
    Gvret.reply_num_buses, Gvret.reply_timebase, Gvret.reply_keepalive, bind.
  intros H.
  repeat match type of H with
         | (if ?b then _ else _) = _ => destruct b
         | match ?e with Some _ => _ | None => _ end = _ => destruct e
         end;
    try discriminate; injection H as <-; repeat split; reflexivity.
Qed.

(** A send-frame request that is consumed takes its eight header bytes at
    the least. *)
Lemma consumed_shrinks (c c' : Gvret.GVRETClient) (st st' : St) :
  Forall is_byte (Gvret.buf c) ->
  Gvret._try_consume_send_frame St tx_func c st = (Gvret.Consumed, c', st') ->
  (length (Gvret.buf c') + 8 <= length (Gvret.buf c))%nat /\
  Forall is_byte (Gvret.buf c') /\ Gvret.binary c' = Gvret.binary c.
Proof.
  intros Hb. unfold Gvret._try_consume_send_frame.
  destruct (length (Gvret.buf c) <? 8)%nat eqn:H8; [discriminate|].
  destruct (negb _); [discriminate|].
  destruct (Z.of_nat (length (Gvret.buf c)) <? 8 + nth 7 (Gvret.buf c) 0) eqn:Hneed;
    [discriminate|].
  apply Nat.ltb_ge in H8. apply Z.ltb_ge in Hneed.
  assert (Hd : is_byte (nth 7 (Gvret.buf c) 0)).
  { apply Forall_nth; [exact Hb|lia]. }
  unfold is_byte in Hd.
  set (c1 := Gvret.with_buf c _).
  assert (Hc1 : (length (Gvret.buf c1) + 8 <= length (Gvret.buf c))%nat /\
                Forall is_byte (Gvret.buf c1) /\
                Gvret.binary c1 = Gvret.binary c).
  { subst c1. cbn [Gvret.buf Gvret.with_buf Gvret.binary]. split; [|split].
    - rewrite length_skipn. lia.
    - apply skipn_is_byte, Hb.
    - reflexivity. }
  intros H. destruct tx_func as [f|].
  - destruct (f _ _ _ st); [|discriminate]. injection H as <- <-. exact Hc1.
  - injection H as <- <-. exact Hc1.
Qed.

(** Fuel above the buffer length is never used up: the loop's result does
    not depend on it. *)
Lemma parse_binary_fuel (clock : Z) (f1 f2 : nat) :
  forall (c : Gvret.GVRETClient) (st : St),
    Forall is_byte (Gvret.buf c) ->
    (length (Gvret.buf c) < f1)%nat -> (length (Gvret.buf c) < f2)%nat ->
    Gvret.parse_binary St tx_func f1 clock c st =
    Gvret.parse_binary St tx_func f2 clock c st.
Proof.
  revert f2. induction f1 as [|f1 IH]; intros f2 c st Hb H1 H2; [lia|].
  destruct f2 as [|f2]; [lia|].
  cbn [Gvret.parse_binary].
  destruct (negb (Gvret.binary c)); [reflexivity|].
  pose proof (resync_length (Gvret.buf c)) as Hlen.
  pose proof (resync_is_byte _ Hb) as Hrb.
  cbn [Gvret.buf Gvret.with_buf].
  destruct (Gvret.resync (Gvret.buf c)) as [|x0 [|cmd rest]] eqn:Hr;
    try reflexivity.
  destruct (negb (x0 =? 241)); [reflexivity|].
  destruct (cmd =? 0).
  - destruct (Gvret._try_consume_send_frame St tx_func _ st)
      as [[k c'] st'] eqn:Hk.
    destruct k; try reflexivity.
    apply consumed_shrinks in Hk as [Hsh [Hb' _]]; [|exact Hrb].
    cbn [Gvret.buf Gvret.with_buf] in Hsh. simpl length in *.
    apply IH; [exact Hb'|lia|lia].
  - destruct (Gvret.dispatch clock cmd _) as [c'|] eqn:Hd; [|reflexivity].
    apply dispatch_keeps in Hd as [Hbuf _].
    cbn [Gvret.buf Gvret.with_buf] in Hbuf. simpl length in *.
    apply IH; rewrite Hbuf.
    + inversion Hrb as [|? ? _ Hrest]. inversion Hrest; assumption.
    + lia.
    + lia.
Qed.

(** A leading byte other than [F1] is dropped by the resync before any
    request is read. *)
Lemma parse_binary_skip (clock : Z) (fuel : nat) (x : Z) (b : list Z)
    (c : Gvret.GVRETClient) (st : St) :
  Gvret.binary c = true -> x <> 241 ->
  Gvret.parse_binary St tx_func (S fuel) clock (Gvret.with_buf c (x :: b)) st =
  Gvret.parse_binary St tx_func (S fuel) clock (Gvret.with_buf c b) st.
Proof.
  intros Hbin Hx.
  cbn [Gvret.parse_binary Gvret.binary Gvret.with_buf Gvret.buf].
  rewrite Hbin. cbn [negb Gvret.resync].
  apply Z.eqb_neq in Hx. rewrite Hx. reflexivity.
Qed.

End SessionFacts.

(** ** The handshake loop *)

Lemma find_E7E7_none (b : list Z) :
  Gvret.find_E7E7 b = None -> after_handshake b = None.
Proof.
  induction b as [|x rest IH]; [reflexivity|].
  cbn [Gvret.find_E7E7 after_handshake].
  destruct rest as [|y tail]; [reflexivity|].
  destruct ((x =? 231) && (y =? 231)); [discriminate|].
  destruct (Gvret.find_E7E7 (y :: tail)); [discriminate|].
  intros _. apply IH. reflexivity.
Qed.

Lemma find_E7E7_some (b : list Z) (idx : nat) :
  Gvret.find_E7E7 b = Some idx ->
  b <> [] /\
  after_handshake b =
    Some (match after_handshake (skipn (idx + 2) b) with
          | Some r => r
          | None => skipn (idx + 2) b
          end).
Proof.
  revert idx. induction b as [|x rest IH]; intros idx; [discriminate|].
  cbn [Gvret.find_E7E7 after_handshake].
  destruct rest as [|y tail]; [discriminate|].
  destruct ((x =? 231) && (y =? 231)).
  - intros [= <-]. split; [discriminate|]. reflexivity.
  - destruct (Gvret.find_E7E7 (y :: tail)) as [i|] eqn:Hf; [|discriminate].
    intros [= <-]. split; [discriminate|].
    destruct (IH i eq_refl) as [_ ->]. reflexivity.
Qed.

(** With fuel above the buffer length the loop runs until no E7 E7 is
    left, and leaves [after_handshake] of the buffer. *)
Lemma handshake_greedy (fuel : nat) :
  forall c : Gvret.GVRETClient,
    (length (Gvret.buf c) < fuel)%nat ->
    Gvret.handshake fuel c =
      match after_handshake (Gvret.buf c) with
      | Some r => Gvret.enter_binary (Gvret.with_buf c r)
      | None => c
      end.
Proof.
  induction fuel as [|fuel IH]; intros c Hlen; [lia|].
  cbn [Gvret.handshake].
  destruct (Gvret.find_E7E7 (Gvret.buf c)) as [idx|] eqn:Hf.
  - apply find_E7E7_some in Hf as [Hne ->].
    rewrite IH.
    + cbn [Gvret.buf Gvret.enter_binary Gvret.with_buf].
      destruct (after_handshake (skipn (idx + 2) (Gvret.buf c))); reflexivity.
    + cbn [Gvret.buf Gvret.enter_binary Gvret.with_buf].
      rewrite length_skipn.
      destruct (Gvret.buf c); [contradiction|]. simpl length in *. lia.
  - rewrite (find_E7E7_none _ Hf). reflexivity.
Qed.

Lemma after_last_none_tail (x : Z) (b : list Z) :
  after_last_E7E7 (x :: b) = None -> after_last_E7E7 b = None.
Proof.
  cbn [after_last_E7E7]. destruct (after_last_E7E7 b); [discriminate|reflexivity].
Qed.

Lemma after_last_none (b : list Z) :
  after_last_E7E7 b = None -> after_handshake b = None.
Proof.
  induction b as [|x rest IH]; [reflexivity|].
  intros Hnone. pose proof (after_last_none_tail _ _ Hnone) as Hrest.
  cbn [after_last_E7E7] in Hnone. rewrite Hrest in Hnone.
  cbn [after_handshake]. destruct rest as [|y tail]; [reflexivity|].
  destruct ((x =? 231) && (y =? 231)); [discriminate|].
  apply IH, Hrest.
Qed.

(** The loop leaves what follows the last E7 E7, but for one E7 when the
    last E7 E7 overlaps the one deleted before it. *)
Lemma after_last_greedy (n : nat) :
  forall b post,
    (length b <= n)%nat ->
    after_last_E7E7 b = Some post ->
    exists r, after_handshake b = Some r /\ (r = post \/ r = 0xE7 :: post).
Proof.
  induction n as [|n IH]; intros b post Hlen Hlast.
  - destruct b; [discriminate|simpl in Hlen; lia].
  - destruct b as [|x rest]; [discriminate|].
    destruct rest as [|y tail]; [discriminate|].
    simpl length in Hlen.
    cbn [after_handshake].
    destruct ((x =? 231) && (y =? 231)) eqn:Hhead.
    + destruct (after_last_E7E7 tail) as [p|] eqn:Htail.
      * assert (p = post) as ->.
        { cbn [after_last_E7E7] in Hlast. rewrite Htail in Hlast.
          congruence. }
        destruct (IH tail post ltac:(lia) Htail) as [r [-> Hr]].
        exists r. split; [reflexivity|exact Hr].
      * rewrite (after_last_none _ Htail).
        exists tail. split; [reflexivity|].
        change (after_last_E7E7 (x :: y :: tail))
          with (match after_last_E7E7 (y :: tail) with
                | Some t => Some t
                | None => if (x =? 231) && (y =? 231) then Some tail else None
                end) in Hlast.
        cbn [after_last_E7E7] in Hlast. rewrite Htail in Hlast.
        destruct tail as [|z tl].
        -- rewrite Hhead in Hlast. left. congruence.
        -- destruct ((y =? 231) && (z =? 231)) eqn:Hyz.
           ++ right. apply andb_true_iff in Hyz as [_ Hz].
              apply Z.eqb_eq in Hz. subst z. congruence.
           ++ rewrite Hhead in Hlast. left. congruence.
    + apply (IH (y :: tail) post); [simpl; lia|].
      change (after_last_E7E7 (x :: y :: tail))
        with (match after_last_E7E7 (y :: tail) with
              | Some t => Some t
              | None => if (x =? 231) && (y =? 231) then Some tail else None
              end) in Hlast.
      rewrite Hhead in Hlast.
      destruct (after_last_E7E7 (y :: tail)); [exact Hlast|discriminate].
Qed.

Lemma after_last_is_byte (b post : list Z) :
  Forall is_byte b -> after_last_E7E7 b = Some post -> Forall is_byte post.
Proof.
  revert post. induction b as [|x rest IH]; intros post Hb; [discriminate|].
  cbn [after_last_E7E7]. inversion Hb as [|? ? _ Hrest]; subst.
  destruct (after_last_E7E7 rest) as [p|].
  - intros [= <-]. apply IH; [exact Hrest|reflexivity].
  - destruct rest as [|y tail]; [discriminate|].
    destruct ((x =? 231) && (y =? 231)); [|discriminate].
    intros [= <-]. inversion Hrest; assumption.
Qed.

(** C10. In a session already in binary state, when the buffered input
    (what was buffered before plus the chunk just received) holds E7 E7,
    the turn of the receive loop has exactly the effect of parsing the
    bytes after the last E7 E7 alone: what precedes it, complete requests
    included, is deleted before any request is read, and is neither
    answered nor executed.  In particular nothing is sent and nothing
    transmitted when the input ends with E7 E7. *)
Theorem C10_handshake_discards_earlier_requests
    (St : Type) (tx_func : option (Z -> Z -> list Z -> St -> option St))
    (clock : Z) (chunk : list Z) (c : Gvret.GVRETClient) (st : St)
    (post : list Z) :
  Gvret.binary c = true ->
  Forall is_byte (Gvret.buf c ++ chunk) ->
  after_last_E7E7 (Gvret.buf c ++ chunk) = Some post ->
  Gvret.rx_chunk St tx_func clock chunk c st =
    Gvret.parse_binary St tx_func (S (length post)) clock
      (Gvret.with_buf c post) st /\
  (post = [] ->
   Gvret.rx_chunk St tx_func clock chunk c st = (Gvret.with_buf c [], st)).
Proof.
  intros Hbin Hbytes Hlast.
  assert (Hmain : Gvret.rx_chunk St tx_func clock chunk c st =
                  Gvret.parse_binary St tx_func (S (length post)) clock
                    (Gvret.with_buf c post) st).
  { unfold Gvret.rx_chunk.
    rewrite handshake_greedy by (cbn [Gvret.buf Gvret.with_buf]; lia).
    cbn [Gvret.buf Gvret.with_buf].
    destruct (after_last_greedy _ _ _ (Nat.le_refl _) Hlast) as [r [-> Hr]].
    assert (Heq : Gvret.enter_binary
                    (Gvret.with_buf (Gvret.with_buf c (Gvret.buf c ++ chunk)) r)
                  = Gvret.with_buf c r).
    { unfold Gvret.enter_binary, Gvret.with_buf.
      cbn [Gvret.binary Gvret.buf Gvret.alive Gvret.bus_count
           Gvret.bus_speeds Gvret.sent].
      rewrite Hbin. reflexivity. }
    rewrite Heq. cbn [Gvret.buf Gvret.with_buf].
    destruct Hr as [->| ->]; [reflexivity|].
    rewrite parse_binary_skip by (exact Hbin || discriminate).
    apply parse_binary_fuel; cbn [Gvret.buf Gvret.with_buf].
    - apply (after_last_is_byte _ _ Hbytes Hlast).
    - simpl. lia.
    - lia. }
  split; [exact Hmain|].
  intros ->. rewrite Hmain.
  cbn [Gvret.parse_binary Gvret.binary Gvret.with_buf Gvret.buf length].
  rewrite Hbin. reflexivity.
Qed.

Lemma C10_handshake_discards_witness :
  let c := Gvret.enter_binary (Gvret.new_client 1 [500000]) in
  Gvret.rx_chunk unit None 0 [0xF1; 0x09; 0xE7; 0xE7; 0xF1; 0x0C] c tt =
    Gvret.parse_binary unit None 3 0 (Gvret.with_buf c [0xF1; 0x0C]) tt.
Proof.
  intros c.
  apply (C10_handshake_discards_earlier_requests unit None 0
           [0xF1; 0x09; 0xE7; 0xE7; 0xF1; 0x0C] c tt [0xF1; 0x0C]).
  - reflexivity.
  - repeat constructor; unfold is_byte; lia.
  - reflexivity.
Defined.

(** ** The handshake scenario *)

Lemma chunkings_complete (l : list Z) :
  forall chunks,
    Forall (fun ch => ch <> []) chunks -> concat chunks = l ->
    In chunks (chunkings l).
Proof.
  induction l as [|x rest IH]; intros chunks Hne Hcat.
  - destruct chunks as [|ch more]; [left; reflexivity|].
    inversion Hne as [|? ? Hch _]; subst.
    destruct ch; [contradiction|discriminate].
  - destruct chunks as [|ch more]; [discriminate|].
    inversion Hne as [|? ? Hch Hmore]; subst.
    destruct ch as [|y ch']; [contradiction|].
    simpl in Hcat. injection Hcat as -> Hrest.
    cbn [chunkings]. apply in_flat_map.
    destruct ch' as [|z ch''].
    + exists more. split; [apply IH; assumption|].
      destruct more; simpl; auto.
    + exists ((z :: ch'') :: more). split.
      * apply IH; [|exact Hrest]. constructor; [discriminate|exact Hmore].
      * simpl. auto.
Qed.

Section HandshakeScenario.

Variable St : Type.
Variable tx_func : option (Z -> Z -> list Z -> St -> option St).
Variables (clock n : Z) (speeds : list Z) (st : St).

Definition handshake_run (chunks : list (list Z)) : Gvret.GVRETClient :=
  fst (Gvret._rx_loop St tx_func clock chunks (Gvret.new_client n speeds) st).

Lemma handshake_all_cases :
  forallb (fun x =>
    forallb (fun k =>
      forallb (fun chunks => handshake_expect x k (handshake_run chunks))
              (chunkings (firstn k (handshake_input x))))
      (seq 0 6))
    (zrange 0 256) = true.
Proof. vm_compute. reflexivity. Qed.

Lemma handshake_case (x : Z) (k : nat) (chunks : list (list Z)) :
  is_byte x ->
  Forall (fun ch => ch <> []) chunks ->
  concat chunks = firstn k (handshake_input x) ->
  handshake_expect x (Nat.min k 5) (handshake_run chunks) = true.
Proof.
  intros Hx Hne Hcat.
  assert (Hk : firstn k (handshake_input x)
               = firstn (Nat.min k 5) (handshake_input x)).
  { destruct (Nat.le_ge_cases k 5) as [Hle|Hge].
    - rewrite Nat.min_l by exact Hle. reflexivity.
    - rewrite Nat.min_r by exact Hge.
      rewrite !firstn_all2 by (simpl; lia). reflexivity. }
  rewrite Hk in Hcat.
  pose proof handshake_all_cases as Hall.
  rewrite forallb_forall in Hall.
  specialize (Hall x (zrange_In 0 256 x ltac:(unfold is_byte in Hx; lia))).
  rewrite forallb_forall in Hall.
  specialize (Hall (Nat.min k 5) ltac:(apply in_seq; lia)).
  rewrite forallb_forall in Hall.
  apply Hall, chunkings_complete; assumption.
Qed.

End HandshakeScenario.

Lemma responses_eqb_eq (a b : list (list Z)) : responses_eqb a b = true -> a = b.
Proof.
  unfold responses_eqb.
  destruct (list_eq_dec (list_eq_dec Z.eq_dec) a b); [trivial|discriminate].
Qed.

Lemma bytes_eqb_eq (a b : list Z) : bytes_eqb a b = true -> a = b.
Proof.
  unfold bytes_eqb. destruct (list_eq_dec Z.eq_dec a b); [trivial|discriminate].
Qed.

(** C9. A fresh session (ascii state) is sent XX E7 E7 F1 09, in any
    division into chunks.  As long as the request is not complete (at most
    four bytes received) nothing is sent to the client; for a stray byte
    other than E7 the session is still in ascii state until the second E7
    is in; and once all five bytes are received the session is in binary
    state, its buffer is empty (the stray byte and the pair are gone) and
    what it has sent is exactly the one response F1 09 DE AD. *)
Theorem C9_handshake_then_keepalive
    (St : Type) (tx_func : option (Z -> Z -> list Z -> St -> option St))
    (clock n : Z) (speeds : list Z) (st : St)
    (x : Z) (k : nat) (chunks : list (list Z)) :
  is_byte x ->
  Forall (fun ch => ch <> []) chunks ->
  concat chunks = firstn k (handshake_input x) ->
  let c := fst (Gvret._rx_loop St tx_func clock chunks
                  (Gvret.new_client n speeds) st) in
  ((k <= 4)%nat -> Gvret.sent c = []) /\
  ((k <= 2)%nat -> x <> 0xE7 -> Gvret.binary c = false) /\
  ((5 <= k)%nat ->
   Gvret.sent c = [[0xF1; 0x09; 0xDE; 0xAD]] /\ Gvret.binary c = true /\
   Gvret.buf c = [] /\ Gvret.alive c = true).
Proof.
  intros Hx Hne Hcat c.
  pose proof (handshake_case St tx_func clock n speeds st x k chunks Hx Hne Hcat)
    as Hcase.
  fold (handshake_run St tx_func clock n speeds st chunks) in c.
  fold c in Hcase. unfold handshake_expect in Hcase.
  apply andb_true_iff in Hcase as [Hcase Hfull].
  apply andb_true_iff in Hcase as [Hquiet Hascii].
  split; [|split].
  - intros Hk.
    replace (Nat.min k 5 <=? 4)%nat with true in Hquiet
      by (symmetry; apply Nat.leb_le; lia).
    apply responses_eqb_eq, Hquiet.
  - intros Hk Hxe.
    replace (Nat.min k 5 <=? 2)%nat with true in Hascii
      by (symmetry; apply Nat.leb_le; lia).
    apply Z.eqb_neq in Hxe. rewrite Hxe in Hascii. cbn [negb andb] in Hascii.
    apply negb_true_iff, Hascii.
  - intros Hk.
    replace (5 <=? Nat.min k 5)%nat with true in Hfull
      by (symmetry; apply Nat.leb_le; lia).
    apply andb_true_iff in Hfull as [Hfull Halive].
    apply andb_true_iff in Hfull as [Hfull Hbuf].
    apply andb_true_iff in Hfull as [Hsent Hbin].
    repeat split.
    + apply responses_eqb_eq, Hsent.
    + exact Hbin.
    + apply bytes_eqb_eq, Hbuf.
    + exact Halive.
Qed.

Lemma C9_handshake_then_keepalive_witness :
  Gvret.sent
    (fst (Gvret._rx_loop unit None 0 [[0x41; 0xE7]; [0xE7; 0xF1]; [0x09]]
            (Gvret.new_client 1 [500000]) tt))
  = [[0xF1; 0x09; 0xDE; 0xAD]].
Proof.
  apply (C9_handshake_then_keepalive unit None 0 1 [500000] tt 0x41 5
           [[0x41; 0xE7]; [0xE7; 0xF1]; [0x09]]).
  - unfold is_byte. lia.
  - repeat constructor; discriminate.
  - reflexivity.
  - lia.
Defined.

(** ** The transmit path *)

(** The claim of C6 fails: the identifier field 80 00 00 00 is read
    little-endian, as 0x80, and the bus byte is 00.  Nothing is written to
    the socket at index 1; the one frame goes to the socket at index 0 and
    is a standard frame with identifier 0x80. *)
Lemma C6_tx_path_counterexample :
  let s :=
    snd (Bridge.session_rx 0 0 [tx_scenario]
           (Gvret.enter_binary (Bridge._accept two_bus_server))
           two_bus_server) in
  let frame := [0x80; 0; 0; 0; 1; 0; 0; 0; 0x41; 0; 0; 0; 0; 0; 0; 0] in
  nth 1 (Bridge.can_socks s) [] = [] /\
  nth 0 (Bridge.can_socks s) [] = [frame] /\
  option_map frame_of (Bridge.rx_frame frame) =
    Some (mkFrame 0x80 false false false false false false [0x41]).
Proof.
  vm_compute. repeat split; reflexivity.
Qed.

(** The transmit scenario in a session: the request is consumed, its
    frame is handed to [tx_func] as bus 0, identifier word 0x80, data 41,
    the three bytes left over are dropped, and nothing is sent back. *)
Lemma tx_scenario_consume (St : Type) (f : Z -> Z -> list Z -> St -> option St)
    (c : Gvret.GVRETClient) (st : St) :
  Gvret._try_consume_send_frame St (Some f) (Gvret.with_buf c tx_scenario) st =
    match f 0 0x80 [0x41] st with
    | Some st' => (Gvret.Consumed, Gvret.with_buf c [0x42; 0x43; 0x44], st')
    | None => (Gvret.Raised, Gvret.with_buf c [0x42; 0x43; 0x44], st)
    end.
Proof. destruct c. reflexivity. Qed.

Lemma tx_scenario_parse (St : Type) (f : Z -> Z -> list Z -> St -> option St)
    (clock : Z) (c : Gvret.GVRETClient) (st : St) :
  Gvret.binary c = true -> Gvret.buf c = [] ->
  Gvret.rx_chunk St (Some f) clock tx_scenario c st =
    match f 0 0x80 [0x41] st with
    | Some st' => (Gvret.with_buf c [], st')
    | None => (Gvret.close (Gvret.with_buf c [0x42; 0x43; 0x44]), st)
    end.
Proof.
  intros Hbin Hbuf. unfold Gvret.rx_chunk. rewrite Hbuf.
  change ([] ++ tx_scenario) with tx_scenario.
  change (Gvret.handshake _ (Gvret.with_buf c tx_scenario))
    with (Gvret.with_buf c tx_scenario).
  change (Gvret.buf (Gvret.with_buf c tx_scenario)) with tx_scenario.
  change (S (length tx_scenario)) with (S 12).
  change (Gvret.parse_binary St (Some f) 13 clock
            (Gvret.with_buf c tx_scenario) st)
    with (if negb (Gvret.binary c) then (Gvret.with_buf c tx_scenario, st)
          else match Gvret._try_consume_send_frame St (Some f)
                       (Gvret.with_buf c tx_scenario) st with
               | (Gvret.Consumed, c', st') =>
                   Gvret.parse_binary St (Some f) 12 clock c' st'
               | (Gvret.NeedMore, c', st') => (c', st')
               | (Gvret.Raised, c', st') => (Gvret.close c', st')
               end).
  rewrite Hbin, tx_scenario_consume. cbn [negb].
  destruct (f 0 128 [65] st) as [st'|]; [|reflexivity].
  cbn [Gvret.parse_binary Gvret.binary Gvret.with_buf Gvret.buf
       Gvret.resync Z.eqb Pos.eqb].
  rewrite Hbin. reflexivity.
Qed.

(** C6, amended. A session in binary state with an empty buffer receives
    F1 00 80 00 00 00 00 01 41 42 43 44 on a server without bus offset.
    The request is consumed and nothing is answered; the bytes 42 43 44
    left over are dropped by the resync.  The socket at index 0 is written
    one classic 16-byte frame: identifier word 0x80 (standard, not
    extended), DLC 1, payload 41 padded with zeros.  The writer is handed
    one [enqueue] call for the row (0x80, standard, classic, DLC 1,
    payload 41, bus 0, direction tx), which joins the queue when the queue
    has room. *)
Theorem C6_tx_path
    (now clock : Z) (c : Gvret.GVRETClient) (s : Bridge.CanTcpServer)
    (w : Ingest.PostgresWriter) (sock0 : list (list Z))
    (socks : list (list (list Z))) :
  Gvret.binary c = true -> Gvret.buf c = [] ->
  Bridge.bus_offset s = 0 ->
  Bridge.can_socks s = sock0 :: socks ->
  Bridge.pg_writer s = Some w ->
  let frame := [0x80; 0; 0; 0; 1; 0; 0; 0; 0x41; 0; 0; 0; 0; 0; 0; 0] in
  let r := Ingest.mkRow now false false 0x80 None 1 [0x41] 0 "tx" in
  let w' := Ingest.enqueue w now 0x80 1 [0x41] 0 (Some "tx"%string) false in
  let '(c', s') :=
    Gvret.rx_chunk Bridge.CanTcpServer (Some (Bridge._tx_can now false))
      clock tx_scenario c s in
  (Gvret.buf c' = [] /\ Gvret.sent c' = Gvret.sent c /\
   Gvret.alive c' = Gvret.alive c) /\
  Bridge.can_socks s' = (sock0 ++ [frame]) :: socks /\
  Bridge.rx_frame frame = Some (Bridge.mkReceived 0x80 1 1 [0x41] 0 false) /\
  Bridge.pg_writer s' = Some w' /\
  Ingest.enqueue_row w now 0x80 1 [0x41] 0 (Some "tx"%string) false = r /\
  (Ingest.put_nowait w (Ingest.Row r) <> None ->
   Ingest.q w' = Ingest.q w ++ [Ingest.Row r] /\
   Ingest.count_enqueued w' = Ingest.count_enqueued w + 1).
Proof.
  intros Hbin Hbuf Hoff Hsocks Hpg frame r w'.
  assert (Hrow : Ingest.enqueue_row w now 0x80 1 [0x41] 0 (Some "tx"%string) false
                 = r) by reflexivity.
  rewrite (tx_scenario_parse Bridge.CanTcpServer (Bridge._tx_can now false)
             clock c s Hbin Hbuf).
  assert (Htx : Bridge._tx_can now false 0 128 [65] s =
                Some (Bridge.mkServer (Bridge.bus_offset s) (Bridge.can_fd s)
                        ((sock0 ++ [frame]) :: socks) (Bridge.bus_speeds s)
                        (Some w') (Bridge.default_dir s))).
  { unfold Bridge._tx_can. rewrite Hoff, Hsocks, Hpg.
    replace (0 - 0 <? Z.of_nat (length (sock0 :: socks))) with true
      by (symmetry; apply Z.ltb_lt; simpl length; lia).
    reflexivity. }
  rewrite Htx.
  cbn [Gvret.buf Gvret.sent Gvret.alive Gvret.with_buf Bridge.can_socks
       Bridge.pg_writer].
  split; [repeat split|].
  split; [reflexivity|]. split; [reflexivity|]. split; [reflexivity|].
  split; [exact Hrow|].
  intros Hroom. subst w'. unfold Ingest.enqueue. rewrite Hrow.
  destruct (Ingest.put_nowait w (Ingest.Row r)) as [w1|] eqn:Hput;
    [|contradiction].
  unfold Ingest.put_nowait in Hput.
  destruct (_ && _); [discriminate|]. injection Hput as <-.
  split; reflexivity.
Qed.

Lemma C6_tx_path_witness :
  Bridge.can_socks
    (snd (Gvret.rx_chunk Bridge.CanTcpServer (Some (Bridge._tx_can 0 false)) 0
            tx_scenario (Gvret.enter_binary (Bridge._accept two_bus_server))
            two_bus_server))
  = [[[0x80; 0; 0; 0; 1; 0; 0; 0; 0x41; 0; 0; 0; 0; 0; 0; 0]]; []].
Proof.
  generalize
    (C6_tx_path 0 0 (Gvret.enter_binary (Bridge._accept two_bus_server))
       two_bus_server
       (Ingest.new_writer 500 50000 50 "rx"
          (Ingest.mkCache [] 0 (1000 * 1024 * 1024) 4096 false))
       [] [[]] eq_refl eq_refl eq_refl eq_refl eq_refl).
  cbv zeta.
  destruct (Gvret.rx_chunk Bridge.CanTcpServer _ 0 tx_scenario _ two_bus_server)
    as [c' s'].
  intros [_ [Hsocks _]]. exact Hsocks.
Defined.

(** ** Bus parameters *)

(** The GET_BUS_PARAMS reply when the rates of the advertised buses are
    there: F1 06, then for each of the first two buses a flags byte (1
    when the bus is within the advertised count, never the listen-only bit)
    and the rate, little-endian, or a zero byte and a zero rate. *)
Lemma reply_canbus_params_layout (c : Gvret.GVRETClient) (rate0 rate1 : Z) :
  (1 <= Gvret.bus_count c -> nth_error (Gvret.bus_speeds c) 0 = Some rate0) ->
  (2 <= Gvret.bus_count c -> nth_error (Gvret.bus_speeds c) 1 = Some rate1) ->
  0 <= rate0 < 2 ^ 32 -> 0 <= rate1 < 2 ^ 32 ->
  Gvret.reply_canbus_params c =
    Some (Gvret._send c
            ([0xF1; 0x06]
             ++ (if 1 <=? Gvret.bus_count c
                 then 1 :: le_digits 4 rate0 else [0; 0; 0; 0; 0])
             ++ (if 2 <=? Gvret.bus_count c
                 then 1 :: le_digits 4 rate1 else [0; 0; 0; 0; 0]))).
Proof.
  intros H0 H1 Hr0 Hr1. unfold Gvret.reply_canbus_params, Gvret.speed_at.
  rewrite !Z.geb_leb.
  destruct (1 <=? Gvret.bus_count c) eqn:E1;
    destruct (2 <=? Gvret.bus_count c) eqn:E2;
    try (apply Z.leb_le in E1); try (apply Z.leb_le in E2);
    try rewrite (H0 E1); try rewrite (H1 E2); cbn [bind];
    try rewrite (to_bytes_in_range rate0 4) by exact Hr0;
    try rewrite (to_bytes_in_range rate1 4) by exact Hr1;
    reflexivity.
Qed.

(** C7. With one interface and a bus offset of one the server advertises
    two buses but holds one bit rate: the reply to GET_BUS_PARAMS reads
    [bus_speeds[1]], which raises IndexError.  A client that completes the
    handshake and asks for the bus parameters is sent nothing, and its
    session is closed. *)
Theorem C7_bus_params_index_error :
  Bridge.bus_count offset_server = 2 /\
  Gvret.bus_speeds (Bridge._accept offset_server) = [500000] /\
  Gvret.reply_canbus_params (Bridge._accept offset_server) = None /\
  forall now clock,
    let '(c, _) :=
      Bridge.session_rx now clock [[0xE7; 0xE7; 0xF1; 0x06]]
        (Bridge._accept offset_server) offset_server in
    Gvret.sent c = [] /\ Gvret.alive c = false.
Proof.
  repeat split; reflexivity.
Qed.

(** ** Kernel frame layouts *)

Lemma testbit_flag (b : bool) (k n : Z) :
  0 <= k -> Z.testbit (if b then 2 ^ k else 0) n = b && (k =? n).
Proof.
  intros Hk. destruct b; cbn [andb].
  - apply Z.pow2_bits_eqb, Hk.
  - apply Z.bits_0.
Qed.

Lemma testbit_above (a m n : Z) :
  0 <= a < 2 ^ m -> 0 <= m <= n -> Z.testbit a n = false.
Proof.
  intros Ha Hmn. destruct (Z.eq_dec a 0) as [->|Hz]; [apply Z.bits_0|].
  apply Z.bits_above_log2; [lia|].
  apply Z.log2_lt_pow2; [lia|].
  apply Z.lt_le_trans with (2 ^ m); [lia|].
  apply Z.pow_le_mono_r; lia.
Qed.










(** ** The disk cache when it is full *)

(** The claim of C8 fails for the store's own append: [write_batch] does
    not look at the size, and on a cache whose file is over the limit it
    stores the batch and reports it written. *)
Lemma C8_write_batch_counterexample :
  Ingest.is_full full_cache = true /\
  Ingest.write_batch page_grow true full_cache [row_a] =
    Some (Ingest.mkCache [(1, row_a)] 1 (1 * 1024 * 1024)
            (2 * 1024 * 1024 + 4096) false, 1).
Proof. split; reflexivity. Qed.

Section FullCache.

Variable grow : Z -> list Ingest.row -> Z.
Variable fresh_size : Z.

Lemma write_to_cache_full (e : Ingest.Env) (w : Ingest.PostgresWriter)
    (b : list Ingest.row) :
  Ingest.is_full (Ingest._disk_cache w) = true ->
  Ingest._write_to_cache grow e w b =
    Ingest.add_dropped w (Z.of_nat (length b)).
Proof. intros Hfull. unfold Ingest._write_to_cache. rewrite Hfull. reflexivity. Qed.

(** While the cache is full the drain loop only counts drops. *)
Lemma drain_items_full (e : Ingest.Env) (items : list Ingest.item) :
  forall (chunk : list Ingest.row) (w : Ingest.PostgresWriter),
    Ingest.is_full (Ingest._disk_cache w) = true ->
    Ingest._disk_cache (fst (Ingest.drain_items grow e items chunk w)) =
      Ingest._disk_cache w /\
    Ingest.batch_size (fst (Ingest.drain_items grow e items chunk w)) =
      Ingest.batch_size w /\
    Ingest._alive (fst (Ingest.drain_items grow e items chunk w)) =
      Ingest._alive w.
Proof.
  induction items as [|it rest IH]; intros chunk w Hfull; [auto|].
  destruct it as [r|]; cbn [Ingest.drain_items]; [|apply IH, Hfull].
  destruct (Z.of_nat (length (chunk ++ [r])) >=? Ingest.batch_size w).
  - rewrite write_to_cache_full by exact Hfull.
    destruct (IH [] (Ingest.add_dropped w (Z.of_nat (length (chunk ++ [r]))))
                Hfull) as [Hc [Hb Ha]].
    rewrite Hc, Hb, Ha. auto.
  - apply IH, Hfull.
Qed.

Lemma drain_queue_full (e : Ingest.Env) (w : Ingest.PostgresWriter) :
  Ingest.is_full (Ingest._disk_cache w) = true ->
  Ingest._disk_cache (Ingest._drain_queue_to_cache grow e w) =
    Ingest._disk_cache w /\
  Ingest.batch_size (Ingest._drain_queue_to_cache grow e w) =
    Ingest.batch_size w /\
  Ingest._alive (Ingest._drain_queue_to_cache grow e w) = Ingest._alive w.
Proof.
  intros Hfull. unfold Ingest._drain_queue_to_cache.
  pose proof (drain_items_full e (Ingest.q w) [] (Ingest.with_q w []) Hfull)
    as Hd.
  destruct (Ingest.drain_items grow e (Ingest.q w) [] (Ingest.with_q w []))
    as [w' chunk].
  cbn [fst] in Hd. destruct Hd as [Hc [Hb Ha]].
  destruct chunk as [|r chunk]; [auto|].
  rewrite write_to_cache_full by (rewrite Hc; exact Hfull).
  cbn [Ingest._disk_cache Ingest.batch_size Ingest._alive Ingest.add_dropped].
  auto.
Qed.

Lemma flush_overflow_full (e : Ingest.Env) (w : Ingest.PostgresWriter) :
  Ingest.is_full (Ingest._disk_cache w) = true ->
  Ingest._disk_cache (Ingest._maybe_flush_queue_overflow grow e w) =
    Ingest._disk_cache w /\
  Ingest.batch_size (Ingest._maybe_flush_queue_overflow grow e w) =
    Ingest.batch_size w /\
  Ingest._alive (Ingest._maybe_flush_queue_overflow grow e w) = Ingest._alive w.
Proof.
  intros Hfull. unfold Ingest._maybe_flush_queue_overflow.
  destruct (Ingest.queue_max w =? 0); [auto|].
  destruct (Ingest.over_threshold _ _ _); [|auto].
  apply drain_queue_full, Hfull.
Qed.

Lemma on_write_error_full (e : Ingest.Env) (w : Ingest.PostgresWriter) :
  Ingest.is_full (Ingest._disk_cache w) = true ->
  Ingest._disk_cache (Ingest.on_write_error grow e w) = Ingest._disk_cache w.
Proof.
  intros Hfull. unfold Ingest.on_write_error.
  cbn [Ingest.batch Ingest.with_conn].
  destruct (Ingest.batch w) as [|r b].
  - destruct (drain_queue_full e (Ingest.with_conn w false true) Hfull)
      as [Hc _]. exact Hc.
  - rewrite write_to_cache_full by exact Hfull.
    set (w1 := Ingest.with_batch _ []).
    destruct (drain_queue_full e w1 Hfull) as [Hc _]. exact Hc.
Qed.

End FullCache.

Section FullCacheEvents.

Variable grow : Z -> list Ingest.row -> Z.
Variable fresh_size : Z.

Lemma process_queue_full (e : Ingest.Env) (w : Ingest.PostgresWriter) :
  Ingest.is_full (Ingest._disk_cache w) = true ->
  Ingest._disk_cache (Ingest.process_queue grow e w) = Ingest._disk_cache w.
Proof.
  intros Hfull. unfold Ingest.process_queue.
  destruct (Ingest.fill_batch _ _ _) as [b rest].
  destruct (Ingest.execute_ok e).
  - destruct b; reflexivity.
  - apply (on_write_error_full grow e
             (Ingest.with_batch (Ingest.with_q w rest) b) Hfull).
Qed.

Lemma read_batch_some (limit : Z) (c : Ingest.DiskCache) :
  1 <= limit -> Ingest.is_empty c = false ->
  snd (Ingest.read_batch limit c) <> [].
Proof.
  intros Hlimit Hne. unfold Ingest.read_batch, Ingest.is_empty in *.
  destruct (limit <? 0) eqn:Hneg; [apply Z.ltb_lt in Hneg; lia|].
  destruct (Ingest.frames c) as [|fr rest]; [discriminate|].
  destruct (Z.to_nat limit) as [|k] eqn:Hk; [lia|].
  cbn. discriminate.
Qed.

Lemma worker_turn_full (e : Ingest.Env) (w : Ingest.PostgresWriter) :
  Ingest.is_full (Ingest._disk_cache w) = true ->
  1 <= Ingest.batch_size w ->
  incl (Ingest.frames (Ingest._disk_cache (Ingest.worker_turn grow fresh_size e w)))
       (Ingest.frames (Ingest._disk_cache w)).
Proof.
  intros Hfull Hbatch. unfold Ingest.worker_turn.
  destruct (flush_overflow_full grow e w Hfull) as [Hc [Hb _]].
  set (w1 := Ingest._maybe_flush_queue_overflow grow e w) in *.
  assert (Hfull1 : Ingest.is_full (Ingest._disk_cache w1) = true)
    by (rewrite Hc; exact Hfull).
  destruct (negb (Ingest._conn w1) && negb (Ingest.connect_ok e)).
  { rewrite on_write_error_full, Hc by exact Hfull1. apply incl_refl. }
  set (w2 := if Ingest._conn w1 then w1 else Ingest.with_conn w1 true false).
  assert (Hc2 : Ingest._disk_cache w2 = Ingest._disk_cache w1)
    by (subst w2; destruct (Ingest._conn w1); reflexivity).
  assert (Hb2 : Ingest.batch_size w2 = Ingest.batch_size w1)
    by (subst w2; destruct (Ingest._conn w1); reflexivity).
  unfold Ingest.drain_or_process.
  destruct (Ingest.is_empty (Ingest._disk_cache w2)) eqn:Hempty; cbn [negb].
  { rewrite process_queue_full, Hc2, Hc by (rewrite Hc2; exact Hfull1).
    apply incl_refl. }
  cbn [Ingest.batch_size Ingest._disk_cache Ingest.with_draining].
  pose proof (read_batch_some (Ingest.batch_size w2) (Ingest._disk_cache w2)
                ltac:(lia) Hempty) as Hsome.
  destruct (Ingest.read_batch (Ingest.batch_size w2) (Ingest._disk_cache w2))
    as [ids b].
  cbn [snd] in Hsome. destruct b as [|r b]; [contradiction|].
  destruct (Ingest.execute_ok e).
  - cbn [Ingest._disk_cache Ingest.with_cache Ingest.committed
         Ingest.with_batch Ingest.with_draining].
    rewrite <- Hc, <- Hc2. unfold Ingest.delete_batch.
    destruct ids; [apply incl_refl|]. cbn [Ingest.frames].
    apply incl_filter.
  - rewrite on_write_error_full
      by (cbn [Ingest._disk_cache Ingest.with_batch Ingest.with_draining];
          rewrite Hc2; exact Hfull1).
    cbn [Ingest._disk_cache Ingest.with_batch Ingest.with_draining].
    rewrite Hc2, Hc. apply incl_refl.
Qed.

Lemma close_full (e : Ingest.Env) (w : Ingest.PostgresWriter) :
  Ingest.is_full (Ingest._disk_cache w) = true ->
  Ingest.frames (Ingest._disk_cache (Ingest.close grow e w)) =
    Ingest.frames (Ingest._disk_cache w).
Proof.
  intros Hfull. unfold Ingest.close.
  set (w1 := match Ingest.put_nowait (Ingest.with_alive w false) Ingest.Wake with
             | Some w' => w'
             | None => Ingest.with_alive w false
             end).
  assert (Hc1 : Ingest._disk_cache w1 = Ingest._disk_cache w).
  { subst w1. unfold Ingest.put_nowait.
    destruct (_ && _); reflexivity. }
  set (w2 := if Ingest._alive w then Ingest._shutdown_flush grow e w1 else w1).
  assert (Hc2 : Ingest.frames (Ingest._disk_cache w2) =
                Ingest.frames (Ingest._disk_cache w) /\
                Ingest.is_full (Ingest._disk_cache w2) = true).
  { subst w2. destruct (Ingest._alive w); [|rewrite Hc1; auto].
    unfold Ingest._shutdown_flush.
    destruct (Ingest.rows_of (Ingest.q w1)) as [|r rs].
    - cbn [Ingest._disk_cache Ingest.with_conn Ingest.with_q].
      rewrite Hc1. auto.
    - destruct (_ && _).
      + cbn [Ingest._disk_cache Ingest.with_conn Ingest.with_q Ingest.committed].
        rewrite Hc1. auto.
      + rewrite write_to_cache_full
          by (cbn [Ingest._disk_cache Ingest.with_conn Ingest.with_q];
              rewrite Hc1; exact Hfull).
        cbn [Ingest._disk_cache Ingest.with_cache Ingest.add_dropped
             Ingest.with_conn Ingest.with_q Ingest.close_cache Ingest.frames].
        rewrite Hc1. split; [reflexivity|].
        unfold Ingest.is_full, Ingest.size_bytes in *. exact Hfull. }
  destruct Hc2 as [Hfr2 Hfull2].
  set (w3 := match Ingest.q w2 with
             | [] => w2
             | _ :: _ => Ingest._emergency_flush_to_disk grow e w2
             end).
  assert (Hc3 : Ingest._disk_cache w3 = Ingest._disk_cache w2).
  { subst w3. destruct (Ingest.q w2); [reflexivity|].
    unfold Ingest._emergency_flush_to_disk.
    apply (drain_queue_full grow e w2 Hfull2). }
  destruct (Ingest.closed (Ingest._disk_cache w3)).
  - rewrite Hc3. exact Hfr2.
  - cbn [Ingest._disk_cache Ingest.with_cache Ingest.close_cache Ingest.frames].
    rewrite Hc3. exact Hfr2.
Qed.

(** C8, amended. The store's append does not check the size; the guard
    is in the pipeline's [_write_to_cache].  When the size of the cache
    file is at or above the limit, [_write_to_cache] leaves the cache as it
    is, adds the length of the batch to the drop counter and nothing to the
    cached counter; and no event of the pipeline (an enqueue, a worker
    turn, a close) that starts with the cache full adds a frame to it. *)
Theorem C8_full_cache_drops_batches
    (e : Ingest.Env) (w : Ingest.PostgresWriter) (b : list Ingest.row)
    (ev : Ingest.event) :
  Ingest.is_full (Ingest._disk_cache w) = true ->
  (Ingest._disk_cache (Ingest._write_to_cache grow e w b) = Ingest._disk_cache w /\
   Ingest.count_dropped (Ingest._write_to_cache grow e w b) =
     Ingest.count_dropped w + Z.of_nat (length b) /\
   Ingest.count_cached (Ingest._write_to_cache grow e w b) =
     Ingest.count_cached w) /\
  (1 <= Ingest.batch_size w ->
   incl (Ingest.frames (Ingest._disk_cache (Ingest.step grow fresh_size w ev)))
        (Ingest.frames (Ingest._disk_cache w))).
Proof.
  intros Hfull. split.
  - rewrite write_to_cache_full by exact Hfull. repeat split.
  - intros Hbatch. destruct ev as [ts can_id dlc data bus dir_ is_fd|e'|e'];
      cbn [Ingest.step].
    + unfold Ingest.enqueue, Ingest.put_nowait.
      destruct (_ && _); apply incl_refl.
    + unfold Ingest._worker. destruct (Ingest._alive w); [|apply incl_refl].
      apply worker_turn_full; assumption.
    + rewrite close_full by exact Hfull. apply incl_refl.
Qed.

End FullCacheEvents.

Lemma C8_full_cache_drops_witness :
  let w := Ingest.new_writer 500 50000 50 "rx" full_cache in
  Ingest.count_dropped
    (Ingest._write_to_cache page_grow (Ingest.mkEnv true true true) w [row_a])
  = 1.
Proof.
  intros w.
  destruct (C8_full_cache_drops_batches page_grow 4096
              (Ingest.mkEnv true true true) w [row_a]
              (Ingest.Turn (Ingest.mkEnv true true true)) eq_refl)
    as [[_ [Hdrop _]] _].
  exact Hdrop.
Defined.

(** ** Runs of the ingest pipeline: accounting and order *)

Lemma subseq_nil_l {A : Type} (l : list A) : subseq [] l.
Proof. induction l; constructor; assumption. Qed.

Lemma subseq_refl {A : Type} (l : list A) : subseq l l.
Proof. induction l; constructor; assumption. Qed.

Lemma subseq_app {A : Type} (a b c d : list A) :
  subseq a b -> subseq c d -> subseq (a ++ c) (b ++ d).
Proof.
  intros Hab Hcd. induction Hab; cbn; try constructor; assumption.
Qed.

Lemma subseq_trans {A : Type} (a b c : list A) :
  subseq a b -> subseq b c -> subseq a c.
Proof.
  intros Hab Hbc. revert a Hab.
  induction Hbc as [|x l1 l2 H IH|x l1 l2 H IH]; intros a Hab.
  - exact Hab.
  - inversion Hab; subst.
    + constructor. apply IH. assumption.
    + apply subseq_drop. apply IH. assumption.
  - apply subseq_drop. apply IH. assumption.
Qed.

Lemma subseq_length {A : Type} (a b : list A) :
  subseq a b -> (length a <= length b)%nat.
Proof. induction 1; cbn; lia. Qed.

Lemma subseq_length_eq {A : Type} (a b : list A) :
  subseq a b -> length a = length b -> a = b.
Proof.
  induction 1 as [|x l1 l2 H IH|x l1 l2 H IH]; cbn; intros Hlen.
  - reflexivity.
  - f_equal. apply IH. lia.
  - apply subseq_length in H. lia.
Qed.


(** *** The queue *)

Lemma rows_of_app (a b : list Ingest.item) :
  Ingest.rows_of (a ++ b) = Ingest.rows_of a ++ Ingest.rows_of b.
Proof.
  induction a as [|[r|] a IH]; cbn; [reflexivity | f_equal; exact IH | exact IH].
Qed.



(** *** The ids of the cache *)

Lemma ids_ok_bounds (fr : list (Z * Ingest.row)) :
  forall lo hi, ids_ok lo hi fr = true -> lo <= hi.
Proof.
  induction fr as [|f fr IH]; cbn; intros lo hi H.
  - apply Z.leb_le. exact H.
  - apply andb_prop in H. destruct H as [Hlt H]. apply Z.ltb_lt in Hlt.
    apply IH in H. lia.
Qed.






(** *** Spilling in normal form *)

Ltac wsimpl :=
  cbn [Ingest.batch_size Ingest.queue_max Ingest.queue_flush_pct
       Ingest.default_dir Ingest.q Ingest._alive Ingest._conn
       Ingest._disk_cache Ingest._db_unavailable Ingest._draining_cache
       Ingest.count_enqueued Ingest.count_written Ingest.count_dropped
       Ingest.count_cached Ingest.count_cache_recovered Ingest.batch
       Ingest.pg_rows Ingest.frames Ingest.last_id Ingest.max_bytes
       Ingest.st_size Ingest.closed] in *.

Ltac wunfold :=
  unfold spilled, Ingest.with_q, Ingest.with_batch, Ingest.with_cache,
    Ingest.with_conn, Ingest.with_draining, Ingest.with_alive,
    Ingest.add_enqueued, Ingest.add_dropped, Ingest.add_cached,
    Ingest.committed, Ingest.close_cache in *;
  wsimpl.

Lemma autoincrement_app (a b : list Ingest.row) :
  forall last, Ingest.autoincrement last (a ++ b) =
    Ingest.autoincrement last a
    ++ Ingest.autoincrement (last + Z.of_nat (length a)) b.
Proof.
  induction a as [|r a IH]; intros last.
  - cbn. rewrite Z.add_0_r. reflexivity.
  - cbn [app Ingest.autoincrement]. rewrite IH. cbn [app]. do 3 f_equal.
    cbn [length]. lia.
Qed.



Lemma spilled_id (w : Ingest.PostgresWriter) :
  spilled w [] (Ingest.st_size (Ingest._disk_cache w)) 0 = w.
Proof.
  destruct w as [? ? ? ? ? ? ? [? ? ? ? ?] ? ? ? ? ? ? ? ? ?]. wunfold.
  cbn. rewrite app_nil_r, !Z.add_0_r. reflexivity.
Qed.

Lemma spilled_dropped (w : Ingest.PostgresWriter) (n : Z) :
  Ingest.add_dropped w n = spilled w [] (Ingest.st_size (Ingest._disk_cache w)) n.
Proof.
  destruct w as [? ? ? ? ? ? ? [? ? ? ? ?] ? ? ? ? ? ? ? ? ?]. wunfold.
  cbn. rewrite app_nil_r, !Z.add_0_r. reflexivity.
Qed.

Lemma spilled_spilled (w : Ingest.PostgresWriter) (k1 k2 : list Ingest.row)
    (s1 s2 d1 d2 : Z) :
  spilled (spilled w k1 s1 d1) k2 s2 d2 = spilled w (k1 ++ k2) s2 (d1 + d2).
Proof.
  wunfold. rewrite autoincrement_app, length_app, Nat2Z.inj_add, <- app_assoc,
    !Z.add_assoc. reflexivity.
Qed.


Section Spill.

Variable grow : Z -> list Ingest.row -> Z.

Lemma write_to_cache_spilled (e : Ingest.Env) (w : Ingest.PostgresWriter)
    (b : list Ingest.row) :
  exists kept size,
    subseq kept b /\
    Ingest._write_to_cache grow e w b =
      spilled w kept size (Z.of_nat (length b) - Z.of_nat (length kept)).
Proof.
  unfold Ingest._write_to_cache.
  destruct (Ingest.is_full (Ingest._disk_cache w)).
  { exists [], (Ingest.st_size (Ingest._disk_cache w)).
    split; [apply subseq_nil_l|]. rewrite spilled_dropped. cbn [length Z.of_nat].
    rewrite Z.sub_0_r. reflexivity. }
  unfold Ingest.write_batch. destruct b as [|r b].
  { exists [], (Ingest.st_size (Ingest._disk_cache w)).
    split; [apply subseq_nil_l|]. cbn [length Z.of_nat Z.sub Z.opp Z.add].
    rewrite spilled_id.
    destruct w as [? ? ? ? ? ? ? [? ? ? ? ?] ? ? ? ? ? ? ? ? ?]. wunfold.
    rewrite Z.add_0_r. reflexivity. }
  destruct (Ingest.closed (Ingest._disk_cache w) || negb (Ingest.cache_write_ok e)).
  { exists [], (Ingest.st_size (Ingest._disk_cache w)).
    split; [apply subseq_nil_l|]. rewrite spilled_dropped.
    cbn [length Z.of_nat]. rewrite Z.sub_0_r. reflexivity. }
  exists (r :: b), (grow (Ingest.st_size (Ingest._disk_cache w)) (r :: b)).
  split; [apply subseq_refl|]. wunfold. rewrite Z.sub_diag, Z.add_0_r.
  reflexivity.
Qed.

Lemma drain_items_spilled (e : Ingest.Env) (items : list Ingest.item) :
  forall chunk w,
  exists kept size chunk',
    subseq (kept ++ chunk') (chunk ++ Ingest.rows_of items) /\
    Ingest.drain_items grow e items chunk w =
      (spilled w kept size
         (Z.of_nat (length (chunk ++ Ingest.rows_of items))
          - Z.of_nat (length (kept ++ chunk'))),
       chunk').
Proof.
  induction items as [|[r|] items IH]; intros chunk w.
  - exists [], (Ingest.st_size (Ingest._disk_cache w)), chunk.
    cbn [Ingest.rows_of Ingest.drain_items app]. rewrite app_nil_r.
    split; [apply subseq_refl|]. rewrite Z.sub_diag, spilled_id. reflexivity.
  - cbn [Ingest.rows_of Ingest.drain_items].
    destruct (Z.of_nat (length (chunk ++ [r])) >=? Ingest.batch_size w).
    + destruct (write_to_cache_spilled e w (chunk ++ [r]))
        as [k1 [s1 [Hk1 Hw]]].
      rewrite Hw.
      destruct (IH [] (spilled w k1 s1
                  (Z.of_nat (length (chunk ++ [r])) - Z.of_nat (length k1))))
        as [k2 [s2 [chunk' [Hk2 Hd]]]].
      exists (k1 ++ k2), s2, chunk'. split.
      * rewrite <- app_assoc.
        replace (chunk ++ r :: Ingest.rows_of items)
          with ((chunk ++ [r]) ++ Ingest.rows_of items)
          by (rewrite <- app_assoc; reflexivity).
        apply subseq_app; assumption.
      * rewrite Hd, spilled_spilled. do 2 f_equal.
        cbn [app]. repeat (rewrite ?length_app; cbn [length]). lia.
    + destruct (IH (chunk ++ [r]) w) as [k [s [chunk' [Hk Hd]]]].
      exists k, s, chunk'.
      replace (chunk ++ r :: Ingest.rows_of items)
        with ((chunk ++ [r]) ++ Ingest.rows_of items)
        by (rewrite <- app_assoc; reflexivity).
      split; assumption.
  - cbn [Ingest.rows_of Ingest.drain_items]. apply IH.
Qed.

Lemma drain_queue_spilled (e : Ingest.Env) (w : Ingest.PostgresWriter) :
  exists kept size,
    subseq kept (queue_rows w) /\
    Ingest._drain_queue_to_cache grow e w =
      spilled (Ingest.with_q w []) kept size
        (Z.of_nat (length (queue_rows w)) - Z.of_nat (length kept)).
Proof.
  unfold Ingest._drain_queue_to_cache.
  destruct (drain_items_spilled e (Ingest.q w) [] (Ingest.with_q w []))
    as [k [s [chunk' [Hk Hd]]]].
  rewrite Hd. cbn [app] in *. fold (queue_rows w) in *.
  destruct chunk' as [|r chunk'].
  - rewrite app_nil_r in *. exists k, s. split; [assumption|reflexivity].
  - destruct (write_to_cache_spilled e
                (spilled (Ingest.with_q w []) k s
                   (Z.of_nat (length (queue_rows w))
                    - Z.of_nat (length (k ++ r :: chunk'))))
                (r :: chunk')) as [k2 [s2 [Hk2 Hw]]].
    rewrite Hw, spilled_spilled. exists (k ++ k2), s2. split.
    + eapply subseq_trans; [|exact Hk].
      apply subseq_app; [apply subseq_refl|assumption].
    + f_equal. rewrite !length_app. lia.
Qed.

Lemma flush_spilled (e : Ingest.Env) (w : Ingest.PostgresWriter) :
  Ingest._maybe_flush_queue_overflow grow e w = w \/
  exists kept size,
    subseq kept (queue_rows w) /\
    Ingest._maybe_flush_queue_overflow grow e w =
      spilled (Ingest.with_q w []) kept size
        (Z.of_nat (length (queue_rows w)) - Z.of_nat (length kept)).
Proof.
  unfold Ingest._maybe_flush_queue_overflow.
  destruct (Ingest.queue_max w =? 0); [left; reflexivity|].
  destruct (Ingest.over_threshold _ _ _); [|left; reflexivity].
  right. apply drain_queue_spilled.
Qed.

Lemma on_write_error_spilled (e : Ingest.Env) (w : Ingest.PostgresWriter) :
  exists kept size,
    subseq kept (Ingest.batch w ++ queue_rows w) /\
    Ingest.on_write_error grow e w =
      spilled (Ingest.with_batch (Ingest.with_conn (Ingest.with_q w []) false true) [])
        kept size
        (Z.of_nat (length (Ingest.batch w ++ queue_rows w))
         - Z.of_nat (length kept)).
Proof.
  unfold Ingest.on_write_error.
  cbn [Ingest.batch Ingest.with_conn].
  destruct (Ingest.batch w) as [|r b] eqn:Hb.
  - destruct (drain_queue_spilled e (Ingest.with_conn w false true))
      as [k [s [Hk Hd]]].
    rewrite Hd. exists k, s. split; [exact Hk|].
    unfold queue_rows. wunfold. rewrite Hb. reflexivity.
  - destruct (write_to_cache_spilled e (Ingest.with_conn w false true) (r :: b))
      as [k1 [s1 [Hk1 Hw]]].
    rewrite Hw.
    destruct (drain_queue_spilled e
                (Ingest.with_batch
                   (spilled (Ingest.with_conn w false true) k1 s1
                      (Z.of_nat (length (r :: b)) - Z.of_nat (length k1))) []))
      as [k2 [s2 [Hk2 Hd]]].
    rewrite Hd. exists (k1 ++ k2), s2. split.
    + apply subseq_app; assumption.
    + change (spilled (Ingest.with_q (Ingest.with_batch
                (spilled (Ingest.with_conn w false true) k1 s1
                   (Z.of_nat (length (r :: b)) - Z.of_nat (length k1))) []) [])
                k2 s2)
        with (spilled (spilled
                (Ingest.with_batch (Ingest.with_conn (Ingest.with_q w []) false true) [])
                k1 s1 (Z.of_nat (length (r :: b)) - Z.of_nat (length k1)))
                k2 s2).
      rewrite spilled_spilled. f_equal.
      change (queue_rows (Ingest.with_batch
                (spilled (Ingest.with_conn w false true) k1 s1
                   (Z.of_nat (length (r :: b)) - Z.of_nat (length k1))) []))
        with (queue_rows w).
      rewrite !length_app. lia.
Qed.

End Spill.

(** *** The accounting is kept *)



Section Accounting.

Variable grow : Z -> list Ingest.row -> Z.
Variable fresh_size : Z.



Lemma drain_keeps (e : Ingest.Env) (w : Ingest.PostgresWriter) :
  Ingest._alive (Ingest._drain_queue_to_cache grow e w) = Ingest._alive w /\
  Ingest._conn (Ingest._drain_queue_to_cache grow e w) = Ingest._conn w /\
  Ingest.batch (Ingest._drain_queue_to_cache grow e w) = Ingest.batch w /\
  Ingest.default_dir (Ingest._drain_queue_to_cache grow e w) = Ingest.default_dir w /\
  Ingest.count_written (Ingest._drain_queue_to_cache grow e w) = Ingest.count_written w /\
  Ingest.count_cache_recovered (Ingest._drain_queue_to_cache grow e w)
    = Ingest.count_cache_recovered w.
Proof.
  destruct (drain_queue_spilled grow e w) as [k [s [Hk Hw]]].
  rewrite Hw. repeat split.
Qed.




End Accounting.

(** *** The order is kept *)




Section Order.

Variable grow : Z -> list Ingest.row -> Z.
Variable fresh_size : Z.





End Order.

(** *** Events *)



Section Events.

Variable grow : Z -> list Ingest.row -> Z.
Variable fresh_size : Z.




Lemma close_not_alive (e : Ingest.Env) (w : Ingest.PostgresWriter) :
  Ingest._alive (Ingest.close grow e w) = false.
Proof.
  unfold Ingest.close.
  set (w1 := match Ingest.put_nowait (Ingest.with_alive w false) Ingest.Wake with
             | Some w' => w'
             | None => Ingest.with_alive w false
             end).
  assert (H1 : Ingest._alive w1 = false).
  { subst w1. unfold Ingest.put_nowait. destruct (_ && _); reflexivity. }
  set (w2 := if Ingest._alive w then Ingest._shutdown_flush grow e w1 else w1).
  assert (H2 : Ingest._alive w2 = false).
  { subst w2. destruct (Ingest._alive w); [|exact H1].
    unfold Ingest._shutdown_flush.
    destruct (Ingest.rows_of (Ingest.q w1)); [exact H1|].
    destruct (_ && _); [exact H1|].
    destruct (write_to_cache_spilled grow e
                (Ingest.with_conn (Ingest.with_q w1 [])
                   false (Ingest._db_unavailable (Ingest.with_q w1 [])))
                (r :: l)) as [k [s [_ Hw]]].
    rewrite Hw. exact H1. }
  set (w3 := match Ingest.q w2 with
             | [] => w2
             | _ :: _ => Ingest._emergency_flush_to_disk grow e w2
             end).
  assert (H3 : Ingest._alive w3 = false).
  { subst w3. destruct (Ingest.q w2); [exact H2|].
    unfold Ingest._emergency_flush_to_disk.
    destruct (drain_keeps grow e w2) as [Ha _]. rewrite Ha. exact H2. }
  destruct (Ingest.closed (Ingest._disk_cache w3)); exact H3.
Qed.




End Events.

(** *** Runs *)




Section Runs.

Variable grow : Z -> list Ingest.row -> Z.
Variable fresh_size : Z.










End Runs.

(** *** Example runs *)





(** The turn left out of the runs above: the SQL write of a batch read
    from the cache raises, the handler writes the batch to the cache
    again, and the row is committed twice. *)
Lemma respilled_batch_is_committed_twice :
  let w0 := Ingest.new_writer 1 100 50 "rx" empty_cache in
  let trace := [enqueue_a; Ingest.Turn db_down; Ingest.Turn db_write_fails;
                Ingest.Turn db_up; Ingest.Turn db_up] in
  let w := Ingest.run page_grow 4096 w0 trace in
  clean page_grow 4096 w0 trace = false /\
  Ingest.pg_rows w = [row_a; row_a] /\
  Ingest.count_enqueued w = 1 /\
  Ingest.count_written w = 2 /\
  Ingest.count_dropped w = 0.
Proof. vm_compute. repeat split. Qed.

(** * Further properties of the code *)

(** ** The GVRET session: what one request can do *)

(** The identifier word [_try_consume_send_frame] builds from the four
    identifier bytes of a request. *)
Lemma request_id_ok (x : Z) :
  let is_eff := has_flag x 0x80000000 in
  let arb := Z.land x (if is_eff then 0x1FFFFFFF else 0x7FF) in
  let can_id := Z.lor arb (if is_eff then CAN_EFF_FLAG else 0) in
  (0 <= can_id <= CAN_SFF_MASK \/
   CAN_EFF_FLAG <= can_id <= CAN_EFF_FLAG + CAN_EFF_MASK) /\
  has_flag can_id CAN_RTR_FLAG = false /\
  has_flag can_id CAN_ERR_FLAG = false.
Proof.
  intros is_eff arb can_id.
  assert (Harb : 0 <= arb < 2 ^ 29 /\ (is_eff = false -> arb < 2 ^ 11)).
  { subst arb. destruct is_eff.
    - change 0x1FFFFFFF with (Z.ones 29). rewrite land_ones_mod by lia.
      split; [apply Z.mod_pos_bound; lia|discriminate].
    - change 0x7FF with (Z.ones 11). rewrite land_ones_mod by lia.
      pose proof (Z.mod_pos_bound x (2 ^ 11) ltac:(lia)). lia. }
  destruct Harb as [Harb Hstd].
  assert (Hbit : forall n, 29 <= n < 31 -> has_flag can_id (2 ^ n) = false).
  { intros n Hn. rewrite has_flag_testbit by lia. subst can_id.
    change CAN_EFF_FLAG with (2 ^ 31).
    rewrite Z.lor_spec, testbit_flag, (testbit_above arb 29 n Harb) by lia.
    replace (31 =? n) with false by (symmetry; apply Z.eqb_neq; lia).
    rewrite andb_false_r. reflexivity. }
  split; [|split; [apply (Hbit 30); lia|apply (Hbit 29); lia]].
  subst can_id. unfold CAN_SFF_MASK, CAN_EFF_FLAG, CAN_EFF_MASK.
  destruct is_eff.
  - right. change 0x80000000 with (2 ^ 31).
    rewrite (lor_high_bit arb 29 31) by lia. lia.
  - left. rewrite Z.lor_0_r. specialize (Hstd eq_refl). lia.
Qed.

Section SessionSteps.

Variable St : Type.
Variable tx_func : option (Z -> Z -> list Z -> St -> option St).

(** A send-frame request either waits, or is taken off the buffer whole
    and handed to [tx_func] as a call that is [tx_ok]. *)
Lemma consume_call (c c' : Gvret.GVRETClient) (st st' : St) (k : Gvret.consumed) :
  Gvret._try_consume_send_frame St tx_func c st = (k, c', st') ->
  (k = Gvret.NeedMore /\ c' = c /\ st' = st) \/
  exists bus can_id data,
    tx_ok (bus, can_id, data) /\
    c' = Gvret.with_buf c
           (skipn (Z.to_nat (8 + nth 7 (Gvret.buf c) 0)) (Gvret.buf c)) /\
    match tx_func with
    | Some f =>
        (f bus can_id data st = Some st' /\ k = Gvret.Consumed) \/
        (f bus can_id data st = None /\ k = Gvret.Raised /\ st' = st)
    | None => k = Gvret.Consumed /\ st' = st
    end.
Proof.
  unfold Gvret._try_consume_send_frame.
  destruct (length (Gvret.buf c) <? 8)%nat;
    [intros H; injection H as <- <- <-; left; auto|].
  destruct (negb _); [intros H; injection H as <- <- <-; left; auto|].
  destruct (Z.of_nat (length (Gvret.buf c)) <? 8 + nth 7 (Gvret.buf c) 0);
    [intros H; injection H as <- <- <-; left; auto|].
  intros H. right.
  set (x := from_bytes (slice 2 6 (Gvret.buf c))) in *.
  set (bus := Z.land (nth 6 (Gvret.buf c) 0) 255) in *.
  set (data := slice 8 (8 + Z.to_nat (Z.min (nth 7 (Gvret.buf c) 0) 8))
                 (Gvret.buf c)) in *.
  set (can_id := Z.lor _ _) in *.
  exists bus, can_id, data. split; [|split].
  - destruct (request_id_ok x) as [Hr [Hrtr Herr]].
    unfold tx_ok. split; [|split; [exact Hr|split; [exact Hrtr|split; [exact Herr|]]]].
    + subst bus. change 255 with (Z.ones 8). rewrite land_ones_mod by lia.
      apply Z.mod_pos_bound. lia.
    + subst data. unfold slice. rewrite length_firstn. lia.
  - destruct tx_func as [f|].
    + destruct (f bus can_id data st); injection H as <- <- <-; reflexivity.
    + injection H as <- <- <-. reflexivity.
  - destruct tx_func as [f|].
    + destruct (f bus can_id data st) eqn:Hf; injection H as <- <- <-; auto.
    + injection H as <- <- <-. auto.
Qed.

(** A fixed-size request sends one message or none, and raises only in
    [reply_canbus_params]. *)
Lemma dispatch_sends (clock cmd : Z) (c : Gvret.GVRETClient) :
  match Gvret.dispatch clock cmd c with
  | Some c' => c' = c \/ exists msg, c' = Gvret._send c msg
  | None => cmd = 0x06 /\ rates_cover c = false
  end.
Proof.
  unfold Gvret.dispatch.
  destruct (cmd =? 7); [right; eexists; reflexivity|].
  destruct (cmd =? 6) eqn:H6.
  - apply Z.eqb_eq in H6. subst cmd.
    unfold Gvret.reply_canbus_params, rates_cover, rate_fits, bind, to_bytes.
    change (256 ^ Z.of_nat 4) with (2 ^ 32).
    destruct (Gvret.bus_count c >=? 1).
    + destruct (Gvret.speed_at c 0) as [v0|]; [|cbn; auto].
      destruct (Gvret.bus_count c >=? 2).
      * destruct (Gvret.speed_at c 1) as [v1|];
          [|rewrite andb_false_r; cbn; auto].
        destruct ((0 <=? v0) && (v0 <? 2 ^ 32)); [|cbn; auto].
        destruct ((0 <=? v1) && (v1 <? 2 ^ 32)); [|cbn; auto].
        right. eexists. reflexivity.
      * destruct ((0 <=? v0) && (v0 <? 2 ^ 32)); [|cbn; auto].
        right. eexists. reflexivity.
    + destruct (Gvret.bus_count c >=? 2).
      * destruct (Gvret.speed_at c 1) as [v1|]; [|cbn; auto].
        destruct ((0 <=? v1) && (v1 <? 2 ^ 32)); [|cbn; auto].
        right. eexists. reflexivity.
      * right. eexists. reflexivity.
  - destruct (cmd =? 12); [right; eexists; reflexivity|].
    destruct (cmd =? 1).
    + unfold Gvret.reply_timebase. rewrite to_bytes_in_range.
      * right. eexists. reflexivity.
      * change 0xFFFFFFFF with (Z.ones 32). rewrite land_ones_mod by lia.
        apply Z.mod_pos_bound. lia.
    + destruct (cmd =? 9); [right; eexists; reflexivity|left; reflexivity].
Qed.

End SessionSteps.

(** ** The GVRET session: what a receive loop keeps *)

Section SessionInduction.

Variable St : Type.
Variable tx_func : option (Z -> Z -> list Z -> St -> option St).
Variable clock : Z.

(** A relation between the session before and after that every step of
    the loops keeps. *)
Variable R : Gvret.GVRETClient -> St -> Gvret.GVRETClient -> St -> Prop.

Hypothesis R_refl : forall c st, R c st c st.
Hypothesis R_trans : forall c1 s1 c2 s2 c3 s3,
  R c1 s1 c2 s2 -> R c2 s2 c3 s3 -> R c1 s1 c3 s3.
Hypothesis R_buf : forall c st b, R c st (Gvret.with_buf c b) st.
Hypothesis R_enter : forall c st, R c st (Gvret.enter_binary c) st.
Hypothesis R_consume : forall c st k c' st',
  Gvret._try_consume_send_frame St tx_func c st = (k, c', st') ->
  R c st (match k with Gvret.Raised => Gvret.close c' | _ => c' end) st'.
Hypothesis R_dispatch : forall cmd c st,
  R c st (match Gvret.dispatch clock cmd c with
          | Some c' => c'
          | None => Gvret.close c
          end) st.

Lemma parse_binary_rel (fuel : nat) :
  forall c st,
    R c st (fst (Gvret.parse_binary St tx_func fuel clock c st))
           (snd (Gvret.parse_binary St tx_func fuel clock c st)).
Proof.
  induction fuel as [|fuel IH]; intros c st; [apply R_refl|].
  cbn [Gvret.parse_binary].
  destruct (negb (Gvret.binary c)); [apply R_refl|].
  set (c1 := Gvret.with_buf c (Gvret.resync (Gvret.buf c))).
  assert (H1 : R c st c1 st) by apply R_buf.
  destruct (Gvret.buf c1) as [|x0 [|cmd rest]]; try exact H1.
  destruct (negb (x0 =? 241)); [exact H1|].
  destruct (cmd =? 0).
  - destruct (Gvret._try_consume_send_frame St tx_func c1 st)
      as [[k c'] st'] eqn:Hk.
    pose proof (R_consume _ _ _ _ _ Hk) as H2.
    destruct k; cbn [fst snd].
    + eapply R_trans; [exact H1|]. eapply R_trans; [exact H2|]. apply IH.
    + eapply R_trans; [exact H1|exact H2].
    + eapply R_trans; [exact H1|exact H2].
  - pose proof (R_dispatch cmd (Gvret.with_buf c1 rest) st) as H2.
    assert (H3 : R c st (Gvret.with_buf c1 rest) st)
      by (eapply R_trans; [exact H1|apply R_buf]).
    destruct (Gvret.dispatch clock cmd (Gvret.with_buf c1 rest)) as [c'|].
    + eapply R_trans; [exact H3|]. eapply R_trans; [exact H2|]. apply IH.
    + eapply R_trans; [exact H3|exact H2].
Qed.

Lemma handshake_rel (fuel : nat) :
  forall c st, R c st (Gvret.handshake fuel c) st.
Proof.
  induction fuel as [|fuel IH]; intros c st; [apply R_refl|].
  cbn [Gvret.handshake].
  destruct (Gvret.find_E7E7 (Gvret.buf c)) as [idx|]; [|apply R_refl].
  eapply R_trans; [apply (R_buf c st (skipn (idx + 2) (Gvret.buf c)))|].
  eapply R_trans; [apply R_enter|]. apply IH.
Qed.

Lemma rx_chunk_rel (chunk : list Z) (c : Gvret.GVRETClient) (st : St) :
  R c st (fst (Gvret.rx_chunk St tx_func clock chunk c st))
         (snd (Gvret.rx_chunk St tx_func clock chunk c st)).
Proof.
  unfold Gvret.rx_chunk.
  eapply R_trans; [apply (R_buf c st (Gvret.buf c ++ chunk))|].
  eapply R_trans; [apply handshake_rel|]. apply parse_binary_rel.
Qed.

Hypothesis R_close : forall c st, R c st (Gvret.close c) st.

Lemma rx_loop_rel (chunks : list (list Z)) :
  forall c st,
    R c st (fst (Gvret._rx_loop St tx_func clock chunks c st))
           (snd (Gvret._rx_loop St tx_func clock chunks c st)).
Proof.
  induction chunks as [|chunk more IH]; intros c st; [apply R_refl|].
  cbn [Gvret._rx_loop].
  destruct (negb (Gvret.alive c)); [apply R_refl|].
  destruct chunk as [|x chunk]; [apply R_close|].
  pose proof (rx_chunk_rel (x :: chunk) c st) as H.
  destruct (Gvret.rx_chunk St tx_func clock (x :: chunk) c st) as [c' st'].
  eapply R_trans; [exact H|]. apply IH.
Qed.

End SessionInduction.

(** X1. Whatever a session receives, and however it is cut into chunks:
    the bus count and the bit rates it advertises never change, a session
    in binary state stays in binary state, and what it has sent is only
    ever added to. *)
Theorem session_state_only_grows (St : Type)
    (tx_func : option (Z -> Z -> list Z -> St -> option St)) (clock : Z)
    (chunks : list (list Z)) (c : Gvret.GVRETClient) (st : St) :
  let c' := fst (Gvret._rx_loop St tx_func clock chunks c st) in
  Gvret.bus_count c' = Gvret.bus_count c /\
  Gvret.bus_speeds c' = Gvret.bus_speeds c /\
  (Gvret.binary c = true -> Gvret.binary c' = true) /\
  exists more, Gvret.sent c' = Gvret.sent c ++ more.
Proof.
  apply (rx_loop_rel St tx_func clock
           (fun c _ c' _ =>
              Gvret.bus_count c' = Gvret.bus_count c /\
              Gvret.bus_speeds c' = Gvret.bus_speeds c /\
              (Gvret.binary c = true -> Gvret.binary c' = true) /\
              exists more, Gvret.sent c' = Gvret.sent c ++ more)).
  - intros c0 _. repeat split; auto. exists []. symmetry. apply app_nil_r.
  - intros c1 _ c2 _ c3 _ [Hn1 [Hs1 [Hb1 [m1 Hm1]]]] [Hn2 [Hs2 [Hb2 [m2 Hm2]]]].
    repeat split; try congruence; auto.
    exists (m1 ++ m2). rewrite Hm2, Hm1, app_assoc. reflexivity.
  - intros c0 _ b. repeat split; auto. exists []. symmetry. apply app_nil_r.
  - intros c0 _. repeat split; auto. exists []. symmetry. apply app_nil_r.
  - intros c0 st0 k c' st' Hk. apply consume_call in Hk.
    destruct Hk as [[-> [-> _]]|[bus [can_id [data [_ [-> _]]]]]].
    + repeat split; auto. exists []. symmetry. apply app_nil_r.
    + destruct k;
        (repeat split; auto; exists []; symmetry; apply app_nil_r).
  - intros cmd c0 _. pose proof (dispatch_sends clock cmd c0) as H.
    destruct (Gvret.dispatch clock cmd c0) as [c'|].
    + destruct H as [->|[msg ->]].
      * repeat split; auto. exists []. symmetry. apply app_nil_r.
      * repeat split; auto. exists [msg]. reflexivity.
    + repeat split; auto. exists []. symmetry. apply app_nil_r.
  - intros c0 _. repeat split; auto. exists []. symmetry. apply app_nil_r.
Qed.

(** X2. With a [tx_func] that records its calls: whatever bytes a client
    sends, every transmit call it causes is for a bus number of one
    byte, carries at most eight data bytes, and has an identifier word
    that is an 11-bit standard identifier or the EFF flag with a 29-bit
    identifier, so never the RTR or the ERR flag. *)
Theorem client_requests_are_bounded (clock : Z) (chunks : list (list Z))
    (c : Gvret.GVRETClient) (st : list (Z * Z * list Z)) :
  exists calls,
    snd (Gvret._rx_loop _ (Some tx_log) clock chunks c st) = st ++ calls /\
    Forall tx_ok calls.
Proof.
  apply (rx_loop_rel _ (Some tx_log) clock
           (fun _ st _ st' => exists calls, st' = st ++ calls /\ Forall tx_ok calls)).
  - intros _ st0. exists []. split; [symmetry; apply app_nil_r|constructor].
  - intros _ s1 _ s2 _ s3 [k1 [-> H1]] [k2 [-> H2]]. exists (k1 ++ k2).
    split; [rewrite app_assoc; reflexivity|]. apply Forall_app. auto.
  - intros _ st0 _. exists []. split; [symmetry; apply app_nil_r|constructor].
  - intros _ st0. exists []. split; [symmetry; apply app_nil_r|constructor].
  - intros c0 st0 k c' st' Hk. apply consume_call in Hk.
    destruct Hk as [[_ [_ ->]]|[bus [can_id [data [Hok [_ Hf]]]]]].
    + exists []. split; [symmetry; apply app_nil_r|constructor].
    + unfold tx_log in Hf. destruct Hf as [[Hf _]|[Hf _]]; [|discriminate].
      injection Hf as <-. exists [(bus, can_id, data)].
      split; [reflexivity|]. constructor; [exact Hok|constructor].
  - intros _ _ st0. exists []. split; [symmetry; apply app_nil_r|constructor].
  - intros _ st0. exists []. split; [symmetry; apply app_nil_r|constructor].
Qed.

(** ** The transmit path of the server *)

Lemma ljust_length (n : nat) (b : list Z) : (n <= length (ljust n b))%nat.
Proof. unfold ljust. rewrite length_app, repeat_length. lia. Qed.

(** [_tx_can] builds a frame for every identifier word of 32 bits: 72
    bytes for an FD frame on an FD server, 16 bytes otherwise. *)
Lemma tx_frame_some (server_fd : bool) (can_id : Z) (data : list Z) (is_fd : bool) :
  0 <= can_id < 2 ^ 32 ->
  exists frame dlc data_len,
    Bridge.tx_frame server_fd can_id data is_fd
      = Some (frame, dlc, data_len, is_fd && server_fd) /\
    length frame = (if is_fd && server_fd then 72 else 16)%nat.
Proof.
  intros Hid. unfold Bridge.tx_frame.
  destruct (is_fd && server_fd).
  - unfold Bridge.pack_fd.
    rewrite (to_bytes_in_range can_id 4) by exact Hid.
    rewrite (to_bytes_in_range (Z.min (Z.of_nat (length data)) 64) 1)
      by (change (256 ^ Z.of_nat 1) with 256; lia).
    cbn [bind]. change (to_bytes 0 1) with (Some [0]). cbn [bind].
    eexists _, _, _. split; [reflexivity|].
    rewrite !length_app, !le_digits_length, length_firstn.
    pose proof (ljust_length 64 (ljust 64 data)). cbn [length]. lia.
  - unfold Bridge.pack_classic.
    rewrite (to_bytes_in_range can_id 4) by exact Hid.
    rewrite (to_bytes_in_range (Z.min (Z.of_nat (length data)) 8) 1)
      by (change (256 ^ Z.of_nat 1) with 256; lia).
    cbn [bind].
    eexists _, _, _. split; [reflexivity|].
    rewrite !length_app, !le_digits_length, length_firstn.
    pose proof (ljust_length 8 (ljust 8 (firstn 8 data))). cbn [length]. lia.
Qed.

Lemma sock_send_length (frame : list Z) (socks : list (list (list Z))) :
  forall i, length (Bridge.sock_send socks i frame) = length socks.
Proof.
  induction socks as [|w socks IH]; intros i; [reflexivity|].
  destruct i; cbn; [|rewrite IH]; reflexivity.
Qed.

Lemma sock_send_nth (frame : list Z) (socks : list (list (list Z))) :
  forall i j, (i < length socks)%nat ->
    nth j (Bridge.sock_send socks i frame) [] =
      if (j =? i)%nat then nth j socks [] ++ [frame] else nth j socks [].
Proof.
  induction socks as [|w socks IH]; intros i j Hi; [cbn in Hi; lia|].
  destruct i as [|i]; destruct j as [|j]; cbn [Bridge.sock_send nth Nat.eqb];
    try reflexivity.
  apply IH. cbn in Hi. lia.
Qed.

Lemma tx_can_some (now : Z) (is_fd : bool) (bus can_id : Z) (data : list Z)
    (s : Bridge.CanTcpServer) :
  0 <= can_id < 2 ^ 32 ->
  exists s', Bridge._tx_can now is_fd bus can_id data s = Some s'.
Proof.
  intros Hid. unfold Bridge._tx_can.
  destruct (negb _); [eexists; reflexivity|].
  destruct (tx_frame_some (Bridge.can_fd s) can_id data is_fd Hid)
    as [frame [dlc [data_len [-> _]]]].
  cbn [bind]. eexists. reflexivity.
Qed.

(** X3. A transmit request for an identifier word of 32 bits never
    raises.  For a bus number outside [bus_offset, bus_offset + sockets)
    it does nothing at all: no socket is written and no row is enqueued.
    Otherwise it writes one frame, of 72 bytes for an FD frame on an FD
    server and of 16 bytes otherwise, to the socket [bus - bus_offset] and
    to no other socket. *)
Theorem tx_can_writes_one_socket (now : Z) (is_fd : bool) (bus can_id : Z)
    (data : list Z) (s : Bridge.CanTcpServer) :
  0 <= can_id < 2 ^ 32 ->
  let idx := bus - Bridge.bus_offset s in
  exists s',
    Bridge._tx_can now is_fd bus can_id data s = Some s' /\
    if (0 <=? idx) && (idx <? Z.of_nat (length (Bridge.can_socks s)))
    then exists frame,
           length frame = (if is_fd && Bridge.can_fd s then 72 else 16)%nat /\
           length (Bridge.can_socks s') = length (Bridge.can_socks s) /\
           forall j, nth j (Bridge.can_socks s') [] =
                       if (j =? Z.to_nat idx)%nat
                       then nth j (Bridge.can_socks s) [] ++ [frame]
                       else nth j (Bridge.can_socks s) []
    else s' = s.
Proof.
  intros Hid idx. unfold Bridge._tx_can. fold idx.
  destruct ((0 <=? idx) && (idx <? Z.of_nat (length (Bridge.can_socks s))))
    eqn:Hin; cbn [negb].
  - destruct (tx_frame_some (Bridge.can_fd s) can_id data is_fd Hid)
      as [frame [dlc [data_len [-> Hlen]]]].
    cbn [bind]. eexists. split; [reflexivity|].
    exists frame. cbn [Bridge.can_socks]. split; [exact Hlen|].
    split; [apply sock_send_length|].
    intros j. apply sock_send_nth.
    apply andb_prop in Hin. destruct Hin as [H0 H1].
    apply Z.leb_le in H0. apply Z.ltb_lt in H1. lia.
  - eexists. split; reflexivity.
Qed.

Lemma tx_can_writes_one_socket_witness :
  exists s',
    Bridge._tx_can 0 false 1 0x123 [1; 2; 3] two_bus_server = Some s' /\
    exists frame,
      length frame = 16%nat /\
      length (Bridge.can_socks s') = 2%nat /\
      forall j, nth j (Bridge.can_socks s') [] =
                  if (j =? 1)%nat
                  then nth j (Bridge.can_socks two_bus_server) [] ++ [frame]
                  else nth j (Bridge.can_socks two_bus_server) [].
Proof.
  exact (tx_can_writes_one_socket 0 false 1 0x123 [1; 2; 3] two_bus_server
           ltac:(lia)).
Defined.

(** ** Requests never end a session *)

(** X4. A session of the server whose advertised bit rates are there and
    fit four bytes is never closed by what it receives: whatever the
    bytes and however they are cut into chunks, no request raises, and the
    session is closed only when the peer closes (an empty chunk). *)
Theorem requests_never_close_a_session (now clock : Z)
    (chunks : list (list Z)) (c : Gvret.GVRETClient) (s : Bridge.CanTcpServer) :
  rates_cover c = true ->
  Forall (fun chunk => chunk <> []) chunks ->
  Gvret.alive (fst (Bridge.session_rx now clock chunks c s)) = Gvret.alive c.
Proof.
  intros Hrates Hchunks. unfold Bridge.session_rx.
  revert c s Hrates.
  induction Hchunks as [|chunk more Hne _ IH]; intros c s Hrates; [reflexivity|].
  cbn [Gvret._rx_loop].
  destruct (negb (Gvret.alive c)); [reflexivity|].
  destruct chunk as [|x chunk]; [contradiction|].
  assert (Hrel : rates_cover c = true ->
                 Gvret.alive (fst (Gvret.rx_chunk _ (Some (Bridge._tx_can now false))
                                     clock (x :: chunk) c s)) = Gvret.alive c /\
                 rates_cover (fst (Gvret.rx_chunk _ (Some (Bridge._tx_can now false))
                                     clock (x :: chunk) c s)) = true).
  { apply (rx_chunk_rel _ (Some (Bridge._tx_can now false)) clock
             (fun c _ c' _ =>
                rates_cover c = true ->
                Gvret.alive c' = Gvret.alive c /\ rates_cover c' = true)).
    - auto.
    - intros c1 _ c2 _ c3 _ H1 H2 Hr1. destruct (H1 Hr1) as [Ha1 Hr2].
      destruct (H2 Hr2) as [Ha2 Hr3]. split; congruence.
    - intros c0 _ b Hr0. split; [reflexivity|exact Hr0].
    - intros c0 _ Hr0. split; [reflexivity|exact Hr0].
    - intros c0 st0 k c' st' Hk Hr0. apply consume_call in Hk.
      destruct Hk as [[-> [-> _]]|[bus [can_id [data [Hok [-> Hf]]]]]]; [auto|].
      destruct Hok as [_ [Hid _]].
      destruct (tx_can_some now false bus can_id data st0) as [s' Hs'].
      { unfold CAN_SFF_MASK, CAN_EFF_FLAG, CAN_EFF_MASK in Hid. lia. }
      rewrite Hs' in Hf. destruct Hf as [[_ ->]|[Hf _]]; [auto|discriminate].
    - intros cmd c0 _ Hr0. pose proof (dispatch_sends clock cmd c0) as Hd.
      destruct (Gvret.dispatch clock cmd c0) as [c'|].
      + destruct Hd as [->|[msg ->]]; auto.
      + destruct Hd as [_ Hd]. congruence. }
  destruct (Hrel Hrates) as [Ha Hr].
  destruct (Gvret.rx_chunk _ _ clock (x :: chunk) c s) as [c' s'].
  cbn [fst snd] in *. rewrite <- Ha. apply IH. exact Hr.
Qed.

Lemma requests_never_close_a_session_witness :
  Gvret.alive
    (fst (Bridge.session_rx 0 0
            [[0xE7; 0xE7; 0xF1]; [0x06; 0xF1; 0x00; 0xFF; 0xFF; 0xFF; 0xFF; 0x07];
             [0xFF; 0x00]]
            (Bridge._accept two_bus_server) two_bus_server))
  = true.
Proof.
  apply (requests_never_close_a_session 0 0 _
           (Bridge._accept two_bus_server) two_bus_server eq_refl).
  repeat constructor; discriminate.
Defined.

(** ** The receive buffer *)

Lemma resync_head (b r : list Z) (x : Z) : Gvret.resync b = x :: r -> x = 0xF1.
Proof.
  induction b as [|y b IH]; cbn [Gvret.resync]; [discriminate|].
  destruct (y =? 241) eqn:Hy; [|exact IH].
  intros [= <- _]. apply Z.eqb_eq. exact Hy.
Qed.

Lemma handshake_is_byte (fuel : nat) :
  forall c, Forall is_byte (Gvret.buf c) ->
            Forall is_byte (Gvret.buf (Gvret.handshake fuel c)).
Proof.
  induction fuel as [|fuel IH]; intros c Hb; [exact Hb|].
  cbn [Gvret.handshake].
  destruct (Gvret.find_E7E7 (Gvret.buf c)); [|exact Hb].
  apply IH. cbn [Gvret.buf Gvret.enter_binary Gvret.with_buf].
  apply skipn_is_byte. exact Hb.
Qed.

Lemma handshake_alive (fuel : nat) :
  forall c, Gvret.alive (Gvret.handshake fuel c) = Gvret.alive c.
Proof.
  induction fuel as [|fuel IH]; intros c; [reflexivity|].
  cbn [Gvret.handshake].
  destruct (Gvret.find_E7E7 (Gvret.buf c)); [|reflexivity].
  rewrite IH. reflexivity.
Qed.

Lemma awaiting_length (b : list Z) :
  Forall is_byte b -> awaiting b = true -> (length b < 263)%nat.
Proof.
  intros Hb Ha. destruct b as [|x [|y b]]; cbn [length]; try lia.
  unfold awaiting in Ha. apply andb_prop in Ha. destruct Ha as [_ Ha].
  apply orb_prop in Ha. destruct Ha as [Ha|Ha].
  - apply Nat.ltb_lt in Ha. cbn [length] in Ha. lia.
  - apply Z.ltb_lt in Ha.
    destruct (Nat.lt_ge_cases (length (x :: y :: b)) 8) as [Hlt|Hge];
      [cbn [length] in Hlt; lia|].
    assert (Hd : is_byte (nth 7 (x :: y :: b) 0))
      by (apply Forall_nth; [exact Hb|lia]).
    unfold is_byte in Hd. cbn [length] in *. lia.
Qed.

Lemma find_E7E7_prefix (a b : list Z) :
  Gvret.find_E7E7 (a ++ b) = None -> Gvret.find_E7E7 a = None.
Proof.
  induction a as [|x a IH]; [reflexivity|].
  destruct a as [|y a]; [reflexivity|].
  change (Gvret.find_E7E7 ((x :: y :: a) ++ b))
    with (if (x =? 231) && (y =? 231) then Some O
          else option_map S (Gvret.find_E7E7 ((y :: a) ++ b))).
  change (Gvret.find_E7E7 (x :: y :: a))
    with (if (x =? 231) && (y =? 231) then Some O
          else option_map S (Gvret.find_E7E7 (y :: a))).
  destruct ((x =? 231) && (y =? 231)); [discriminate|].
  destruct (Gvret.find_E7E7 ((y :: a) ++ b)); [discriminate|].
  intros _. rewrite IH; reflexivity.
Qed.

Lemma find_E7E7_tail (x : Z) (b : list Z) :
  Gvret.find_E7E7 (x :: b) = None -> Gvret.find_E7E7 b = None.
Proof.
  destruct b as [|y t]; [reflexivity|].
  change (Gvret.find_E7E7 (x :: y :: t))
    with (if (x =? 231) && (y =? 231) then Some O
          else option_map S (Gvret.find_E7E7 (y :: t))).
  destruct ((x =? 231) && (y =? 231)); [discriminate|].
  destruct (Gvret.find_E7E7 (y :: t)); [discriminate|reflexivity].
Qed.

Section Buffer.

Variable St : Type.
Variable tx_func : option (Z -> Z -> list Z -> St -> option St).

(** A send-frame request is left in the buffer only while it is not all
    there. *)
Lemma need_more_awaits (c c' : Gvret.GVRETClient) (st st' : St) (rest : list Z) :
  Gvret.buf c = 0xF1 :: 0x00 :: rest ->
  Gvret._try_consume_send_frame St tx_func c st = (Gvret.NeedMore, c', st') ->
  c' = c /\ st' = st /\ awaiting (Gvret.buf c) = true.
Proof.
  intros Hbuf H. unfold Gvret._try_consume_send_frame in H.
  unfold awaiting. rewrite Hbuf in *.
  destruct (Nat.ltb _ 8); [injection H as <- <-; auto|].
  cbn [nth Z.eqb Pos.eqb andb negb orb] in *.
  destruct (Z.of_nat _ <? 8 + nth 5 rest 0);
    [injection H as <- <-; auto|].
  destruct tx_func as [f|]; [|discriminate].
  destruct (f _ _ _ st); discriminate.
Qed.

Lemma parse_binary_awaits (clock : Z) (fuel : nat) :
  forall (c : Gvret.GVRETClient) (st : St),
    Forall is_byte (Gvret.buf c) -> (length (Gvret.buf c) < fuel)%nat ->
    Gvret.binary c = true -> Gvret.alive c = true ->
    let c' := fst (Gvret.parse_binary St tx_func fuel clock c st) in
    Gvret.alive c' = true ->
    awaiting (Gvret.buf c') = true /\ Forall is_byte (Gvret.buf c').
Proof.
  induction fuel as [|fuel IH]; intros c st Hb Hlen Hbin Halive; [lia|].
  cbn [Gvret.parse_binary]. rewrite Hbin. cbn [negb].
  pose proof (resync_length (Gvret.buf c)) as Hrl.
  pose proof (resync_is_byte _ Hb) as Hrb.
  set (c1 := Gvret.with_buf c (Gvret.resync (Gvret.buf c))).
  assert (Hbuf1 : Gvret.buf c1 = Gvret.resync (Gvret.buf c)) by reflexivity.
  assert (Hbin1 : Gvret.binary c1 = true) by exact Hbin.
  assert (Halive1 : Gvret.alive c1 = true) by exact Halive.
  assert (Hrb1 : Forall is_byte (Gvret.buf c1)) by exact Hrb.
  assert (Hlen1 : (length (Gvret.buf c1) <= length (Gvret.buf c))%nat)
    by exact Hrl.
  clearbody c1.
  destruct (Gvret.buf c1) as [|x0 [|cmd rest]] eqn:Hc1.
  - cbn [fst]. intros _. rewrite Hc1. split; [reflexivity|constructor].
  - cbn [fst]. intros _. rewrite Hc1. symmetry in Hbuf1.
    apply resync_head in Hbuf1. subst x0. split; [reflexivity|exact Hrb1].
  - assert (Hhead : x0 = 0xF1)
      by (symmetry in Hbuf1; eapply resync_head; exact Hbuf1).
    subst x0. cbn [Z.eqb Pos.eqb negb].
    destruct (cmd =? 0) eqn:Hcmd.
    + apply Z.eqb_eq in Hcmd. subst cmd.
      destruct (Gvret._try_consume_send_frame St tx_func c1 st)
        as [[k c'] st'] eqn:Hk.
      destruct k.
      * pose proof Hk as Hk2.
        apply consumed_shrinks in Hk2; [|rewrite Hc1; exact Hrb1].
        destruct Hk2 as [Hsh [Hb' Hbin']].
        apply consume_call in Hk.
        destruct Hk as [[Hk _]|[bus [can_id [data [_ [Hc' _]]]]]];
          [discriminate|].
        apply IH.
        -- exact Hb'.
        -- rewrite Hc1 in Hsh. lia.
        -- rewrite Hbin'. exact Hbin1.
        -- rewrite Hc'. exact Halive1.
      * apply (need_more_awaits c1 c' st st' rest Hc1) in Hk.
        destruct Hk as [-> [-> Ha]]. cbn [fst]. intros _.
        rewrite Hc1 in Ha |- *. split; [exact Ha|exact Hrb1].
      * cbn [fst Gvret.alive Gvret.close]. discriminate.
    + destruct (Gvret.dispatch clock cmd (Gvret.with_buf c1 rest)) as [c'|] eqn:Hd.
      * apply dispatch_keeps in Hd. destruct Hd as [Hbuf' [Hbin' Ha']].
        cbn [Gvret.buf Gvret.with_buf Gvret.binary Gvret.alive] in Hbuf', Hbin', Ha'.
        assert (Hrest : Forall is_byte rest).
        { inversion Hrb1 as [|? ? _ H2]. inversion H2; assumption. }
        apply IH.
        -- rewrite Hbuf'. exact Hrest.
        -- rewrite Hbuf'. cbn [length] in Hlen1. lia.
        -- rewrite Hbin'. exact Hbin1.
        -- rewrite Ha'. exact Halive1.
      * cbn [fst Gvret.alive Gvret.close]. discriminate.
Qed.

(** X5. After each chunk a session that is in binary state and still
    open holds no request it could act on: its buffer is empty, or one F1,
    or the start of a send-frame request that is not all there; so the
    buffer of a binary session never holds more than 262 bytes between
    chunks. *)
Theorem binary_buffer_holds_no_request (clock : Z) (chunk : list Z)
    (c : Gvret.GVRETClient) (st : St) :
  Forall is_byte (Gvret.buf c) -> Forall is_byte chunk ->
  Gvret.alive c = true ->
  let c' := fst (Gvret.rx_chunk St tx_func clock chunk c st) in
  Gvret.alive c' = true -> Gvret.binary c' = true ->
  awaiting (Gvret.buf c') = true /\ (length (Gvret.buf c') < 263)%nat.
Proof.
  intros Hb Hchunk Halive c' Ha' Hbin'. subst c'. unfold Gvret.rx_chunk in *.
  set (c0 := Gvret.with_buf c (Gvret.buf c ++ chunk)) in *.
  set (c1 := Gvret.handshake (S (length (Gvret.buf c0))) c0) in *.
  assert (Hb1 : Forall is_byte (Gvret.buf c1)).
  { apply handshake_is_byte. apply Forall_app. split; assumption. }
  assert (Ha1 : Gvret.alive c1 = true)
    by (subst c1; rewrite handshake_alive; exact Halive).
  assert (Hbin1 : Gvret.binary c1 = true).
  { destruct (Gvret.binary c1) eqn:E; [reflexivity|].
    cbn [Gvret.parse_binary] in Hbin'. rewrite E in Hbin'.
    cbn [negb fst] in Hbin'. rewrite E in Hbin'. discriminate. }
  destruct (parse_binary_awaits clock (S (length (Gvret.buf c1))) c1 st
              Hb1 ltac:(lia) Hbin1 Ha1 Ha') as [Haw Hbytes].
  split; [exact Haw|]. apply awaiting_length; assumption.
Qed.

Lemma ascii_chunk_buffers (clock : Z) (chunk : list Z)
    (c : Gvret.GVRETClient) (st : St) :
  Gvret.binary c = false ->
  Gvret.find_E7E7 (Gvret.buf c ++ chunk) = None ->
  Gvret.rx_chunk St tx_func clock chunk c st
    = (Gvret.with_buf c (Gvret.buf c ++ chunk), st).
Proof.
  intros Hbin Hfind. unfold Gvret.rx_chunk.
  cbn [Gvret.handshake Gvret.buf Gvret.with_buf]. rewrite Hfind.
  cbn [Gvret.parse_binary Gvret.binary Gvret.with_buf]. rewrite Hbin.
  reflexivity.
Qed.

(** X6. A session in ascii state answers nothing and transmits nothing
    for as long as what it has received holds no E7 E7: every byte stays
    in its buffer, which grows with each chunk. *)
Theorem ascii_session_only_buffers (clock : Z) (chunks : list (list Z)) :
  forall (c : Gvret.GVRETClient) (st : St),
    Gvret.binary c = false -> Gvret.alive c = true ->
    Forall (fun chunk => chunk <> []) chunks ->
    Gvret.find_E7E7 (Gvret.buf c ++ concat chunks) = None ->
    Gvret._rx_loop St tx_func clock chunks c st
      = (Gvret.with_buf c (Gvret.buf c ++ concat chunks), st).
Proof.
  induction chunks as [|chunk more IH]; intros c st Hbin Halive Hne Hfind.
  - cbn [Gvret._rx_loop concat]. rewrite app_nil_r. destruct c. reflexivity.
  - cbn [Gvret._rx_loop concat] in *. rewrite Halive. cbn [negb].
    inversion Hne as [|? ? Hchunk Hmore]. subst.
    destruct chunk as [|x chunk]; [contradiction|].
    rewrite app_assoc in Hfind.
    rewrite (ascii_chunk_buffers clock (x :: chunk) c st Hbin
               (find_E7E7_prefix _ _ Hfind)).
    rewrite IH; try assumption.
    cbn [Gvret.buf Gvret.with_buf]. rewrite <- app_assoc. reflexivity.
Qed.

Lemma parse_binary_unknown (clock : Z) (fuel : nat) (cmd : Z) (rest : list Z)
    (c : Gvret.GVRETClient) (st : St) :
  Gvret.binary c = true -> known_opcode cmd = false ->
  Gvret.parse_binary St tx_func (S fuel) clock
    (Gvret.with_buf c (0xF1 :: cmd :: rest)) st
  = Gvret.parse_binary St tx_func fuel clock (Gvret.with_buf c rest) st.
Proof.
  intros Hbin Hcmd.
  cbn [Gvret.parse_binary Gvret.binary Gvret.with_buf Gvret.buf Gvret.resync].
  rewrite Hbin. cbn [negb Z.eqb Pos.eqb].
  unfold known_opcode in Hcmd.
  repeat (apply orb_false_elim in Hcmd; destruct Hcmd as [Hcmd ?]).
  rewrite Hcmd. unfold Gvret.dispatch.
  repeat match goal with H : (cmd =? _) = false |- _ => rewrite H; clear H end.
  reflexivity.
Qed.

(** X7. A request with an opcode the session does not know is taken off
    the buffer and nothing else happens: a binary session answers a chunk
    that begins with such a request as it answers the rest of the
    chunk. *)
Theorem unknown_opcode_is_skipped (clock cmd : Z) (rest : list Z)
    (c : Gvret.GVRETClient) (st : St) :
  Gvret.binary c = true -> Gvret.buf c = [] ->
  known_opcode cmd = false ->
  Forall is_byte rest ->
  Gvret.find_E7E7 (0xF1 :: cmd :: rest) = None ->
  Gvret.rx_chunk St tx_func clock (0xF1 :: cmd :: rest) c st
    = Gvret.rx_chunk St tx_func clock rest c st.
Proof.
  intros Hbin Hbuf Hcmd Hrest Hfind. unfold Gvret.rx_chunk.
  rewrite Hbuf. cbn [app Gvret.buf Gvret.with_buf].
  assert (Hfind' : Gvret.find_E7E7 rest = None)
    by (apply (find_E7E7_tail cmd), (find_E7E7_tail 0xF1), Hfind).
  cbn [Gvret.handshake Gvret.buf Gvret.with_buf]. rewrite Hfind, Hfind'.
  cbn [Gvret.buf Gvret.with_buf length].
  set (n := length rest).
  change (Gvret.parse_binary St tx_func (S (S (S n))) clock
            (Gvret.with_buf c (0xF1 :: cmd :: rest)) st
          = Gvret.parse_binary St tx_func (S n) clock (Gvret.with_buf c rest) st).
  rewrite (parse_binary_unknown clock (S (S n)) cmd rest c st Hbin Hcmd).
  apply (parse_binary_fuel St tx_func clock (S (S n)) (S n)
           (Gvret.with_buf c rest) st); cbn [Gvret.buf Gvret.with_buf];
    [exact Hrest|subst n; lia|subst n; lia].
Qed.

End Buffer.

Lemma binary_buffer_holds_no_request_witness :
  let c := Gvret.enter_binary (Bridge._accept two_bus_server) in
  let c' := fst (Gvret.rx_chunk _ (Some tx_log) 0
                   [0xF1; 0x09; 0xF1; 0x00; 0x23; 0x01; 0x00; 0x00; 0x00; 0x04; 0x41]
                   c []) in
  awaiting (Gvret.buf c') = true /\ (length (Gvret.buf c') < 263)%nat.
Proof.
  intros c c'.
  apply (binary_buffer_holds_no_request _ (Some tx_log) 0
           [0xF1; 0x09; 0xF1; 0x00; 0x23; 0x01; 0x00; 0x00; 0x00; 0x04; 0x41]
           c []).
  - constructor.
  - repeat constructor; unfold is_byte; lia.
  - reflexivity.
  - reflexivity.
  - reflexivity.
Defined.

Lemma ascii_session_only_buffers_witness :
  Gvret._rx_loop _ (Some tx_log) 0 [[0xF1; 0x09]; [0xE7]; [0xF1; 0x07]]
    (Bridge._accept two_bus_server) []
  = (Gvret.with_buf (Bridge._accept two_bus_server)
       [0xF1; 0x09; 0xE7; 0xF1; 0x07], []).
Proof.
  apply (ascii_session_only_buffers _ (Some tx_log) 0
           [[0xF1; 0x09]; [0xE7]; [0xF1; 0x07]]
           (Bridge._accept two_bus_server) []).
  - reflexivity.
  - reflexivity.
  - repeat constructor; discriminate.
  - reflexivity.
Defined.

Lemma unknown_opcode_is_skipped_witness :
  Gvret.rx_chunk _ (Some tx_log) 0 [0xF1; 0x42; 0xF1; 0x09]
    (Gvret.enter_binary (Bridge._accept two_bus_server)) []
  = Gvret.rx_chunk _ (Some tx_log) 0 [0xF1; 0x09]
      (Gvret.enter_binary (Bridge._accept two_bus_server)) [].
Proof.
  apply (unknown_opcode_is_skipped _ (Some tx_log) 0 0x42 [0xF1; 0x09]
           (Gvret.enter_binary (Bridge._accept two_bus_server)) []).
  - reflexivity.
  - reflexivity.
  - reflexivity.
  - repeat constructor; unfold is_byte; lia.
  - reflexivity.
Defined.

(** ** DLC and length at the edges *)

Lemma first_fit_none (length : Z) (table : list Z) :
  forall dlc, Forall (fun dlen => dlen < length) table ->
              first_fit length dlc table = None.
Proof.
  induction table as [|dlen table IH]; intros dlc H; [reflexivity|].
  inversion H as [|? ? Hd Ht]. subst. cbn [first_fit].
  destruct (dlen >=? length) eqn:E; [|apply IH, Ht].
  rewrite Z.geb_leb in E. apply Z.leb_le in E. lia.
Qed.

Lemma len_to_dlc_above (L : Z) : 64 < L -> len_to_dlc L = 15.
Proof.
  intros HL. unfold len_to_dlc.
  destruct (L <=? 8) eqn:E; [apply Z.leb_le in E; lia|].
  rewrite first_fit_none; [reflexivity|].
  unfold CAN_FD_DLC_LEN. repeat constructor; lia.
Qed.


(** X8. Outside the lengths of the DLC table: a length above 64 gets DLC
    15, a DLC above 15 is read as 8 bytes even for an FD frame, a
    classic DLC is read as [min(dlc, 8)], and [len_to_dlc] never
    decreases when the length grows. *)
Theorem dlc_mapping_saturates (L1 L2 dlc : Z) :
  (64 < L1 -> len_to_dlc L1 = 15) /\
  (15 < dlc -> dlc_to_len dlc true = 8) /\
  dlc_to_len dlc false = Z.min dlc 8 /\
  (L1 <= L2 -> len_to_dlc L1 <= len_to_dlc L2).
Proof.
  split; [apply len_to_dlc_above|]. split; [|split].
  - intros Hd. unfold dlc_to_len.
    destruct (dlc <=? 8) eqn:E8; [apply Z.leb_le in E8; lia|].
    destruct (dlc <=? 15) eqn:E15; [apply Z.leb_le in E15; lia|].
    reflexivity.
  - unfold dlc_to_len. destruct (dlc <=? 8) eqn:E8; cbn [andb].
    + apply Z.leb_le in E8. lia.
    + apply Z.leb_gt in E8. lia.
  - intros Hle.
    assert (Hlow : forall L, L <= 8 -> len_to_dlc L = L).
    { intros L H. unfold len_to_dlc. apply Z.leb_le in H. rewrite H. reflexivity. }
    assert (Hmid : forall L, 8 < L <= 64 -> 9 <= len_to_dlc L <= 15).
    { intros L H.
      assert (Hb : ((9 <=? len_to_dlc L) && (len_to_dlc L <=? 15)) = true).
      { apply (zrange_forallb 9 56
                 (fun L => (9 <=? len_to_dlc L) && (len_to_dlc L <=? 15)));
          [vm_compute; reflexivity|lia]. }
      apply andb_prop in Hb. destruct Hb as [H1 H2].
      apply Z.leb_le in H1. apply Z.leb_le in H2. lia. }
    destruct (Z.le_gt_cases L1 8) as [H1|H1].
    + rewrite (Hlow L1 H1).
      destruct (Z.le_gt_cases L2 8) as [H2|H2]; [rewrite (Hlow L2 H2); lia|].
      destruct (Z.le_gt_cases L2 64) as [H3|H3].
      * pose proof (Hmid L2 ltac:(lia)). lia.
      * rewrite (len_to_dlc_above L2 H3). lia.
    + destruct (Z.le_gt_cases L2 64) as [H3|H3].
      * assert (H : forallb (fun a =>
                      forallb (fun b => (b <? a) || (len_to_dlc a <=? len_to_dlc b))
                              (zrange 9 56)) (zrange 9 56) = true)
          by (vm_compute; reflexivity).
        pose proof (zrange_forallb 9 56 _ H L1 ltac:(lia)) as Ha.
        cbv beta in Ha.
        pose proof (zrange_forallb 9 56 _ Ha L2 ltac:(lia)) as Hb.
        cbv beta in Hb. apply orb_prop in Hb. destruct Hb as [Hb|Hb].
        -- apply Z.ltb_lt in Hb. lia.
        -- apply Z.leb_le. exact Hb.
      * rewrite (len_to_dlc_above L2 H3).
        destruct (Z.le_gt_cases L1 64) as [H4|H4].
        -- pose proof (Hmid L1 ltac:(lia)). lia.
        -- rewrite (len_to_dlc_above L1 H4). lia.
Qed.

(** ** The receive path of the server *)



(** The payload [run] cuts out of a kernel frame: as many bytes as the
    length field says, eight at most for a classic frame and 64 for an FD
    frame. *)
Lemma rx_frame_payload (frame : list Z) :
  Forall is_byte frame -> (length frame = 16 \/ length frame = 72)%nat ->
  exists r,
    Bridge.rx_frame frame = Some r /\
    Bridge.rx_is_fd r = (length frame =? 72)%nat /\
    Bridge.rx_data r =
      firstn (Z.to_nat (Z.min (nth 4 frame 0) (if Bridge.rx_is_fd r then 64 else 8)))
             (skipn 8 frame) /\
    Z.of_nat (length (Bridge.rx_data r))
      = Z.min (nth 4 frame 0) (if Bridge.rx_is_fd r then 64 else 8) /\
    Bridge.rx_dlc r = (if Bridge.rx_is_fd r then len_to_dlc (nth 4 frame 0)
                       else nth 4 frame 0).
Proof.
  intros Hb Hlen.
  assert (Hd : is_byte (nth 4 frame 0)) by (apply Forall_nth; [exact Hb|lia]).
  unfold is_byte in Hd. unfold Bridge.rx_frame.
  destruct Hlen as [Hlen|Hlen]; rewrite Hlen; cbn [Nat.eqb Nat.ltb Nat.leb].
  - eexists. split; [reflexivity|].
    cbn [Bridge.rx_is_fd Bridge.rx_data Bridge.rx_dlc]. unfold slice.
    match goal with
    | |- context [(8 + ?n - 8)%nat] => replace (8 + n - 8)%nat with n by lia
    end.
    repeat split. rewrite length_firstn, length_skipn. lia.
  - eexists. split; [reflexivity|].
    cbn [Bridge.rx_is_fd Bridge.rx_data Bridge.rx_dlc]. unfold slice.
    match goal with
    | |- context [(8 + ?n - 8)%nat] => replace (8 + n - 8)%nat with n by lia
    end.
    split; [reflexivity|]. split; [|split; [|reflexivity]].
    + destruct (Z.le_gt_cases (nth 4 frame 0) 64) as [H|H].
      * rewrite Z.min_l by lia. reflexivity.
      * rewrite Z.min_r by lia.
        rewrite !firstn_all2; [reflexivity| |]; rewrite length_skipn; lia.
    + rewrite length_firstn, length_skipn. lia.
Qed.



(** ** The ingest pipeline: what every event keeps *)

Lemma grows_refl (w : Ingest.PostgresWriter) : grows w w.
Proof.
  unfold grows. repeat split; try lia.
  exists []. rewrite app_nil_r. cbn [length Z.of_nat]. split; [reflexivity|lia].
Qed.

Lemma grows_trans (w1 w2 w3 : Ingest.PostgresWriter) :
  grows w1 w2 -> grows w2 w3 -> grows w1 w3.
Proof.
  intros [[m1 [Hp1 Hw1]] [He1 [Hd1 [Hc1 Hr1]]]] [[m2 [Hp2 Hw2]] [He2 [Hd2 [Hc2 Hr2]]]].
  unfold grows. repeat split; try lia.
  exists (m1 ++ m2). rewrite Hp2, Hp1, Hw2, Hw1, app_assoc, length_app. split; [reflexivity|lia].
Qed.

(** A writer that differs only in fields the relation does not read. *)
Lemma grows_same (w w' : Ingest.PostgresWriter) :
  Ingest.pg_rows w' = Ingest.pg_rows w ->
  Ingest.count_written w' = Ingest.count_written w ->
  Ingest.count_enqueued w <= Ingest.count_enqueued w' ->
  Ingest.count_dropped w <= Ingest.count_dropped w' ->
  Ingest.count_cached w <= Ingest.count_cached w' ->
  Ingest.count_cache_recovered w' = Ingest.count_cache_recovered w ->
  grows w w'.
Proof.
  intros Hp Hw He Hd Hc Hr. unfold grows. repeat split; try lia.
  exists []. rewrite app_nil_r. cbn [length Z.of_nat]. split; [exact Hp|lia].
Qed.

Lemma grows_spilled (u : Ingest.PostgresWriter) (kept : list Ingest.row) (s d : Z) :
  0 <= d -> grows u (spilled u kept s d).
Proof. intros Hd. apply grows_same; cbn; try reflexivity; lia. Qed.

Lemma grows_committed (u : Ingest.PostgresWriter) (rows : list Ingest.row)
    (from_cache : bool) :
  grows u (Ingest.committed u rows from_cache).
Proof.
  unfold grows. cbn. repeat split; try lia; [|destruct from_cache; lia].
  exists rows. split; reflexivity.
Qed.

Lemma fill_batch_shrinks (limit : Z) (items : list Ingest.item) :
  forall b, (length (snd (Ingest.fill_batch limit items b)) <= length items)%nat.
Proof.
  induction items as [|[r|] items IH]; intros b; cbn [Ingest.fill_batch];
    destruct (Z.of_nat (length b) <? limit); cbn [snd length]; try lia.
  - specialize (IH (b ++ [r])). lia.
  - specialize (IH b). lia.
Qed.

Section PipelineEvents.

Variable grow : Z -> list Ingest.row -> Z.
Variable fresh_size : Z.

Lemma settles_refl (w : Ingest.PostgresWriter) : settles w w.
Proof. split; [apply grows_refl|split; [lia|reflexivity]]. Qed.

Lemma settles_trans (w1 w2 w3 : Ingest.PostgresWriter) :
  settles w1 w2 -> settles w2 w3 -> settles w1 w3.
Proof.
  intros [H1 [Hq1 Hm1]] [H2 [Hq2 Hm2]].
  split; [eapply grows_trans; eassumption|split; [lia|congruence]].
Qed.

Lemma settles_write_to_cache (e : Ingest.Env) (w : Ingest.PostgresWriter)
    (b : list Ingest.row) :
  settles w (Ingest._write_to_cache grow e w b).
Proof.
  destruct (write_to_cache_spilled grow e w b) as [k [s [Hk ->]]].
  apply subseq_length in Hk.
  split; [apply grows_spilled; lia|split; [cbn; lia|reflexivity]].
Qed.

Lemma settles_drain (e : Ingest.Env) (w : Ingest.PostgresWriter) :
  settles w (Ingest._drain_queue_to_cache grow e w) /\
  Ingest.q (Ingest._drain_queue_to_cache grow e w) = [].
Proof.
  destruct (drain_queue_spilled grow e w) as [k [s [Hk ->]]].
  apply subseq_length in Hk. split; [|reflexivity].
  split; [|split; [cbn; lia|reflexivity]].
  eapply grows_trans; [|apply grows_spilled; lia].
  apply grows_same; cbn; try reflexivity; lia.
Qed.

Lemma settles_flush (e : Ingest.Env) (w : Ingest.PostgresWriter) :
  settles w (Ingest._maybe_flush_queue_overflow grow e w).
Proof.
  unfold Ingest._maybe_flush_queue_overflow.
  destruct (Ingest.queue_max w =? 0); [apply settles_refl|].
  destruct (Ingest.over_threshold _ _ _); [apply settles_drain|apply settles_refl].
Qed.

Lemma settles_on_write_error (e : Ingest.Env) (w : Ingest.PostgresWriter) :
  settles w (Ingest.on_write_error grow e w) /\
  Ingest.q (Ingest.on_write_error grow e w) = [].
Proof.
  destruct (on_write_error_spilled grow e w) as [k [s [Hk ->]]].
  apply subseq_length in Hk. split; [|reflexivity].
  split; [|split; [cbn; lia|reflexivity]].
  eapply grows_trans; [|apply grows_spilled; lia].
  apply grows_same; cbn; try reflexivity; lia.
Qed.

Lemma settles_process_queue (e : Ingest.Env) (w : Ingest.PostgresWriter) :
  settles w (Ingest.process_queue grow e w).
Proof.
  unfold Ingest.process_queue.
  set (first := match Ingest.q w with
                | [] => ([], [])
                | Ingest.Wake :: rest => ([], rest)
                | Ingest.Row r :: rest => ([r], rest)
                end).
  pose proof (fill_batch_shrinks (Ingest.batch_size w) (snd first) (fst first))
    as Hlen.
  assert (Hfirst : (length (snd first) <= length (Ingest.q w))%nat).
  { subst first. destruct (Ingest.q w) as [|[r|] rest]; cbn [snd length]; lia. }
  destruct (Ingest.fill_batch _ _ _) as [b rest]. cbn [snd] in Hlen.
  set (u := Ingest.with_batch (Ingest.with_q w rest) b).
  assert (Hu : settles w u).
  { split; [|split; [cbn; lia|reflexivity]].
    apply grows_same; cbn; try reflexivity; lia. }
  destruct (Ingest.execute_ok e).
  - destruct b as [|r b]; [exact Hu|].
    eapply settles_trans; [exact Hu|].
    split; [apply grows_committed|split; [cbn; lia|reflexivity]].
  - eapply settles_trans; [exact Hu|]. apply settles_on_write_error.
Qed.

Lemma settles_drain_or_process (e : Ingest.Env) (w : Ingest.PostgresWriter) :
  settles w (Ingest.drain_or_process grow fresh_size e w).
Proof.
  unfold Ingest.drain_or_process.
  destruct (negb (Ingest.is_empty (Ingest._disk_cache w)));
    [|apply settles_process_queue].
  cbn [Ingest.batch_size Ingest._disk_cache Ingest.with_draining].
  destruct (Ingest.read_batch (Ingest.batch_size w) (Ingest._disk_cache w))
    as [ids b].
  set (u := Ingest.with_batch (Ingest.with_draining w true) b).
  assert (Hu : settles w u).
  { split; [|split; [cbn; lia|reflexivity]].
    apply grows_same; cbn; try reflexivity; lia. }
  destruct b as [|r b].
  - eapply settles_trans; [|apply settles_process_queue].
    split; [|split; [cbn; lia|reflexivity]].
    apply grows_same; cbn; try reflexivity; lia.
  - destruct (Ingest.execute_ok e).
    + eapply settles_trans; [exact Hu|].
      split; [|split; [cbn; lia|reflexivity]].
      eapply grows_trans; [apply (grows_committed u (r :: b) true)|].
      apply grows_same; cbn; try reflexivity; lia.
    + eapply settles_trans; [exact Hu|]. apply settles_on_write_error.
Qed.

Lemma settles_worker (e : Ingest.Env) (w : Ingest.PostgresWriter) :
  settles w (Ingest._worker grow fresh_size e w).
Proof.
  unfold Ingest._worker. destruct (Ingest._alive w); [|apply settles_refl].
  unfold Ingest.worker_turn.
  eapply settles_trans; [apply (settles_flush e w)|].
  set (w1 := Ingest._maybe_flush_queue_overflow grow e w).
  destruct (negb (Ingest._conn w1) && negb (Ingest.connect_ok e));
    [apply settles_on_write_error|].
  eapply settles_trans; [|apply settles_drain_or_process].
  destruct (Ingest._conn w1); [apply settles_refl|].
  split; [|split; [cbn; lia|reflexivity]].
  apply grows_same; cbn; try reflexivity; lia.
Qed.

Lemma settles_shutdown_flush (e : Ingest.Env) (w : Ingest.PostgresWriter) :
  settles w (Ingest._shutdown_flush grow e w) /\
  Ingest.q (Ingest._shutdown_flush grow e w) = [].
Proof.
  unfold Ingest._shutdown_flush.
  assert (Hu : forall up un, settles w (Ingest.with_conn (Ingest.with_q w []) up un)).
  { intros up un. split; [|split; [cbn; lia|reflexivity]].
    apply grows_same; cbn; try reflexivity; lia. }
  destruct (Ingest.rows_of (Ingest.q w)) as [|r rs].
  - split; [apply Hu|reflexivity].
  - destruct (_ && _).
    + split; [|reflexivity].
      split; [|split; [cbn; lia|reflexivity]].
      eapply grows_trans; [apply (grows_committed w (r :: rs) false)|].
      apply grows_same; cbn; try reflexivity; lia.
    + set (u := Ingest.with_conn (Ingest.with_q w []) false
                  (Ingest._db_unavailable (Ingest.with_q w []))).
      destruct (write_to_cache_spilled grow e u (r :: rs)) as [k [s [Hk ->]]].
      apply subseq_length in Hk.
      assert (Hd : 0 <= Z.of_nat (length (r :: rs)) - Z.of_nat (length k))
        by (apply Zle_minus_le_0, Nat2Z.inj_le, Hk).
      split; [|reflexivity].
      split; [|split; [cbn; lia|reflexivity]].
      eapply grows_trans; [apply (Hu false (Ingest._db_unavailable (Ingest.with_q w [])))|].
      fold u. eapply grows_trans; [apply (grows_spilled u k s _ Hd)|].
      apply grows_same; cbn; try reflexivity; lia.
Qed.

(** What [close] leaves: nothing in the queue, the worker stopped, the
    cache closed. *)
Lemma close_leaves (e : Ingest.Env) (w : Ingest.PostgresWriter) :
  Ingest.q (Ingest.close grow e w) = [] /\
  Ingest._alive (Ingest.close grow e w) = false /\
  Ingest.closed (Ingest._disk_cache (Ingest.close grow e w)) = true.
Proof.
  split; [|split; [apply close_not_alive|]].
  - unfold Ingest.close.
    set (w1 := match Ingest.put_nowait (Ingest.with_alive w false) Ingest.Wake with
               | Some w' => w'
               | None => Ingest.with_alive w false
               end).
    set (w2 := if Ingest._alive w then Ingest._shutdown_flush grow e w1 else w1).
    set (w3 := match Ingest.q w2 with
               | [] => w2
               | _ :: _ => Ingest._emergency_flush_to_disk grow e w2
               end).
    assert (H3 : Ingest.q w3 = []).
    { subst w3. destruct (Ingest.q w2) eqn:Hq; [exact Hq|].
      unfold Ingest._emergency_flush_to_disk. apply settles_drain. }
    destruct (Ingest.closed (Ingest._disk_cache w3)); exact H3.
  - unfold Ingest.close.
    match goal with
    | |- context [if Ingest.closed (Ingest._disk_cache ?w3) then _ else _] =>
        destruct (Ingest.closed (Ingest._disk_cache w3)) eqn:Hc;
          [exact Hc|reflexivity]
    end.
Qed.

Lemma settles_close (e : Ingest.Env) (w : Ingest.PostgresWriter) :
  grows w (Ingest.close grow e w) /\
  Ingest.queue_max (Ingest.close grow e w) = Ingest.queue_max w.
Proof.
  unfold Ingest.close.
  set (w1 := match Ingest.put_nowait (Ingest.with_alive w false) Ingest.Wake with
             | Some w' => w'
             | None => Ingest.with_alive w false
             end).
  assert (H1 : grows w w1 /\ Ingest.queue_max w1 = Ingest.queue_max w).
  { subst w1. unfold Ingest.put_nowait. destruct (_ && _);
      (split; [apply grows_same; cbn; try reflexivity; lia|reflexivity]). }
  set (w2 := if Ingest._alive w then Ingest._shutdown_flush grow e w1 else w1).
  assert (H2 : grows w w2 /\ Ingest.queue_max w2 = Ingest.queue_max w).
  { subst w2. destruct (Ingest._alive w); [|exact H1].
    destruct (settles_shutdown_flush e w1) as [[Hg [_ Hm]] _].
    destruct H1 as [Hg1 Hm1].
    split; [eapply grows_trans; eassumption|congruence]. }
  set (w3 := match Ingest.q w2 with
             | [] => w2
             | _ :: _ => Ingest._emergency_flush_to_disk grow e w2
             end).
  assert (H3 : grows w w3 /\ Ingest.queue_max w3 = Ingest.queue_max w).
  { subst w3. destruct (Ingest.q w2); [exact H2|].
    unfold Ingest._emergency_flush_to_disk.
    destruct (settles_drain e w2) as [[Hg [_ Hm]] _]. destruct H2 as [Hg2 Hm2].
    split; [eapply grows_trans; eassumption|congruence]. }
  clearbody w3. destruct H3 as [Hg3 Hm3].
  destruct (Ingest.closed (Ingest._disk_cache w3)); [split; assumption|].
  split; [|exact Hm3].
  eapply grows_trans; [exact Hg3|]. apply grows_same; cbn; try reflexivity; lia.
Qed.




Lemma step_queue_bound (w : Ingest.PostgresWriter) (ev : Ingest.event) :
  0 < Ingest.queue_max w -> Ingest.qsize w <= Ingest.queue_max w ->
  Ingest.qsize (Ingest.step grow fresh_size w ev) <= Ingest.queue_max w /\
  Ingest.queue_max (Ingest.step grow fresh_size w ev) = Ingest.queue_max w.
Proof.
  intros Hmax Hq. unfold Ingest.qsize in *. destruct ev; cbn [Ingest.step].
  - unfold Ingest.enqueue, Ingest.put_nowait, Ingest.qsize.
    destruct ((0 <? Ingest.queue_max w)
              && (Ingest.queue_max w <=? Z.of_nat (length (Ingest.q w)))) eqn:E.
    + cbn. split; [lia|reflexivity].
    + cbn. rewrite length_app. cbn [length]. split; [|reflexivity].
      apply andb_false_iff in E. destruct E as [E|E].
      * apply Z.ltb_ge in E. lia.
      * apply Z.leb_gt in E. lia.
  - destruct (settles_worker e w) as [_ [Hlen Hm]]. split; [lia|exact Hm].
  - destruct (close_leaves e w) as [Hq0 _]. rewrite Hq0.
    destruct (settles_close e w) as [_ Hm]. cbn [length]. split; [lia|exact Hm].
Qed.

(** X11. A queue with a bound never holds more than its bound: from a
    writer whose queue is within [queue_max], no sequence of enqueues,
    worker turns and closes leaves more than [queue_max] items in the
    queue (rows and the wake-up marker of [close] together). *)
Theorem queue_stays_within_bound (trace : list Ingest.event) :
  forall w : Ingest.PostgresWriter,
    0 < Ingest.queue_max w -> Ingest.qsize w <= Ingest.queue_max w ->
    Ingest.qsize (Ingest.run grow fresh_size w trace) <= Ingest.queue_max w.
Proof.
  induction trace as [|ev trace IH]; intros w Hmax Hq; [exact Hq|].
  change (Ingest.run grow fresh_size w (ev :: trace))
    with (Ingest.run grow fresh_size (Ingest.step grow fresh_size w ev) trace).
  destruct (step_queue_bound w ev Hmax Hq) as [Hq1 Hm1].
  rewrite <- Hm1. apply IH; rewrite Hm1; assumption.
Qed.

Lemma close_fixed (e : Ingest.Env) (w : Ingest.PostgresWriter) :
  Ingest._alive w = false -> Ingest.q w = [] ->
  Ingest.closed (Ingest._disk_cache w) = true ->
  Ingest.close grow e w = w.
Proof.
  intros Ha Hq Hc. unfold Ingest.close, Ingest.put_nowait, Ingest.qsize.
  cbn [Ingest.queue_max Ingest.q Ingest.with_alive]. rewrite Ha, Hq.
  cbn [length Z.of_nat app].
  assert (Hfull : (0 <? Ingest.queue_max w) && (Ingest.queue_max w <=? 0) = false).
  { destruct (0 <? Ingest.queue_max w) eqn:E; [|reflexivity].
    apply Z.ltb_lt in E. apply Z.leb_gt. lia. }
  rewrite Hfull. cbn [Ingest.q Ingest.with_q].
  unfold Ingest._emergency_flush_to_disk, Ingest._drain_queue_to_cache.
  cbn [Ingest.q Ingest.with_q Ingest.drain_items Ingest._disk_cache
       Ingest.with_alive].
  rewrite Hc. destruct w. cbn in *. subst. reflexivity.
Qed.

(** X12. [close] leaves nothing in the queue, whatever state the writer
    is in and whether the database and the cache work or not; the worker
    is stopped and the cache is closed.  A second [close] changes
    nothing. *)
Theorem close_empties_the_queue (e e' : Ingest.Env) (w : Ingest.PostgresWriter) :
  Ingest.q (Ingest.close grow e w) = [] /\
  Ingest._alive (Ingest.close grow e w) = false /\
  Ingest.closed (Ingest._disk_cache (Ingest.close grow e w)) = true /\
  Ingest.close grow e' (Ingest.close grow e w) = Ingest.close grow e w.
Proof.
  destruct (close_leaves e w) as [Hq [Ha Hc]].
  repeat split; try assumption. apply close_fixed; assumption.
Qed.

End PipelineEvents.

Lemma queue_stays_within_bound_witness :
  Ingest.qsize
    (Ingest.run page_grow 4096 (Ingest.new_writer 1 2 90 "rx" empty_cache)
       [enqueue_a; enqueue_b; enqueue_c; Ingest.Turn db_down; enqueue_a;
        Ingest.Close db_up; enqueue_b])
  <= 2.
Proof.
  apply (queue_stays_within_bound page_grow 4096
           [enqueue_a; enqueue_b; enqueue_c; Ingest.Turn db_down; enqueue_a;
            Ingest.Close db_up; enqueue_b]
           (Ingest.new_writer 1 2 90 "rx" empty_cache)).
  - reflexivity.
  - discriminate.
Defined.

(** ** The ingest pipeline during an outage *)

Lemma autoincrement_converted (rows : list Ingest.row) :
  forall last, map snd (Ingest.autoincrement last rows)
               = map Ingest.converted rows.
Proof.
  induction rows as [|r rows IH]; intros last; [reflexivity|].
  cbn [Ingest.autoincrement map snd]. rewrite IH. reflexivity.
Qed.

Lemma subseq_nil_inv {A : Type} (l : list A) : subseq l [] -> l = [].
Proof. intros H. inversion H. reflexivity. Qed.

Section Outage.

Variable grow : Z -> list Ingest.row -> Z.
Variable fresh_size : Z.

(** What is left of a writer without a connection after its queue went
    to the cache, [kept] of it stored. *)
Lemma outage_result (w : Ingest.PostgresWriter) (kept : list Ingest.row) (s : Z) :
  subseq kept (queue_rows w) ->
  let w' := spilled (Ingest.with_batch
                       (Ingest.with_conn (Ingest.with_q w []) false true) [])
              kept s (Z.of_nat (length (queue_rows w)) - Z.of_nat (length kept)) in
  Ingest.q w' = [] /\
  Ingest.pg_rows w' = Ingest.pg_rows w /\
  Ingest._conn w' = false /\
  Ingest._db_unavailable w' = true /\
  (Ingest.count_dropped w' - Ingest.count_dropped w)
  + (Ingest.count_cached w' - Ingest.count_cached w)
  = Z.of_nat (length (queue_rows w)) /\
  (Ingest.count_dropped w' = Ingest.count_dropped w ->
   cache_rows w' = cache_rows w ++ map Ingest.converted (queue_rows w)).
Proof.
  intros Hk w'. subst w'. unfold cache_rows. cbn.
  repeat split; try lia.
  intros Hd. rewrite map_app, autoincrement_converted.
  assert (Heq : kept = queue_rows w).
  { apply subseq_length_eq; [exact Hk|]. apply subseq_length in Hk. lia. }
  rewrite Heq. reflexivity.
Qed.

(** X13. A turn of a running worker that has no connection, holds no
    batch from an earlier turn and cannot connect commits nothing and
    leaves nothing in the queue: every queued row is stored in the disk
    cache or counted as dropped, and when none is dropped the cache
    holds, after what it held, the queued rows in queue order (without
    their [id_hex]). *)
Theorem outage_turn_spills_queue (e : Ingest.Env) (w : Ingest.PostgresWriter) :
  Ingest._alive w = true -> Ingest._conn w = false -> Ingest.batch w = [] ->
  Ingest.connect_ok e = false ->
  let w' := Ingest._worker grow fresh_size e w in
  Ingest.q w' = [] /\
  Ingest.pg_rows w' = Ingest.pg_rows w /\
  Ingest._conn w' = false /\
  Ingest._db_unavailable w' = true /\
  (Ingest.count_dropped w' - Ingest.count_dropped w)
  + (Ingest.count_cached w' - Ingest.count_cached w)
  = Z.of_nat (length (queue_rows w)) /\
  (Ingest.count_dropped w' = Ingest.count_dropped w ->
   cache_rows w' = cache_rows w ++ map Ingest.converted (queue_rows w)).
Proof.
  intros Halive Hconn Hbatch Hce w'. subst w'.
  unfold Ingest._worker. rewrite Halive. unfold Ingest.worker_turn.
  destruct (flush_spilled grow e w) as [Hf|[k1 [s1 [Hk1 Hf]]]]; rewrite Hf.
  - rewrite Hconn, Hce. cbn [negb andb].
    destruct (on_write_error_spilled grow e w) as [k [s [Hk ->]]].
    rewrite Hbatch in *. cbn [app] in *.
    apply (outage_result w k s Hk).
  - set (w1 := spilled (Ingest.with_q w []) k1 s1
                 (Z.of_nat (length (queue_rows w)) - Z.of_nat (length k1))).
    assert (Hc1 : Ingest._conn w1 = false) by exact Hconn.
    rewrite Hc1, Hce. cbn [negb andb].
    destruct (on_write_error_spilled grow e w1) as [k [s [Hk ->]]].
    assert (Hnil : k = []).
    { apply subseq_nil_inv. subst w1. unfold queue_rows in Hk.
      cbn [Ingest.batch Ingest.q Ingest.rows_of spilled Ingest.with_q] in Hk.
      rewrite Hbatch in Hk. exact Hk. }
    subst k. pose proof (outage_result w k1 s1 Hk1) as H. cbv zeta in H.
    destruct H as [_ [_ [_ [_ [Hsum Hrows]]]]].
    apply subseq_length in Hk1.
    subst w1. unfold queue_rows, cache_rows in *. cbn in Hsum, Hrows |- *.
    rewrite Hbatch. cbn [app length Z.of_nat]. rewrite app_nil_r.
    repeat split; try lia.
    intros Hd. apply Hrows. lia.
Qed.

End Outage.

Lemma outage_turn_spills_queue_witness :
  let w := Ingest.run page_grow 4096 (Ingest.new_writer 500 50000 50 "rx" empty_cache)
             [enqueue_a; enqueue_b; enqueue_c] in
  cache_rows (Ingest._worker page_grow 4096 db_down w) = [row_a; row_b; row_c].
Proof.
  intros w.
  destruct (outage_turn_spills_queue page_grow 4096 db_down w
              eq_refl eq_refl eq_refl eq_refl)
    as [_ [_ [_ [_ [_ H]]]]].
  exact (H eq_refl).
Defined.

(** ** The disk cache as a queue *)

Section CacheQueue.

Variable grow : Z -> list Ingest.row -> Z.


End CacheQueue.


(** ** The row of a frame *)

Lemma dlc_to_len_fd_bound (dlc : Z) : dlc_to_len dlc true <= 64.
Proof.
  unfold dlc_to_len. destruct (dlc <=? 8) eqn:E8; [apply Z.leb_le in E8; lia|].
  destruct (dlc <=? 15) eqn:E15; cbn [andb]; [|lia].
  apply Z.leb_gt in E8. apply Z.leb_le in E15. apply Z.leb_le.
  apply (zrange_forallb 9 7 (fun d => nth (Z.to_nat d) CAN_FD_DLC_LEN 0 <=? 64));
    [vm_compute; reflexivity|lia].
Qed.

(** X15. The row [enqueue] builds for a frame with a DLC that is not
    negative: the arbitration identifier is within the mask of its kind
    (29 bits for an extended frame, 11 bits otherwise), the frame is
    extended exactly when the EFF flag of the identifier word is set, the
    payload is the first bytes of the data, eight at most for a classic
    frame and 64 for an FD frame, and the direction is the one given, or
    the default when none or an empty one is given. *)
Theorem enqueue_row_is_bounded (w : Ingest.PostgresWriter) (ts can_id dlc : Z)
    (data : list Z) (bus : Z) (dir_ : option string) (is_fd : bool) :
  0 <= dlc ->
  let r := Ingest.enqueue_row w ts can_id dlc data bus dir_ is_fd in
  0 <= Ingest.arb_id r <= (if Ingest.extended r then CAN_EFF_MASK else CAN_SFF_MASK) /\
  Ingest.extended r = has_flag can_id CAN_EFF_FLAG /\
  (exists n, Ingest.data r = firstn n data) /\
  (length (Ingest.data r) <= if is_fd then 64 else 8)%nat /\
  Ingest.id_hex r = None /\
  Ingest.dir r = match dir_ with
                 | Some d => if String.eqb d EmptyString
                             then Ingest.default_dir w else d
                 | None => Ingest.default_dir w
                 end.
Proof.
  intros Hdlc r. subst r. unfold Ingest.enqueue_row.
  cbn [Ingest.arb_id Ingest.extended Ingest.data Ingest.id_hex Ingest.dir].
  split; [|split; [reflexivity|split; [eexists; reflexivity|split; [|split; reflexivity]]]].
  - destruct (has_flag can_id CAN_EFF_FLAG).
    + change CAN_EFF_MASK with (Z.ones 29). rewrite land_ones_mod by lia.
      pose proof (Z.mod_pos_bound can_id (2 ^ 29) ltac:(lia)).
      change (Z.ones 29) with (2 ^ 29 - 1). lia.
    + change CAN_SFF_MASK with (Z.ones 11). rewrite land_ones_mod by lia.
      pose proof (Z.mod_pos_bound can_id (2 ^ 11) ltac:(lia)).
      change (Z.ones 11) with (2 ^ 11 - 1). lia.
  - rewrite length_firstn. destruct is_fd.
    + pose proof (dlc_to_len_fd_bound dlc). lia.
    + lia.
Qed.

Lemma enqueue_row_is_bounded_witness :
  let r := Ingest.enqueue_row (Ingest.new_writer 500 50000 50 "rx" empty_cache)
             1 0x80000123 200 [1; 2; 3; 4; 5; 6; 7; 8; 9; 10] 0
             (Some EmptyString) false in
  (length (Ingest.data r) <= 8)%nat.
Proof.
  intros r.
  destruct (enqueue_row_is_bounded (Ingest.new_writer 500 50000 50 "rx" empty_cache)
              1 0x80000123 200 [1; 2; 3; 4; 5; 6; 7; 8; 9; 10] 0 (Some EmptyString)
              false ltac:(lia))
    as [_ [_ [_ [H _]]]].
  exact H.
Defined.

(** ** Netlink attributes and bit rates *)

Lemma align4_pad (x : Z) : align4 x = x + (- x) mod 4.
Proof.
  unfold align4. change 3 with (Z.ones 2) at 2.
  rewrite <- Z.ldiff_land, Z.ldiff_ones_r by lia.
  rewrite Z.shiftr_div_pow2, Z.shiftl_mul_pow2 by lia.
  change (2 ^ 2) with 4.
  pose proof (Z.div_mod (x + 3) 4 ltac:(lia)).
  pose proof (Z.mod_pos_bound (x + 3) 4 ltac:(lia)).
  symmetry. assert (H1 : (- x) mod 4 = 3 - (x + 3) mod 4).
  { symmetry. apply (Z.mod_unique (- x) 4 (- ((x + 3) / 4))); lia. }
  lia.
Qed.

Lemma nlattr_length (t : Z) (v : list Z) :
  Z.of_nat (length (nlattr (t, v))) = align4 (4 + Z.of_nat (length v)).
Proof.
  unfold nlattr. rewrite !length_app, !le_digits_length, repeat_length, align4_pad.
  pose proof (Z.mod_pos_bound (- (4 + Z.of_nat (length v))) 4 ltac:(lia)). lia.
Qed.

Lemma slice_middle (pre x post : list Z) :
  slice (length pre) (length pre + length x) (pre ++ x ++ post) = x.
Proof.
  unfold slice. rewrite skipn_app, skipn_all, Nat.sub_diag. cbn [skipn app].
  replace (length pre + length x - length pre)%nat with (length x) by lia.
  rewrite firstn_app, firstn_all, Nat.sub_diag. cbn [firstn]. apply app_nil_r.
Qed.

(** One turn of the loop on a well-formed attribute. *)
Lemma parse_tlvs_step (fuel : nat) (pre post : list Z) (t : Z) (v : list Z)
    (out : list (Z * list Z)) :
  nlattr_fits (t, v) ->
  parse_tlvs_loop (S fuel) (pre ++ nlattr (t, v) ++ post) (length pre) out =
  parse_tlvs_loop fuel (pre ++ nlattr (t, v) ++ post)
    (length (pre ++ nlattr (t, v))) (out ++ [(t, v)]).
Proof.
  intros [Ht Hv]. cbn [fst snd] in Ht, Hv.
  pose proof (nlattr_length t v) as Hlen.
  pose proof (align4_pad (4 + Z.of_nat (length v))) as Hpad.
  pose proof (Z.mod_pos_bound (- (4 + Z.of_nat (length v))) 4 ltac:(lia)) as Hm.
  set (alen := 4 + Z.of_nat (length v)) in *.
  set (pad := repeat 0 (Z.to_nat ((- alen) mod 4))).
  assert (Hraw : pre ++ nlattr (t, v) ++ post
                 = pre ++ le_digits 2 alen ++ le_digits 2 t ++ v ++ pad ++ post).
  { unfold nlattr. fold alen. fold pad. rewrite <- !app_assoc. reflexivity. }
  assert (Hlraw : (length pre + 4 + length v
                   <= length (pre ++ nlattr (t, v) ++ post))%nat).
  { rewrite Hraw, !length_app, !le_digits_length. lia. }
  cbn [parse_tlvs_loop].
  assert (H4 : (length pre + 4 <=? length (pre ++ nlattr (t, v) ++ post))%nat = true)
    by (apply Nat.leb_le; lia).
  rewrite H4.
  assert (Halen : from_bytes (slice (length pre) (length pre + 2)
                                (pre ++ nlattr (t, v) ++ post)) = alen).
  { rewrite Hraw.
    rewrite (slice_middle pre (le_digits 2 alen)
               (le_digits 2 t ++ v ++ pad ++ post)
             : slice (length pre) (length pre + 2) _ = _)
      by (rewrite le_digits_length; reflexivity).
    apply from_bytes_le_digits. change (256 ^ Z.of_nat 2) with 65536.
    subst alen. lia. }
  assert (Htype : from_bytes (slice (length pre + 2) (length pre + 4)
                                (pre ++ nlattr (t, v) ++ post)) = t).
  { rewrite Hraw.
    replace (pre ++ le_digits 2 alen ++ le_digits 2 t ++ v ++ pad ++ post)
      with ((pre ++ le_digits 2 alen) ++ le_digits 2 t ++ (v ++ pad ++ post))
      by (rewrite <- !app_assoc; reflexivity).
    replace (length pre + 2)%nat with (length (pre ++ le_digits 2 alen))
      by (rewrite length_app, le_digits_length; reflexivity).
    replace (length pre + 4)%nat
      with (length (pre ++ le_digits 2 alen) + length (le_digits 2 t))%nat
      by (rewrite length_app, !le_digits_length; lia).
    rewrite slice_middle. apply from_bytes_le_digits.
    change (256 ^ Z.of_nat 2) with 65536. lia. }
  assert (Hval : slice (length pre + 4) (Z.to_nat (Z.of_nat (length pre) + alen))
                   (pre ++ nlattr (t, v) ++ post) = v).
  { rewrite Hraw.
    replace (pre ++ le_digits 2 alen ++ le_digits 2 t ++ v ++ pad ++ post)
      with ((pre ++ le_digits 2 alen ++ le_digits 2 t) ++ v ++ (pad ++ post))
      by (rewrite <- !app_assoc; reflexivity).
    replace (length pre + 4)%nat
      with (length (pre ++ le_digits 2 alen ++ le_digits 2 t))
      by (rewrite !length_app, !le_digits_length; lia).
    replace (Z.to_nat (Z.of_nat (length pre) + alen))
      with (length (pre ++ le_digits 2 alen ++ le_digits 2 t) + length v)%nat
      by (rewrite !length_app, !le_digits_length; subst alen; lia).
    apply slice_middle. }
  rewrite Halen, Htype, Hval.
  assert (Hc : (alen <? 4)
               || (Z.of_nat (length (pre ++ nlattr (t, v) ++ post))
                   <? Z.of_nat (length pre) + alen) = false).
  { apply orb_false_iff. split; [apply Z.ltb_ge; subst alen; lia|].
    apply Z.ltb_ge. subst alen. lia. }
  rewrite Hc. f_equal.
  rewrite length_app. subst alen. lia.
Qed.

Lemma parse_tlvs_all (attrs : list (Z * list Z)) :
  forall (fuel : nat) (pre : list Z) (out : list (Z * list Z)),
    Forall nlattr_fits attrs -> (length attrs < fuel)%nat ->
    parse_tlvs_loop fuel (pre ++ flat_map nlattr attrs) (length pre) out
    = out ++ attrs.
Proof.
  induction attrs as [|[t v] attrs IH]; intros fuel pre out Hok Hfuel.
  - destruct fuel as [|fuel]; [lia|]. cbn [flat_map parse_tlvs_loop].
    rewrite !app_nil_r.
    replace (length pre + 4 <=? length pre)%nat with false
      by (symmetry; apply Nat.leb_gt; lia).
    reflexivity.
  - destruct fuel as [|fuel]; [cbn in Hfuel; lia|].
    inversion Hok as [|? ? Ha Hrest]. subst.
    cbn [flat_map]. rewrite parse_tlvs_step by exact Ha.
    rewrite (app_assoc pre). rewrite IH; [|exact Hrest|cbn in Hfuel; lia].
    rewrite <- app_assoc. reflexivity.
Qed.

Lemma flat_map_nlattr_length (attrs : list (Z * list Z)) :
  (length attrs <= length (flat_map nlattr attrs))%nat.
Proof.
  induction attrs as [|[t v] attrs IH]; [cbn; lia|].
  cbn [flat_map length]. rewrite length_app. unfold nlattr at 1.
  rewrite !length_app, !le_digits_length. lia.
Qed.

(** X16. [_parse_tlvs] reads a stream of netlink attributes back: for
    attributes whose type and length fit their two-byte fields, laid out
    one after the other (length, type, value, padding to four bytes), it
    returns exactly the attributes, types and values, in order. *)
Theorem parse_tlvs_reads_attributes (attrs : list (Z * list Z)) :
  Forall nlattr_fits attrs ->
  _parse_tlvs (flat_map nlattr attrs) = attrs.
Proof.
  intros Hok. unfold _parse_tlvs.
  apply (parse_tlvs_all attrs _ [] [] Hok).
  pose proof (flat_map_nlattr_length attrs). lia.
Qed.

Lemma parse_tlvs_reads_attributes_witness :
  _parse_tlvs (flat_map nlattr [(1, [0x20; 0xA1; 0x07; 0x00; 0x05]); (9, [])])
  = [(1, [0x20; 0xA1; 0x07; 0x00; 0x05]); (9, [])].
Proof.
  apply parse_tlvs_reads_attributes.
  repeat constructor; cbn; lia.
Defined.

Lemma from_bytes_range (b : list Z) :
  Forall is_byte b -> 0 <= from_bytes b < 256 ^ Z.of_nat (length b).
Proof.
  induction 1 as [|x b Hx Hb IH]; [cbn; lia|].
  cbn [from_bytes length]. rewrite Nat2Z.inj_succ, Z.pow_succ_r by lia.
  unfold is_byte in Hx. lia.
Qed.

Lemma firstn_is_byte (n : nat) (b : list Z) :
  Forall is_byte b -> Forall is_byte (firstn n b).
Proof.
  revert b. induction n as [|n IH]; intros b Hb; [constructor|].
  destruct b as [|x b]; [constructor|]. inversion Hb. subst.
  cbn [firstn]. constructor; [assumption|apply IH; assumption].
Qed.

Lemma slice_is_byte (lo hi : nat) (b : list Z) :
  Forall is_byte b -> Forall is_byte (slice lo hi b).
Proof. intros Hb. apply firstn_is_byte, skipn_is_byte, Hb. Qed.

(** The values [_parse_tlvs] returns are cut out of its input. *)
Lemma parse_tlvs_values (raw : list Z) (fuel : nat) :
  Forall is_byte raw ->
  forall i out,
    Forall (fun a => Forall is_byte (snd a)) out ->
    Forall (fun a => Forall is_byte (snd a)) (parse_tlvs_loop fuel raw i out).
Proof.
  intros Hraw. induction fuel as [|fuel IH]; intros i out Hout; [exact Hout|].
  cbn [parse_tlvs_loop].
  destruct (i + 4 <=? length raw)%nat; [|exact Hout].
  destruct (_ || _); [exact Hout|].
  apply IH. apply Forall_app. split; [exact Hout|].
  constructor; [|constructor]. apply slice_is_byte. exact Hraw.
Qed.

Lemma rates_of_tlvs_fit (tlvs : list (Z * list Z)) :
  Forall (fun a => Forall is_byte (snd a)) tlvs ->
  forall nominal data,
    0 <= nominal < 2 ^ 32 -> 0 <= data < 2 ^ 32 ->
    0 <= fst (rates_of_tlvs tlvs nominal data) < 2 ^ 32 /\
    0 <= snd (rates_of_tlvs tlvs nominal data) < 2 ^ 32.
Proof.
  induction 1 as [|[t v] tlvs Hv Htl IH]; intros nominal data Hn Hd;
    [cbn; auto|].
  cbn [rates_of_tlvs]. cbn [snd] in Hv.
  destruct (((t =? IFLA_CAN_BITTIMING) || (t =? IFLA_CAN_DATA_BITTIMING))
            && (4 <=? length v)%nat) eqn:E; [|apply IH; assumption].
  apply andb_prop in E. destruct E as [_ E]. apply Nat.leb_le in E.
  assert (Hbr : 0 <= from_bytes (slice 0 4 v) < 2 ^ 32).
  { pose proof (from_bytes_range (slice 0 4 v) (slice_is_byte 0 4 v Hv)) as H.
    assert (Hl : length (slice 0 4 v) = 4%nat)
      by (unfold slice; rewrite length_firstn; cbn [skipn]; lia).
    rewrite Hl in H. exact H. }
  destruct (t =? IFLA_CAN_BITTIMING); apply IH; assumption.
Qed.

Lemma detect_bitrates_fit (info : option (list Z)) (default : Z) :
  (forall raw, info = Some raw -> Forall is_byte raw) ->
  0 <= default < 2 ^ 32 ->
  0 <= fst (detect_bitrates info default) < 2 ^ 32 /\
  0 <= snd (detect_bitrates info default) < 2 ^ 32.
Proof.
  intros Hraw Hd. unfold detect_bitrates.
  destruct info as [[|x raw]|]; cbn [fst snd]; try lia.
  apply rates_of_tlvs_fit; [|exact Hd|lia].
  apply parse_tlvs_values; [apply Hraw; reflexivity|constructor].
Qed.

(** X17. On a server without bus offset, the bit rates read from the
    interfaces are there for every bus a session advertises and fit the
    four bytes of the GET_CANBUS_PARAMS reply, whatever bytes the
    interfaces report: the rate is the default of 500000, or four bytes of
    a bit-timing attribute. *)
Theorem detected_rates_cover_the_buses (infos : list (option (list Z)))
    (fd : bool) (pg : option Ingest.PostgresWriter) (dir : string) :
  Forall (fun info => forall raw, info = Some raw -> Forall is_byte raw) infos ->
  rates_cover (Bridge._accept (Bridge.new_server_detecting infos 0 fd pg dir))
  = true.
Proof.
  intros Hinfos. unfold rates_cover, rate_fits, Gvret.speed_at.
  unfold Bridge._accept, Bridge.new_server_detecting, Bridge.new_server,
    Bridge.bus_count.
  cbn [Gvret.bus_count Gvret.bus_speeds Gvret.new_client Bridge.bus_offset
       Bridge.can_socks Bridge.bus_speeds].
  rewrite !length_map.
  assert (Hfit : forall info, In info infos ->
            (0 <=? fst (detect_bitrates info 500000))
            && (fst (detect_bitrates info 500000) <? 2 ^ 32) = true).
  { intros info Hin. rewrite Forall_forall in Hinfos.
    destruct (detect_bitrates_fit info 500000 (Hinfos info Hin) ltac:(lia))
      as [[H1 H2] _].
    apply andb_true_intro. split; [apply Z.leb_le|apply Z.ltb_lt]; assumption. }
  destruct infos as [|i0 [|i1 rest]].
  - reflexivity.
  - cbn [length map nth_error]. rewrite (Hfit i0) by (left; reflexivity).
    reflexivity.
  - cbn [map nth_error].
    rewrite (Hfit i0), (Hfit i1) by (cbn; auto).
    destruct (0 + Z.of_nat (length (i0 :: i1 :: rest)) >=? 1);
      destruct (0 + Z.of_nat (length (i0 :: i1 :: rest)) >=? 2); reflexivity.
Qed.

Lemma detected_rates_cover_the_buses_witness :
  rates_cover
    (Bridge._accept
       (Bridge.new_server_detecting
          [Some (nlattr (1, [0x20; 0xA1; 0x07; 0x00])); None] 0 false None "rx"))
  = true.
Proof.
  apply detected_rates_cover_the_buses.
  repeat constructor; intros raw [= <-]; repeat constructor; unfold is_byte;
    cbn; lia.
Defined.

(** ** The timebase reply *)

(** X18. The TIMEBASE reply never fails, whatever the clock reads: it is
    F1 01 and four bytes that hold, little-endian, the microseconds since
    the session began modulo 2^32. *)
Theorem timebase_wraps (clock : Z) (c : Gvret.GVRETClient) :
  exists us,
    Gvret.reply_timebase clock c = Some (Gvret._send c ([0xF1; 0x01] ++ us)) /\
    length us = 4%nat /\ Forall is_byte us /\
    from_bytes us = clock mod 2 ^ 32.
Proof.
  assert (Hr : 0 <= clock mod 2 ^ 32 < 256 ^ Z.of_nat 4)
    by (apply Z.mod_pos_bound; lia).
  exists (le_digits 4 (clock mod 2 ^ 32)). unfold Gvret.reply_timebase.
  change 0xFFFFFFFF with (Z.ones 32). rewrite land_ones_mod by lia.
  rewrite (to_bytes_in_range _ 4 Hr). cbn [bind].
  split; [reflexivity|]. split; [apply le_digits_length|].
  split; [|apply from_bytes_le_digits; exact Hr].
  generalize (clock mod 2 ^ 32). intros x. generalize 4%nat. intros n.
  revert x. induction n as [|n IH]; intros x; cbn [le_digits]; constructor.
  - unfold is_byte. apply Z.mod_pos_bound. lia.
  - apply IH.
Qed.

(** ** A send-frame request, decoded *)

Section Request.

Variable St : Type.
Variable f : Z -> Z -> list Z -> St -> option St.

(** X19. A complete send-frame request is decoded as its docstring lays
    it out: F1 00, four identifier bytes read little-endian, the bus
    byte, the length byte, then as many data bytes as the length byte
    says.  The whole request is taken off the buffer, and [tx_func] is
    called once with the bus, with the first eight data bytes at most,
    and with the identifier cut to 29 bits and flagged extended when its
    bit 31 is set, and cut to 11 bits otherwise. *)
Theorem send_frame_request_is_decoded (c : Gvret.GVRETClient) (st : St)
    (id data rest : list Z) (bus : Z) :
  length id = 4%nat -> Forall is_byte id -> is_byte bus ->
  (length data < 256)%nat ->
  let len := Z.of_nat (length data) in
  let x := from_bytes id in
  let can_id := if 2 ^ 31 <=? x then x mod 2 ^ 29 + CAN_EFF_FLAG
                else x mod 2 ^ 11 in
  Gvret._try_consume_send_frame St (Some f)
    (Gvret.with_buf c ([0xF1; 0x00] ++ id ++ [bus; len] ++ data ++ rest)) st
  = match f bus can_id (firstn 8 data) st with
    | Some st' => (Gvret.Consumed, Gvret.with_buf c rest, st')
    | None => (Gvret.Raised, Gvret.with_buf c rest, st)
    end.
Proof.
  intros Hid Hidb Hbus Hlen len x can_id.
  destruct id as [|i0 [|i1 [|i2 [|i3 [|? ?]]]]]; try discriminate. clear Hid.
  pose proof (from_bytes_range [i0; i1; i2; i3] Hidb) as Hx.
  change (256 ^ Z.of_nat (length [i0; i1; i2; i3])) with (2 ^ 32) in Hx.
  fold x in Hx. unfold is_byte in Hbus.
  unfold Gvret._try_consume_send_frame.
  cbn [app Gvret.buf Gvret.with_buf nth].
  set (b := 241 :: 0 :: i0 :: i1 :: i2 :: i3 :: bus :: len :: data ++ rest).
  assert (Hb : length b = (8 + length data + length rest)%nat)
    by (subst b; cbn [length]; rewrite length_app; lia).
  replace (length b <? 8)%nat with false by (symmetry; apply Nat.ltb_ge; lia).
  cbn [Z.eqb Pos.eqb andb negb].
  replace (Z.of_nat (length b) <? 8 + len) with false
    by (symmetry; apply Z.ltb_ge; subst len; lia).
  assert (Hslice : slice 2 6 b = [i0; i1; i2; i3]) by reflexivity.
  rewrite Hslice. fold x.
  assert (Hbus' : Z.land bus 255 = bus).
  { change 255 with (Z.ones 8). rewrite land_ones_mod by lia.
    apply Z.mod_small. exact Hbus. }
  rewrite Hbus'.
  assert (Hdata : slice 8 (8 + Z.to_nat (Z.min len 8)) b = firstn 8 data).
  { unfold slice. subst b. cbn [skipn].
    replace (8 + Z.to_nat (Z.min len 8) - 8)%nat with (Z.to_nat (Z.min len 8))
      by lia.
    rewrite firstn_app.
    replace (Z.to_nat (Z.min len 8) - length data)%nat with 0%nat
      by (subst len; lia).
    rewrite firstn_O, app_nil_r.
    destruct (Z.le_gt_cases len 8) as [H|H].
    - rewrite Z.min_l by lia. subst len. rewrite Nat2Z.id.
      rewrite !firstn_all2 by lia. reflexivity.
    - rewrite Z.min_r by lia. reflexivity. }
  rewrite Hdata.
  assert (Hrest : skipn (Z.to_nat (8 + len)) b = rest).
  { subst b len. replace (Z.to_nat (8 + Z.of_nat (length data)))
      with (8 + length data)%nat by lia.
    cbn [skipn Nat.add]. rewrite skipn_app, skipn_all, Nat.sub_diag.
    reflexivity. }
  rewrite Hrest.
  assert (Hcan : Z.lor (Z.land x (if has_flag x 2147483648
                                   then 536870911 else 2047))
                   (if has_flag x 2147483648 then CAN_EFF_FLAG else 0)
                 = can_id).
  { subst can_id. change 2147483648 with (2 ^ 31).
    rewrite has_flag_testbit by lia.
    assert (Hbit : Z.testbit x 31 = (2 ^ 31 <=? x)).
    { destruct (2 ^ 31 <=? x) eqn:E.
      - apply Z.leb_le in E.
        apply Z.testbit_true; [lia|].
        replace (x / 2 ^ 31) with 1
          by (apply (Z.div_unique x (2 ^ 31) 1 (x - 2 ^ 31)); lia).
        reflexivity.
      - apply Z.leb_gt in E. apply (testbit_above x 31 31); lia. }
    rewrite Hbit. destruct (2 ^ 31 <=? x).
    - change 536870911 with (Z.ones 29). rewrite land_ones_mod by lia.
      change CAN_EFF_FLAG with (2 ^ 31).
      apply (lor_high_bit _ 29 31); [lia|]. apply Z.mod_pos_bound. lia.
    - change 2047 with (Z.ones 11). rewrite land_ones_mod by lia.
      apply Z.lor_0_r. }
  rewrite Hcan.
  destruct (f bus can_id (firstn 8 data) st); reflexivity.
Qed.

End Request.

Lemma send_frame_request_is_decoded_witness :
  Gvret._try_consume_send_frame _ (Some tx_log)
    (Gvret.with_buf (Bridge._accept two_bus_server)
       ([0xF1; 0x00] ++ [0x23; 0x01; 0x00; 0x80] ++ [1; 2] ++ [0x41; 0x42]
        ++ [0xF1; 0x09]))
    []
  = (Gvret.Consumed,
     Gvret.with_buf (Bridge._accept two_bus_server) [0xF1; 0x09],
     [(1, 0x80000123, [0x41; 0x42])]).
Proof.
  exact (send_frame_request_is_decoded _ tx_log (Bridge._accept two_bus_server) []
           [0x23; 0x01; 0x00; 0x80] [0x41; 0x42] [0xF1; 0x09] 1
           eq_refl
           ltac:(repeat constructor; unfold is_byte; lia)
           ltac:(unfold is_byte; lia)
           ltac:(cbn; lia)).
Defined.

(** ** Batches *)

Lemma fill_batch_takes (limit : Z) (items : list Ingest.item) :
  forall b, (length b <= Z.to_nat limit)%nat ->
    fst (Ingest.fill_batch limit items b)
      = firstn (Z.to_nat limit) (b ++ Ingest.rows_of items) /\
    Ingest.rows_of (snd (Ingest.fill_batch limit items b))
      = skipn (Z.to_nat limit) (b ++ Ingest.rows_of items).
Proof.
  induction items as [|[r|] items IH]; intros b Hb; cbn [Ingest.fill_batch];
    destruct (Z.of_nat (length b) <? limit) eqn:E; cbn [fst snd Ingest.rows_of];
    try (apply Z.ltb_lt in E); try (apply Z.ltb_ge in E).
  - rewrite app_nil_r, firstn_all2, skipn_all2 by lia. auto.
  - rewrite app_nil_r, firstn_all2, skipn_all2 by lia. auto.
  - destruct (IH (b ++ [r])) as [H1 H2]; [rewrite length_app; cbn [length]; lia|].
    rewrite H1, H2, <- app_assoc. auto.
  - replace (Z.to_nat limit) with (length b) by lia.
    rewrite firstn_app, firstn_all, Nat.sub_diag, firstn_O, app_nil_r.
    rewrite skipn_app, skipn_all, Nat.sub_diag. auto.
  - apply IH. exact Hb.
  - replace (Z.to_nat limit) with (length b) by lia.
    rewrite firstn_app, firstn_all, Nat.sub_diag, firstn_O, app_nil_r.
    rewrite skipn_app, skipn_all, Nat.sub_diag. auto.
Qed.

Section Batches.

Variable grow : Z -> list Ingest.row -> Z.
Variable fresh_size : Z.

(** X20. A batch from the in-memory queue, for a batch size of at least
    1.  When the SQL write works, the oldest [batch_size] rows of the
    queue (all of them when there are fewer) are committed in queue
    order and the rest stay queued.  When it raises, nothing is committed
    and nothing stays queued: the batch and then the rest of the queue go
    to the disk cache, and if none is dropped the cache holds them after
    what it held, in queue order. *)
Theorem process_queue_takes_oldest (e : Ingest.Env) (w : Ingest.PostgresWriter) :
  1 <= Ingest.batch_size w ->
  let rows := queue_rows w in
  let n := Z.to_nat (Ingest.batch_size w) in
  let w' := Ingest.process_queue grow e w in
  if Ingest.execute_ok e
  then Ingest.pg_rows w' = Ingest.pg_rows w ++ firstn n rows /\
       queue_rows w' = skipn n rows /\
       cache_rows w' = cache_rows w
  else Ingest.pg_rows w' = Ingest.pg_rows w /\
       queue_rows w' = [] /\
       (Ingest.count_dropped w' = Ingest.count_dropped w ->
        cache_rows w' = cache_rows w ++ map Ingest.converted rows).
Proof.
  intros Hbs rows n w'. subst w'. unfold Ingest.process_queue.
  set (first := match Ingest.q w with
                | [] => ([], [])
                | Ingest.Wake :: rest => ([], rest)
                | Ingest.Row r :: rest => ([r], rest)
                end).
  assert (Hfirst : rows = fst first ++ Ingest.rows_of (snd first) /\
                   (length (fst first) <= n)%nat).
  { subst first rows n. unfold queue_rows.
    destruct (Ingest.q w) as [|[r|] rest]; cbn [fst snd length app Ingest.rows_of];
      split; try reflexivity; lia. }
  destruct Hfirst as [Hrows Hlen].
  destruct (fill_batch_takes (Ingest.batch_size w) (snd first) (fst first) Hlen)
    as [Hb Hrest].
  fold n in Hb, Hrest. rewrite <- Hrows in Hb, Hrest.
  destruct (Ingest.fill_batch (Ingest.batch_size w) (snd first) (fst first))
    as [b rest]. cbn [fst snd] in Hb, Hrest.
  destruct (Ingest.execute_ok e).
  - destruct b as [|r b].
    + unfold queue_rows, cache_rows. cbn. rewrite <- Hb, app_nil_r. auto.
    + unfold queue_rows, cache_rows. cbn. rewrite <- Hb. auto.
  - set (u := Ingest.with_batch (Ingest.with_q w rest) b).
    destruct (on_write_error_spilled grow e u) as [k [s [Hk ->]]].
    assert (Hsrc : Ingest.batch u ++ queue_rows u = rows).
    { subst u. unfold queue_rows. cbn. rewrite Hb, Hrest. apply firstn_skipn. }
    rewrite Hsrc in *. unfold queue_rows, cache_rows. cbn.
    split; [reflexivity|]. split; [reflexivity|].
    intros Hd. rewrite map_app, autoincrement_converted.
    assert (Heq : k = rows).
    { apply subseq_length_eq; [exact Hk|]. apply subseq_length in Hk. lia. }
    rewrite Heq. reflexivity.
Qed.

(** X21. [close] of a running writer loses no queued row unless the
    cache drops it.  With a connection and a working SQL write the rows
    left in the queue are committed, in queue order, and the cache is
    not touched; otherwise nothing is committed, and if none is dropped the cache
    holds them after what it held, in queue order. *)
Theorem close_flushes_the_queue (e : Ingest.Env) (w : Ingest.PostgresWriter) :
  Ingest._alive w = true ->
  let w' := Ingest.close grow e w in
  if Ingest._conn w && Ingest.execute_ok e
  then Ingest.pg_rows w' = Ingest.pg_rows w ++ queue_rows w /\
       cache_rows w' = cache_rows w
  else Ingest.pg_rows w' = Ingest.pg_rows w /\
       (Ingest.count_dropped w' = Ingest.count_dropped w ->
        cache_rows w' = cache_rows w ++ map Ingest.converted (queue_rows w)).
Proof.
  intros Halive w'. subst w'. unfold Ingest.close. rewrite Halive.
  set (w1 := match Ingest.put_nowait (Ingest.with_alive w false) Ingest.Wake with
             | Some w' => w'
             | None => Ingest.with_alive w false
             end).
  assert (H1 : queue_rows w1 = queue_rows w /\
               Ingest.pg_rows w1 = Ingest.pg_rows w /\
               cache_rows w1 = cache_rows w /\
               Ingest._conn w1 = Ingest._conn w /\
               Ingest.count_dropped w1 = Ingest.count_dropped w).
  { subst w1. unfold Ingest.put_nowait, queue_rows, cache_rows.
    destruct (_ && _); cbn; rewrite ?rows_of_app; cbn; rewrite ?app_nil_r; auto. }
  destruct H1 as [Hq1 [Hp1 [Hc1 [Hconn1 Hd1]]]].
  rewrite <- Hq1, <- Hp1, <- Hc1, <- Hconn1, <- Hd1. clearbody w1.
  destruct (settles_shutdown_flush grow e w1) as [_ Hq2].
  rewrite Hq2.
  assert (Hclose : forall v : Ingest.PostgresWriter,
            Ingest.pg_rows (if Ingest.closed (Ingest._disk_cache v) then v
                            else Ingest.with_cache v
                                   (Ingest.close_cache (Ingest._disk_cache v)))
              = Ingest.pg_rows v /\
            cache_rows (if Ingest.closed (Ingest._disk_cache v) then v
                        else Ingest.with_cache v
                               (Ingest.close_cache (Ingest._disk_cache v)))
              = cache_rows v /\
            Ingest.count_dropped
              (if Ingest.closed (Ingest._disk_cache v) then v
               else Ingest.with_cache v
                      (Ingest.close_cache (Ingest._disk_cache v)))
              = Ingest.count_dropped v).
  { intros v. destruct (Ingest.closed (Ingest._disk_cache v)); auto. }
  destruct (Hclose (Ingest._shutdown_flush grow e w1)) as [-> [-> ->]].
  clear Hclose Hq2. unfold Ingest._shutdown_flush. fold (queue_rows w1).
  destruct (queue_rows w1) as [|r rs] eqn:Hrows.
  - unfold cache_rows. cbn.
    destruct (Ingest._conn w1 && Ingest.execute_ok e).
    + rewrite app_nil_r. auto.
    + split; [reflexivity|]. intros _. rewrite app_nil_r. reflexivity.
  - cbn [Ingest._conn Ingest.with_q].
    destruct (Ingest._conn w1 && Ingest.execute_ok e).
    + unfold cache_rows. cbn. auto.
    + set (u := Ingest.with_conn (Ingest.with_q w1 []) false
                  (Ingest._db_unavailable (Ingest.with_q w1 []))).
      destruct (write_to_cache_spilled grow e u (r :: rs)) as [k [s [Hk ->]]].
      subst u. unfold cache_rows. wunfold. split; [reflexivity|].
      intros Hd. rewrite map_app, autoincrement_converted.
      assert (Heq : k = r :: rs).
      { apply subseq_length_eq; [exact Hk|]. apply subseq_length in Hk.
        cbn [length] in *. lia. }
      rewrite Heq. reflexivity.
Qed.

End Batches.

Lemma process_queue_takes_oldest_witness :
  let w := Ingest.run page_grow 4096 (Ingest.new_writer 2 50000 50 "rx" empty_cache)
             [enqueue_a; enqueue_b; enqueue_c] in
  Ingest.pg_rows (Ingest.process_queue page_grow db_up w) = [row_a; row_b] /\
  queue_rows (Ingest.process_queue page_grow db_up w) = [row_c] /\
  cache_rows (Ingest.process_queue page_grow db_up w) = [].
Proof.
  intros w.
  exact (process_queue_takes_oldest page_grow db_up w ltac:(cbn; lia)).
Defined.

Lemma close_flushes_the_queue_witness :
  let w := Ingest.run page_grow 4096 (Ingest.new_writer 2 50000 50 "rx" empty_cache)
             [enqueue_a; enqueue_b; enqueue_c] in
  Ingest.pg_rows (Ingest.close page_grow db_up w) = [] /\
  (Ingest.count_dropped (Ingest.close page_grow db_up w) = 0 ->
   cache_rows (Ingest.close page_grow db_up w) = [row_a; row_b; row_c]).
Proof.
  intros w.
  exact (close_flushes_the_queue page_grow db_up w eq_refl).
Defined.

(** ** Segmentation of the byte stream *)

Lemma resync_app_idem (u b : list Z) :
  Gvret.resync (Gvret.resync u ++ b) = Gvret.resync (u ++ b).
Proof.
  induction u as [|x u IH]; [reflexivity|].
  cbn [Gvret.resync app]. destruct (x =? 241) eqn:Hx.
  - cbn [Gvret.resync app]. rewrite Hx. reflexivity.
  - exact IH.
Qed.

Lemma resync_suffix (u : list Z) : exists pre, u = pre ++ Gvret.resync u.
Proof.
  induction u as [|x u [pre IH]]; [exists []; reflexivity|].
  cbn [Gvret.resync]. destruct (x =? 241).
  - exists []. reflexivity.
  - exists (x :: pre). cbn [app]. rewrite <- IH. reflexivity.
Qed.

Lemma find_E7E7_suffix (pre b : list Z) :
  Gvret.find_E7E7 (pre ++ b) = None -> Gvret.find_E7E7 b = None.
Proof.
  induction pre as [|x pre IH]; [auto|].
  intros H. apply IH. exact (find_E7E7_tail x _ H).
Qed.

Lemma slice_app_l (lo hi : nat) (u b : list Z) :
  (hi <= length u)%nat -> slice lo hi (u ++ b) = slice lo hi u.
Proof.
  intros H. unfold slice. rewrite skipn_app, firstn_app, length_skipn.
  replace (hi - lo - (length u - lo))%nat with O by lia.
  rewrite firstn_O, app_nil_r. reflexivity.
Qed.

Lemma skipn_app_l (n : nat) (u b : list Z) :
  (n <= length u)%nat -> skipn n (u ++ b) = skipn n u ++ b.
Proof.
  intros H. rewrite skipn_app.
  replace (n - length u)%nat with O by lia. reflexivity.
Qed.

Section Segments.

Variable St : Type.
Variable tx_func : option (Z -> Z -> list Z -> St -> option St).

(** The resync of the parse loop reads through what is already
    resynchronised. *)
Lemma parse_resync_app (clock : Z) (fuel : nat) (c : Gvret.GVRETClient)
    (st : St) (u b : list Z) :
  Gvret.binary c = true ->
  Gvret.parse_binary St tx_func (S fuel) clock
    (Gvret.with_buf c (Gvret.resync u ++ b)) st
  = Gvret.parse_binary St tx_func (S fuel) clock (Gvret.with_buf c (u ++ b)) st.
Proof.
  intros Hbin.
  cbn [Gvret.parse_binary Gvret.binary Gvret.with_buf Gvret.buf].
  rewrite Hbin, resync_app_idem. reflexivity.
Qed.

(** One turn of the parse loop on a buffer that begins with a request. *)
Lemma parse_step_head (clock : Z) (fuel : nat) (c : Gvret.GVRETClient)
    (st : St) (cmd : Z) (rest : list Z) :
  Gvret.binary c = true ->
  Gvret.parse_binary St tx_func (S fuel) clock
    (Gvret.with_buf c (241 :: cmd :: rest)) st
  = if cmd =? 0
    then match Gvret._try_consume_send_frame St tx_func
                 (Gvret.with_buf c (241 :: cmd :: rest)) st with
         | (Gvret.Consumed, c', st') =>
             Gvret.parse_binary St tx_func fuel clock c' st'
         | (Gvret.NeedMore, c', st') => (c', st')
         | (Gvret.Raised, c', st') => (Gvret.close c', st')
         end
    else match Gvret.dispatch clock cmd (Gvret.with_buf c rest) with
         | Some c' => Gvret.parse_binary St tx_func fuel clock c' st
         | None => (Gvret.close (Gvret.with_buf c rest), st)
         end.
Proof.
  intros Hbin.
  cbn [Gvret.parse_binary Gvret.binary Gvret.with_buf Gvret.buf].
  rewrite Hbin. cbn [negb Gvret.resync].
  change (241 =? 241) with true. cbn [negb]. reflexivity.
Qed.

(** What [_try_consume_send_frame] leaves of the session: the same
    session with a shorter buffer. *)
Lemma consumed_form (c c' : Gvret.GVRETClient) (st st' : St) (k : Gvret.consumed) :
  Gvret._try_consume_send_frame St tx_func c st = (k, c', st') ->
  exists n, c' = Gvret.with_buf c (skipn n (Gvret.buf c)) /\
            (k = Gvret.NeedMore -> n = O /\ st' = st).
Proof.
  unfold Gvret._try_consume_send_frame.
  assert (Hsame : c = Gvret.with_buf c (skipn 0 (Gvret.buf c)))
    by (destruct c; reflexivity).
  destruct (length (Gvret.buf c) <? 8)%nat.
  { intros [= <- <- <-]. exists O. auto. }
  destruct (negb _).
  { intros [= <- <- <-]. exists O. auto. }
  destruct (Z.of_nat (length (Gvret.buf c)) <? _).
  { intros [= <- <- <-]. exists O. auto. }
  destruct tx_func as [f|].
  - destruct (f _ _ _ st); intros [= <- <- <-]; eexists; (split; [reflexivity|discriminate]).
  - intros [= <- <- <-]; eexists; (split; [reflexivity|discriminate]).
Qed.

(** A request that is all there is read the same whatever follows it. *)
Lemma consume_app (c c' : Gvret.GVRETClient) (st st' : St) (k : Gvret.consumed)
    (b : list Z) :
  Forall is_byte (Gvret.buf c) ->
  Gvret._try_consume_send_frame St tx_func c st = (k, c', st') ->
  k <> Gvret.NeedMore ->
  Gvret._try_consume_send_frame St tx_func
    (Gvret.with_buf c (Gvret.buf c ++ b)) st
  = (k, Gvret.with_buf c' (Gvret.buf c' ++ b), st').
Proof.
  intros Hb H Hk. unfold Gvret._try_consume_send_frame in *.
  cbn [Gvret.buf Gvret.with_buf] in *.
  set (u := Gvret.buf c) in *.
  destruct (length u <? 8)%nat eqn:H8.
  { injection H as <- _ _. contradiction. }
  apply Nat.ltb_ge in H8.
  assert (H8' : (length (u ++ b) <? 8)%nat = false)
    by (apply Nat.ltb_ge; rewrite length_app; lia).
  rewrite H8'.
  rewrite !(app_nth1 u b 0) by lia.
  destruct (negb _).
  { injection H as <- _ _. contradiction. }
  assert (Hd : is_byte (nth 7 u 0)) by (apply Forall_nth; [exact Hb|lia]).
  unfold is_byte in Hd.
  destruct (Z.of_nat (length u) <? 8 + nth 7 u 0) eqn:Hneed.
  { injection H as <- _ _. contradiction. }
  apply Z.ltb_ge in Hneed.
  assert (Hneed' : (Z.of_nat (length (u ++ b)) <? 8 + nth 7 u 0) = false)
    by (apply Z.ltb_ge; rewrite length_app; lia).
  rewrite Hneed'.
  rewrite (slice_app_l 2 6 u b) by lia.
  rewrite (slice_app_l 8 (8 + Z.to_nat (Z.min (nth 7 u 0) 8)) u b) by lia.
  rewrite (skipn_app_l (Z.to_nat (8 + nth 7 u 0)) u b) by lia.
  destruct tx_func as [f|].
  - destruct (f _ _ _ st); injection H as <- <- <-; reflexivity.
  - injection H as <- <- <-; reflexivity.
Qed.

(** The replies do not look at the buffer. *)
Lemma dispatch_with_buf (clock cmd : Z) (c : Gvret.GVRETClient) (x : list Z) :
  Gvret.dispatch clock cmd (Gvret.with_buf c x)
  = match Gvret.dispatch clock cmd c with
    | Some c' => Some (Gvret.with_buf c' x)
    | None => None
    end.
Proof.
  unfold Gvret.dispatch, Gvret.reply_dev_info, Gvret.reply_canbus_params,
    Gvret.reply_num_buses, Gvret.reply_timebase, Gvret.reply_keepalive,
    Gvret.speed_at, bind.
  cbn [Gvret.bus_count Gvret.bus_speeds Gvret.with_buf].
  repeat match goal with
         | |- context [if ?b then _ else _] => destruct b
         | |- context [match ?e with Some _ => _ | None => _ end] =>
             destruct e
         end; reflexivity.
Qed.

(** Parsing is incremental: parsing a buffer with more bytes behind it
    is parsing the buffer, then parsing what that left with the bytes
    behind it; when a request raised, the bytes stay unread. *)
Lemma parse_binary_app (clock : Z) (b : list Z) :
  Forall is_byte b ->
  forall (fuel : nat) (c c1 : Gvret.GVRETClient) (st st1 : St),
    Gvret.binary c = true -> Gvret.alive c = true ->
    Forall is_byte (Gvret.buf c) ->
    (length (Gvret.buf c) < fuel)%nat ->
    Gvret.parse_binary St tx_func fuel clock c st = (c1, st1) ->
    (exists pre, Gvret.buf c = pre ++ Gvret.buf c1) /\
    Gvret.binary c1 = true /\
    forall fuel', (length (Gvret.buf c) + length b < fuel')%nat ->
      Gvret.parse_binary St tx_func fuel' clock
        (Gvret.with_buf c (Gvret.buf c ++ b)) st
      = if Gvret.alive c1
        then Gvret.parse_binary St tx_func fuel' clock
               (Gvret.with_buf c1 (Gvret.buf c1 ++ b)) st1
        else (Gvret.with_buf c1 (Gvret.buf c1 ++ b), st1).
Proof.
  intros Hb. induction fuel as [|fuel IH];
    intros c c1 st st1 Hbin Halive Hbytes Hlen H; [lia|].
  destruct (resync_suffix (Gvret.buf c)) as [pre0 Hpre0].
  pose proof (resync_length (Gvret.buf c)) as Hrl.
  pose proof (resync_is_byte _ Hbytes) as Hrb.
  assert (Hstop : forall fuel',
            (length (Gvret.buf c) + length b < fuel')%nat ->
            Gvret.parse_binary St tx_func fuel' clock
              (Gvret.with_buf c (Gvret.buf c ++ b)) st
            = Gvret.parse_binary St tx_func fuel' clock
                (Gvret.with_buf (Gvret.with_buf c (Gvret.resync (Gvret.buf c)))
                   (Gvret.resync (Gvret.buf c) ++ b)) st).
  { intros [|f'] Hf; [lia|].
    rewrite <- (parse_resync_app clock f' c st (Gvret.buf c) b Hbin).
    reflexivity. }
  assert (Hhead : forall fuel',
            (length (Gvret.buf c) + length b < fuel')%nat ->
            exists f', fuel' = S f' /\
            Gvret.parse_binary St tx_func fuel' clock
              (Gvret.with_buf c (Gvret.buf c ++ b)) st
            = Gvret.parse_binary St tx_func (S f') clock
                (Gvret.with_buf c (Gvret.resync (Gvret.buf c) ++ b)) st).
  { intros [|f'] Hf; [lia|]. exists f'. split; [reflexivity|].
    rewrite (parse_resync_app clock f' c st (Gvret.buf c) b Hbin).
    reflexivity. }
  cbn [Gvret.parse_binary] in H. rewrite Hbin in H. cbn [negb] in H.
  cbn [Gvret.buf Gvret.with_buf] in H.
  destruct (Gvret.resync (Gvret.buf c)) as [|x0 [|cmd rest]] eqn:Hr.
  - injection H as <- <-. split; [exists pre0; exact Hpre0|].
    split; [exact Hbin|]. intros fuel' Hf.
    match goal with
    | |- context [if ?a then _ else _] => change a with (Gvret.alive c)
    end.
    rewrite Halive. exact (Hstop fuel' Hf).
  - injection H as <- <-. split; [exists pre0; exact Hpre0|].
    split; [exact Hbin|]. intros fuel' Hf.
    match goal with
    | |- context [if ?a then _ else _] => change a with (Gvret.alive c)
    end.
    rewrite Halive. exact (Hstop fuel' Hf).
  - assert (Hx0 : x0 = 241) by (exact (resync_head _ _ _ Hr)). subst x0.
    change (241 =? 241) with true in H. cbn [negb] in H.
    destruct (cmd =? 0) eqn:Hcmd.
    + destruct (Gvret._try_consume_send_frame St tx_func
                  (Gvret.with_buf c (241 :: cmd :: rest)) st)
        as [[k c'] st'] eqn:Hk.
      destruct (consumed_form _ _ _ _ _ Hk) as [n [Hc' Hnm]].
      cbn [Gvret.buf Gvret.with_buf] in Hc'.
      destruct k.
      * pose proof (consume_app (Gvret.with_buf c (241 :: cmd :: rest)) _ _ _ _ b
                      Hrb Hk ltac:(discriminate)) as Hka.
        apply consumed_shrinks in Hk as [Hsh [Hb' Hbin']]; [|exact Hrb].
        cbn [Gvret.buf Gvret.with_buf Gvret.binary] in Hsh, Hbin'.
        assert (Halive' : Gvret.alive c' = true) by (rewrite Hc'; exact Halive).
        assert (Hbin1 : Gvret.binary c' = true) by (rewrite Hbin'; exact Hbin).
        destruct (IH c' c1 st' st1 Hbin1 Halive' Hb' ltac:(lia) H)
          as [[pre Hpre] [Hb1 Hall]].
        split.
        { exists (pre0 ++ firstn n (241 :: cmd :: rest) ++ pre).
          rewrite Hpre0, <- !app_assoc. f_equal.
          rewrite <- Hpre, Hc'. cbn [Gvret.buf Gvret.with_buf].
          symmetry. apply firstn_skipn. }
        split; [exact Hb1|]. intros fuel' Hf.
        destruct (Hhead fuel' Hf) as [f' [-> ->]].
        change ((241 :: cmd :: rest) ++ b) with (241 :: cmd :: rest ++ b).
        rewrite (parse_step_head clock f' c st cmd (rest ++ b) Hbin), Hcmd.
        change (Gvret.with_buf c (241 :: cmd :: rest ++ b))
          with (Gvret.with_buf (Gvret.with_buf c (241 :: cmd :: rest))
                  (Gvret.buf (Gvret.with_buf c (241 :: cmd :: rest)) ++ b)).
        rewrite Hka.
        rewrite Hall by lia.
        destruct (Gvret.alive c1); [|reflexivity].
        assert (Hb1b : Forall is_byte (Gvret.buf c1 ++ b)).
        { apply Forall_app. split; [|exact Hb].
          rewrite Hpre in Hb'. apply Forall_app in Hb' as [_ Hb']. exact Hb'. }
        assert (Hl1 : (length (Gvret.buf c1) <= length (Gvret.buf c'))%nat)
          by (rewrite Hpre, length_app; lia).
        apply parse_binary_fuel; cbn [Gvret.buf Gvret.with_buf];
          [exact Hb1b|rewrite length_app; lia|rewrite length_app; lia].
      * destruct (Hnm eq_refl) as [-> ->]. cbn [skipn] in Hc'.
        injection H as <- <-. rewrite Hc'.
        split; [exists pre0; exact Hpre0|].
        split; [exact Hbin|]. intros fuel' Hf.
        match goal with
    | |- context [if ?a then _ else _] => change a with (Gvret.alive c)
    end.
    rewrite Halive. exact (Hstop fuel' Hf).
      * pose proof (consume_app (Gvret.with_buf c (241 :: cmd :: rest)) _ _ _ _ b
                      Hrb Hk ltac:(discriminate)) as Hka.
        injection H as <- <-.
        split.
        { exists (pre0 ++ firstn n (241 :: cmd :: rest)).
          rewrite Hpre0, <- !app_assoc. f_equal.
          rewrite Hc'. cbn [Gvret.buf Gvret.with_buf Gvret.close].
          symmetry. apply firstn_skipn. }
        split; [rewrite Hc'; exact Hbin|]. intros fuel' Hf.
        destruct (Hhead fuel' Hf) as [f' [-> ->]].
        change ((241 :: cmd :: rest) ++ b) with (241 :: cmd :: rest ++ b).
        rewrite (parse_step_head clock f' c st cmd (rest ++ b) Hbin), Hcmd.
        change (Gvret.with_buf c (241 :: cmd :: rest ++ b))
          with (Gvret.with_buf (Gvret.with_buf c (241 :: cmd :: rest))
                  (Gvret.buf (Gvret.with_buf c (241 :: cmd :: rest)) ++ b)).
        rewrite Hka. reflexivity.
    + change (Gvret.with_buf (Gvret.with_buf c (241 :: cmd :: rest)) rest)
        with (Gvret.with_buf c rest) in H.
      pose proof (dispatch_with_buf clock cmd (Gvret.with_buf c rest) (rest ++ b))
        as Hdb.
      change (Gvret.with_buf (Gvret.with_buf c rest) (rest ++ b))
        with (Gvret.with_buf c (rest ++ b)) in Hdb.
      assert (Hrest : Forall is_byte rest).
      { inversion Hrb as [|? ? _ Hr1]. inversion Hr1; assumption. }
      destruct (Gvret.dispatch clock cmd (Gvret.with_buf c rest)) as [c'|] eqn:Hd.
      * apply dispatch_keeps in Hd as [Hbuf [Hbin' Halive']].
        cbn [Gvret.buf Gvret.with_buf Gvret.binary Gvret.alive]
          in Hbuf, Hbin', Halive'.
        cbn [length] in Hrl.
        destruct (IH c' c1 st st1 ltac:(congruence) ltac:(congruence)
                    ltac:(rewrite Hbuf; exact Hrest)
                    ltac:(rewrite Hbuf; lia) H)
          as [[pre Hpre] [Hb1 Hall]].
        split.
        { exists (pre0 ++ [241; cmd] ++ pre).
          rewrite Hpre0, <- !app_assoc. f_equal. cbn [app]. do 2 f_equal.
          rewrite <- Hpre. symmetry. exact Hbuf. }
        split; [exact Hb1|]. intros fuel' Hf.
        destruct (Hhead fuel' Hf) as [f' [-> ->]].
        change ((241 :: cmd :: rest) ++ b) with (241 :: cmd :: rest ++ b).
        rewrite (parse_step_head clock f' c st cmd (rest ++ b) Hbin), Hcmd, Hdb.
        rewrite <- Hbuf. rewrite Hall by (rewrite Hbuf; lia).
        destruct (Gvret.alive c1); [|reflexivity].
        assert (Hb1b : Forall is_byte (Gvret.buf c1 ++ b)).
        { apply Forall_app. split; [|exact Hb].
          rewrite <- Hbuf, Hpre in Hrest. apply Forall_app in Hrest as [_ Hb'].
          exact Hb'. }
        assert (Hl1 : (length (Gvret.buf c1) <= length rest)%nat)
          by (rewrite <- Hbuf, Hpre, length_app; lia).
        apply parse_binary_fuel; cbn [Gvret.buf Gvret.with_buf];
          [exact Hb1b|rewrite length_app; lia|rewrite length_app; lia].
      * injection H as <- <-.
        split.
        { exists (pre0 ++ [241; cmd]).
          rewrite Hpre0, <- !app_assoc. reflexivity. }
        split; [exact Hbin|]. intros fuel' Hf.
        destruct (Hhead fuel' Hf) as [f' [-> ->]].
        change ((241 :: cmd :: rest) ++ b) with (241 :: cmd :: rest ++ b).
        rewrite (parse_step_head clock f' c st cmd (rest ++ b) Hbin), Hcmd, Hdb.
        reflexivity.
Qed.

(** Without E7 E7 in the buffer the handshake loop has nothing to do. *)
Lemma rx_chunk_no_mark (clock : Z) (chunk : list Z) (c : Gvret.GVRETClient)
    (st : St) :
  Gvret.find_E7E7 (Gvret.buf c ++ chunk) = None ->
  Gvret.rx_chunk St tx_func clock chunk c st
  = Gvret.parse_binary St tx_func (S (length (Gvret.buf c ++ chunk))) clock
      (Gvret.with_buf c (Gvret.buf c ++ chunk)) st.
Proof.
  intros Hf. unfold Gvret.rx_chunk.
  cbn [Gvret.handshake Gvret.buf Gvret.with_buf]. rewrite Hf. reflexivity.
Qed.

Lemma rx_loop_one (clock : Z) (chunk : list Z) (c : Gvret.GVRETClient) (st : St) :
  Gvret.alive c = true -> chunk <> [] ->
  Gvret._rx_loop St tx_func clock [chunk] c st
  = Gvret.rx_chunk St tx_func clock chunk c st.
Proof.
  intros Ha Hne. cbn [Gvret._rx_loop]. rewrite Ha. cbn [negb].
  destruct chunk as [|x chunk]; [contradiction|].
  destruct (Gvret.rx_chunk St tx_func clock (x :: chunk) c st). reflexivity.
Qed.

(** X22. How the bytes a client sends are cut into segments does not
    matter to a session in binary state, as long as they hold no E7 E7:
    received in any number of chunks or in one, the same frames are
    transmitted, the same replies are sent and the session is closed or
    not alike; and a session that is still open is left in the very same
    state. *)
Theorem segmentation_is_immaterial (clock : Z) (chunks : list (list Z)) :
  forall (c : Gvret.GVRETClient) (st : St),
    chunks <> [] -> Forall (fun chunk => chunk <> []) chunks ->
    Gvret.binary c = true -> Gvret.alive c = true ->
    Forall is_byte (Gvret.buf c ++ concat chunks) ->
    Gvret.find_E7E7 (Gvret.buf c ++ concat chunks) = None ->
    let r := Gvret._rx_loop St tx_func clock chunks c st in
    let r' := Gvret._rx_loop St tx_func clock [concat chunks] c st in
    snd r = snd r' /\
    Gvret.sent (fst r) = Gvret.sent (fst r') /\
    Gvret.alive (fst r) = Gvret.alive (fst r') /\
    (Gvret.alive (fst r) = true -> r = r').
Proof.
  induction chunks as [|a rest IH];
    intros c st Hne Hall Hbin Halive Hbytes Hfind; [contradiction|].
  destruct rest as [|a2 more].
  - cbn [concat]. rewrite app_nil_r. cbn zeta. auto.
  - set (rest := a2 :: more) in *.
    inversion Hall as [|? ? Ha Hrest]; subst.
    assert (Hcat : concat rest <> []).
    { subst rest. cbn [concat]. inversion Hrest as [|? ? Ha2 _]; subst.
      destruct a2; [contradiction|discriminate]. }
    cbn [concat] in *. cbn zeta.
    rewrite app_assoc in Hbytes, Hfind.
    assert (Hba : Forall is_byte (Gvret.buf c ++ a))
      by (apply Forall_app in Hbytes as [H _]; exact H).
    assert (Hbr : Forall is_byte (concat rest))
      by (apply Forall_app in Hbytes as [_ H]; exact H).
    assert (E1 : Gvret._rx_loop St tx_func clock (a :: rest) c st
                 = Gvret._rx_loop St tx_func clock rest
                     (fst (Gvret.rx_chunk St tx_func clock a c st))
                     (snd (Gvret.rx_chunk St tx_func clock a c st))).
    { cbn [Gvret._rx_loop]. rewrite Halive. cbn [negb].
      destruct a as [|x a]; [contradiction|].
      destruct (Gvret.rx_chunk St tx_func clock (x :: a) c st). reflexivity. }
    rewrite E1.
    rewrite (rx_loop_one clock (a ++ concat rest) c st Halive)
      by (destruct a; [contradiction|discriminate]).
    rewrite (rx_chunk_no_mark clock a c st (find_E7E7_prefix _ _ Hfind)).
    rewrite (rx_chunk_no_mark clock (a ++ concat rest) c st)
      by (rewrite app_assoc; exact Hfind).
    destruct (Gvret.parse_binary St tx_func (S (length (Gvret.buf c ++ a))) clock
                (Gvret.with_buf c (Gvret.buf c ++ a)) st) as [c' st'] eqn:HP.
    apply (parse_binary_app clock (concat rest) Hbr) in HP;
      [|exact Hbin|exact Halive|exact Hba|cbn [Gvret.buf Gvret.with_buf]; lia].
    destruct HP as [[pre Hpre] [Hbin' Happ]].
    cbn [Gvret.buf Gvret.with_buf] in Hpre.
    rewrite app_assoc.
    change (Gvret.with_buf c ((Gvret.buf c ++ a) ++ concat rest))
      with (Gvret.with_buf (Gvret.with_buf c (Gvret.buf c ++ a))
              (Gvret.buf (Gvret.with_buf c (Gvret.buf c ++ a)) ++ concat rest)).
    rewrite Happ by (cbn [Gvret.buf Gvret.with_buf]; rewrite !length_app; lia).
    cbn [fst snd].
    assert (Hb' : Forall is_byte (Gvret.buf c' ++ concat rest)).
    { apply Forall_app. split; [|exact Hbr].
      rewrite Hpre in Hba. apply Forall_app in Hba as [_ H]. exact H. }
    assert (Hf' : Gvret.find_E7E7 (Gvret.buf c' ++ concat rest) = None).
    { apply (find_E7E7_suffix pre). rewrite app_assoc, <- Hpre. exact Hfind. }
    destruct (Gvret.alive c') eqn:Ha'.
    + pose proof (IH c' st' ltac:(discriminate) Hrest Hbin' Ha' Hb' Hf') as HIH.
      cbn zeta in HIH.
      rewrite (rx_loop_one clock (concat rest) c' st' Ha' Hcat) in HIH.
      rewrite (rx_chunk_no_mark clock (concat rest) c' st' Hf') in HIH.
      assert (Hfuel : Gvret.parse_binary St tx_func
                        (S (length ((Gvret.buf c ++ a) ++ concat rest))) clock
                        (Gvret.with_buf c' (Gvret.buf c' ++ concat rest)) st'
                      = Gvret.parse_binary St tx_func
                          (S (length (Gvret.buf c' ++ concat rest))) clock
                          (Gvret.with_buf c' (Gvret.buf c' ++ concat rest)) st').
      { apply parse_binary_fuel; cbn [Gvret.buf Gvret.with_buf].
        - exact Hb'.
        - rewrite Hpre, !length_app. lia.
        - lia. }
      rewrite Hfuel. exact HIH.
    + subst rest. cbn [Gvret._rx_loop]. rewrite Ha'. cbn [negb fst snd].
      cbn [Gvret.sent Gvret.alive Gvret.with_buf].
      repeat split; try reflexivity; try assumption.
      rewrite Ha'. discriminate.
Qed.

End Segments.

Lemma segmentation_is_immaterial_witness :
  let c := Gvret.enter_binary (Gvret.new_client 1 [500000]) in
  let chunks := [[0xF1; 0x09; 0xF1; 0x00; 0x23; 0x01];
                 [0x00; 0x00; 0x00; 0x02; 0xAA];
                 [0xBB; 0xF1; 0x0C; 0xF1]] in
  Gvret._rx_loop _ (Some tx_log) 7 chunks c []
  = Gvret._rx_loop _ (Some tx_log) 7 [concat chunks] c [].
Proof.
  intros c chunks.
  refine (proj2 (proj2 (proj2
            (segmentation_is_immaterial _ (Some tx_log) 7 chunks c []
               ltac:(discriminate) _ eq_refl eq_refl _ eq_refl))) eq_refl).
  - repeat constructor; discriminate.
  - repeat constructor; unfold is_byte; cbn; lia.
Defined.

(** ** The console line *)

Lemma string_app_assoc (a b c : string) :
  ((a ++ b) ++ c)%string = (a ++ b ++ c)%string.
Proof.
  induction a as [|x a IH]; [reflexivity|].
  cbn [String.append]. rewrite IH. reflexivity.
Qed.

(** The length byte of an FD frame read as a DLC code gives the length
    itself up to 8 only. *)
Lemma fd_length_as_dlc (L : Z) :
  0 <= L < 256 -> (dlc_to_len L true =? Z.min L 64) = (L <=? 8).
Proof.
  intros HL.
  apply (zrange_forallb 0 256
           (fun L => Bool.eqb (dlc_to_len L true =? Z.min L 64) (L <=? 8)))
    in HL; [|vm_compute; reflexivity].
  apply Bool.eqb_prop in HL. exact HL.
Qed.

(** X23. The console line of a frame ends with the ASCII column of the
    bytes [format_candump_line] takes for the payload.  For a classic
    frame these are the bytes [run] forwards to the sessions and the
    database.  For an FD frame the length byte is read as a DLC code, so
    that the line shows the forwarded payload only when the length is 8 at
    most: it shows 24 bytes of a 12-byte frame and 8 bytes of a 64-byte
    frame. *)
Theorem console_line_payload (frame : list Z) (t0_us : Z) (bus_idx : option Z)
    (is_fd : bool) (monotonic_us : Z) (wall : string) :
  Forall is_byte frame -> (length frame = 16 \/ length frame = 72)%nat ->
  let L := nth 4 frame 0 in
  exists f r head,
    candump_decode frame = Some f /\
    Bridge.rx_frame frame = Some r /\
    format_candump_line frame false t0_us bus_idx is_fd monotonic_us wall
      = (head ++ " | " ++ ascii_column (cd_data f) ++ chr 10)%string /\
    Z.of_nat (length (cd_data f))
      = (if (length frame =? 72)%nat then dlc_to_len L true else Z.min L 8) /\
    (cd_data f = Bridge.rx_data r <-> (length frame = 16%nat \/ L <= 8)).
Proof.
  intros Hb Hlen L.
  assert (HL : is_byte L) by (apply Forall_nth; [exact Hb|lia]).
  unfold is_byte in HL.
  destruct (rx_frame_payload frame Hb Hlen) as [r [Hr [Hfd [Hdata [Hdl _]]]]].
  assert (Hdec : exists f, candump_decode frame = Some f /\
            cd_data f = firstn (Z.to_nat (if (length frame =? 72)%nat
                                          then dlc_to_len L true else Z.min L 8))
                               (skipn 8 frame)).
  { unfold candump_decode.
    destruct Hlen as [Hlen|Hlen]; rewrite Hlen; cbn [Nat.eqb];
      eexists; (split; [reflexivity|]);
      unfold cd_data; cbn [cd_data_len cd_raw]; unfold slice;
      f_equal; apply firstn_all2; rewrite length_skipn; lia. }
  destruct Hdec as [f [Hf Hfdata]].
  exists f, r.
  eexists. split; [exact Hf|]. split; [exact Hr|]. split; [|split].
  - unfold format_candump_line. rewrite Hf. cbn zeta. cbn [andb].
    unfold _colour_red at 2. fold (ascii_column (cd_data f)).
    rewrite <- !string_app_assoc. reflexivity.
  - rewrite Hfdata, length_firstn, length_skipn.
    pose proof (dlc_to_len_fd_bound L).
    destruct Hlen as [Hlen|Hlen]; rewrite Hlen; cbn [Nat.eqb]; [lia|].
    assert (0 <= dlc_to_len L true).
    { unfold dlc_to_len. destruct (L <=? 8); [lia|].
      destruct (true && (L <=? 15)) eqn:E; [|lia].
      cbn [andb] in E. apply Z.leb_le in E.
      apply Z.leb_le.
      apply (zrange_forallb 0 16 (fun d => 0 <=? nth (Z.to_nat d) CAN_FD_DLC_LEN 0));
        [vm_compute; reflexivity|lia]. }
    lia.
  - rewrite Hfdata, Hdata, Hfd.
    destruct Hlen as [Hlen|Hlen]; rewrite Hlen; cbn [Nat.eqb].
    + split; [intros _; left; reflexivity|reflexivity].
    + pose proof (fd_length_as_dlc L HL) as Hcmp.
      pose proof (dlc_to_len_fd_bound L) as Hbound.
      split.
      * intros Heq. right.
        apply (f_equal (@length Z)) in Heq.
        rewrite !length_firstn, length_skipn, Hlen in Heq.
        apply Z.leb_le. rewrite <- Hcmp. apply Z.eqb_eq. lia.
      * intros [Hc|Hc]; [discriminate|].
        apply Z.leb_le in Hc. rewrite <- Hcmp in Hc. apply Z.eqb_eq in Hc.
        rewrite Hc. reflexivity.
Qed.

Lemma console_line_payload_witness :
  let frame := [0x23; 0x01; 0; 0; 64; 0; 0; 0] ++ map Z.of_nat (seq 60 64) in
  exists f r head,
    candump_decode frame = Some f /\
    Bridge.rx_frame frame = Some r /\
    format_candump_line frame false 1000 (Some 0) true 123456789 "0.0"
      = (head ++ " | " ++ ascii_column (cd_data f) ++ chr 10)%string /\
    Z.of_nat (length (cd_data f)) = 8 /\
    (cd_data f = Bridge.rx_data r <-> (length frame = 16%nat \/ 64 <= 8)).
Proof.
  intros frame.
  refine (console_line_payload frame 1000 (Some 0) true 123456789 "0.0" _ _).
  - repeat constructor; unfold is_byte; cbn; lia.
  - right. reflexivity.
Defined.

(** ** Recovery from the disk cache *)

Section Recovery.

Variable grow : Z -> list Ingest.row -> Z.
Variable fresh_size : Z.




End Recovery.


(** ** Configuration file *)

Section Overrides.

Variable V : Type.
Variable is_True : V -> bool.
Variable True_ : V.
Variable str_upper : V -> V.
Variable to_float : V -> option V.

Lemma setattr_other (args : Config.table V) (k k' : string) (v : V) :
  k' <> k -> Config.setattr V args k v k' = args k'.
Proof.
  intros Hne. unfold Config.setattr.
  destruct (String.eqb k' k) eqn:E; [|reflexivity].
  apply String.eqb_eq in E. contradiction.
Qed.

Lemma copy_keys_other (conf : Config.table V) (k : string)
    (keys : list (string * string)) :
  forall args : Config.table V,
    ~ In k (map snd keys) -> Config.copy_keys V conf keys args k = args k.
Proof.
  induction keys as [|[cfg_key arg_key] keys IH]; intros args Hk; [reflexivity|].
  cbn [Config.copy_keys]. cbn [map snd In] in Hk.
  rewrite IH by tauto.
  destruct (conf cfg_key); [|reflexivity].
  apply setattr_other. intros ->. tauto.
Qed.

(** What the [logging] table does to the arguments. *)
Lemma logging_other (conf args args' : Config.table V) (k : string) :
  k <> "log_level"%string -> k <> "stats_interval"%string ->
  match conf "stats_interval"%string with
  | Some v =>
      f <- to_float v ;;
      Some (Config.setattr V
              match conf "level"%string with
              | Some v => Config.setattr V args "log_level" (str_upper v)
              | None => args
              end "stats_interval" f)
  | None => Some match conf "level"%string with
                 | Some v => Config.setattr V args "log_level" (str_upper v)
                 | None => args
                 end
  end = Some args' ->
  args' k = args k.
Proof.
  intros H1 H2 H.
  assert (Hlevel : match conf "level"%string with
                   | Some v => Config.setattr V args "log_level" (str_upper v)
                   | None => args
                   end k = args k).
  { destruct (conf "level"%string); [|reflexivity].
    apply setattr_other. exact H1. }
  destruct (conf "stats_interval"%string) as [v|].
  - unfold bind in H. destruct (to_float v) as [f|]; [|discriminate].
    injection H as <-. rewrite setattr_other by exact H2. exact Hlevel.
  - injection H as <-. exact Hlevel.
Qed.

(** X25. [apply_config_overrides] sets no attribute other than the eight
    server arguments, [pg_enable] and the nine postgres arguments,
    [log_level] and [stats_interval].  When the [postgres] table has no
    [enable] key whose value is [True], it does not set any postgres
    argument either, whatever else the table holds: [pg_enable] and the
    arguments of the command line stay as they are. *)
Theorem config_sets_listed_arguments (args args' : Config.table V)
    (cfg : string -> option (Config.table V)) :
  Config.apply_config_overrides V is_True True_ str_upper to_float args cfg
    = Some args' ->
  (forall k, ~ In k config_targets -> args' k = args k) /\
  (match Config.section V cfg "postgres" "enable"%string with
   | Some v => is_True v
   | None => false
   end = false ->
   forall k, In k postgres_targets -> args' k = args k).
Proof.
  unfold Config.apply_config_overrides. intros H.
  set (enabled := match Config.section V cfg "postgres" "enable"%string with
                  | Some v => is_True v
                  | None => false
                  end) in *.
  split.
  - intros k Hk. unfold config_targets in Hk.
    rewrite !in_app_iff in Hk.
    rewrite (logging_other _ _ _ k ltac:(intros ->; apply Hk; right; right; left; reflexivity)
               ltac:(intros ->; apply Hk; right; right; right; left; reflexivity) H).
    assert (Hserver : Config.copy_keys V (Config.section V cfg "server")
                        (map (fun k => (k, k)) Config.server_keys) args k = args k).
    { apply copy_keys_other. rewrite map_map, map_id. tauto. }
    destruct enabled; [|exact Hserver].
    rewrite copy_keys_other by (intros Hin; apply Hk; right; left; right; exact Hin).
    rewrite setattr_other by (intros ->; apply Hk; right; left; left; reflexivity).
    exact Hserver.
  - intros Hen k Hk. rewrite Hen in H.
    assert (Hnot : ~ In k Config.server_keys /\ k <> "log_level"%string /\
                   k <> "stats_interval"%string).
    { unfold postgres_targets in Hk. cbn in Hk.
      repeat (destruct Hk as [<-|Hk];
              [split; [intros Hin; cbn in Hin;
                       repeat (destruct Hin as [Hin|Hin]; [discriminate|]);
                       contradiction
                      |split; discriminate]|]).
      contradiction. }
    destruct Hnot as [Hs [Hl Hi]].
    rewrite (logging_other _ _ _ k Hl Hi H).
    apply copy_keys_other. rewrite map_map, map_id. exact Hs.
Qed.

End Overrides.

Lemma config_sets_listed_arguments_witness :
  let args : Config.table string :=
    fun k => if String.eqb k "pg_enable" then Some "True"%string
             else if String.eqb k "pg_dsn" then Some "dbname=cli"%string
             else None in
  let cfg : string -> option (Config.table string) :=
    fun s => if String.eqb s "postgres"
             then Some (fun k => if String.eqb k "enable" then Some "False"%string
                                 else if String.eqb k "dsn" then Some "dbname=file"%string
                                 else None)
             else if String.eqb s "server"
             then Some (fun k => if String.eqb k "port" then Some "2323"%string
                                 else None)
             else None in
  let args' : Config.table string :=
    Config.copy_keys string (Config.section string cfg "server")
      (map (fun k => (k, k)) Config.server_keys) args in
  args' "port"%string = Some "2323"%string /\
  (forall k, In k postgres_targets -> args' k = args k).
Proof.
  intros args cfg args'. split; [reflexivity|].
  exact (proj2 (config_sets_listed_arguments string (String.eqb "True") "True"%string
                  (fun s => s) (fun s => Some s) args args' cfg eq_refl)
               eq_refl).
Defined.

